(** * Shopify App Store scraper: extraction pipeline, shallow embedding

    The development follows the repository module by module:
    - [Py]       the Python string primitives and values the code relies on;
    - [Regex]    the backtracking matcher behind [re.search] for the price
                 and star-rating patterns;
    - [Listing]  shopify/products_by_category.py;
    - [Detail]   shopify/product_detail.py;
    - [Reviews]  shopify/reviews_extractor.py;
    - [Main]     src/main.py (category scraping and the run-level loop);
    - [Apps]     shopify/apps_extractor.py;
    - [Utils]    core/utils.py;
    - [Nav]      src/main.py (the navigation file and the choice of
                 categories).

    The browser page is an external collaborator: every value the code reads
    from it (locator counts, inner texts, attributes, click outcomes, clock
    readings) is a field of an observation record.  Characters are the 8-bit
    [ascii] of the standard library, read as the code points U+0000 to
    U+00FF: the model covers Latin-1 text, with the white space, the digits
    and the letter cases Python gives these code points.  Clock readings are
    binary64 floats, as [time.time()] returns them. *)

From Stdlib Require Import ZArith Lia Ascii QArith Qcanon PrimFloat.
From stdpp Require Import base option numbers list gmap sets strings.
From stdpp Require Import pretty.

Local Open Scope Z_scope.
Set Warnings "-register-all".

(* ===================================================================== *)
(** * Python strings and values *)
(* ===================================================================== *)

Module Py.

(** [str.isspace] on one character, which is also what [str.strip] trims
    and what the class [\s] of [re] takes: the white space of Latin-1,
    U+0009 to U+000D, U+001C to U+0020, U+0085 and U+00A0. *)
Definition is_space (c : ascii) : bool :=
  match c with
  | "009" | "010" | "011" | "012" | "013"
  | "028" | "029" | "030" | "031" | " "
  | "133" | "160" => true
  | _ => false
  end%char.

Definition is_char (x c : ascii) : bool := Ascii.eqb c x.

Definition code (c : ascii) : N := N_of_ascii c.

Definition in_range (lo hi : N) (c : ascii) : bool :=
  ((lo <=? code c) && (code c <=? hi))%N.

(** The classes [A-Z], [a-z] and [0-9]; the last is also the class [\d] of
    [re] on Latin-1 text. *)
Definition is_upper (c : ascii) : bool := in_range 65 90 c.
Definition is_lower (c : ascii) : bool := in_range 97 122 c.
Definition is_digit (c : ascii) : bool := in_range 48 57 c.

(** The upper-case letters of Latin-1, U+00C0 to U+00DE without the
    multiplication sign, and its lower-case letters that have their
    upper-case form in Latin-1, U+00E0 to U+00FE without the division
    sign. *)
Definition has_lower (c : ascii) : bool :=
  is_upper c || in_range 192 214 c || in_range 216 222 c.
Definition has_upper (c : ascii) : bool :=
  is_lower c || in_range 224 246 c || in_range 248 254 c.

(** The cased characters of Latin-1: the letters above and the feminine
    ordinal, the micro sign, the masculine ordinal, the sharp s and the y
    with diaeresis. *)
Definition is_cased (c : ascii) : bool :=
  has_lower c || has_upper c ||
  match c with
  | "170" | "181" | "186" | "223" | "255" => true
  | _ => false
  end%char.

(** [str.lower] on one character. *)
Definition lower (c : ascii) : ascii :=
  if has_lower c then ascii_of_N (code c + 32) else c.

(** The title-case form of one character, a text: that of the sharp s is
    "Ss".  The micro sign and the y with diaeresis have theirs outside
    Latin-1 (U+039C and U+0178), so a text in which one of the two starts
    a word has its title form outside the alphabet of the model, which
    leaves the two as they are. *)
Definition title_char (c : ascii) : string :=
  if has_upper c then String (ascii_of_N (code c - 32)) ""
  else if is_char "223" c then "Ss"
  else String c "".

Fixpoint str_map (f : ascii → ascii) (s : string) : string :=
  match s with
  | "" => ""
  | String c s' => String (f c) (str_map f s')
  end.

(** [s.lower()] *)
Definition str_lower : string → string := str_map lower.

Fixpoint all_chars (p : ascii → bool) (s : string) : bool :=
  match s with
  | "" => true
  | String c s' => p c && all_chars p s'
  end.

(** [s.lstrip(chars)], [s.rstrip(chars)], [s.strip(chars)], the set of
    characters given as a predicate. *)
Fixpoint lstrip (p : ascii → bool) (s : string) : string :=
  match s with
  | "" => ""
  | String c s' => if p c then lstrip p s' else s
  end.

Fixpoint rstrip (p : ascii → bool) (s : string) : string :=
  match s with
  | "" => ""
  | String c s' =>
      match rstrip p s' with
      | "" => if p c then "" else String c ""
      | r => String c r
      end
  end.

Definition strip_chars (p : ascii → bool) (s : string) : string :=
  rstrip p (lstrip p s).

(** [s.strip()] *)
Definition strip : string → string := strip_chars is_space.

(** [s.startswith(pre)] *)
Fixpoint startswith (pre s : string) : bool :=
  match pre, s with
  | "", _ => true
  | String a pre', String c s' => Ascii.eqb a c && startswith pre' s'
  | String _ _, "" => false
  end.

(** [new.join(list(s))] with [new] also put in front and behind: what
    [s.replace("", new)] gives. *)
Fixpoint interleave (new s : string) : string :=
  match s with
  | "" => new
  | String c s' => new +:+ String c (interleave new s')
  end.

(** [s.replace(old, new)]: occurrences are found left to right and do not
    overlap.  [skip] counts the characters of the occurrence just replaced
    that are still to be dropped. *)
Fixpoint replace_go (old new : string) (skip : nat) (s : string) : string :=
  match s with
  | "" => ""
  | String c s' =>
      match skip with
      | S k => replace_go old new k s'
      | O =>
          if startswith old s
          then new +:+ replace_go old new (Nat.pred (String.length old)) s'
          else String c (replace_go old new 0 s')
      end
  end.

Definition replace (old new s : string) : string :=
  match old with
  | "" => interleave new s
  | _ => replace_go old new 0 s
  end.

(** [s.split(sep)[0]] for a one-character separator. *)
Fixpoint split_head (sep : ascii) (s : string) : string :=
  match s with
  | "" => ""
  | String c s' => if Ascii.eqb c sep then "" else String c (split_head sep s')
  end.

(** The first character of [s] that satisfies [p]. *)
Fixpoint first_where (p : ascii → bool) (s : string) : option ascii :=
  match s with
  | "" => None
  | String c s' => if p c then Some c else first_where p s'
  end.

(** [s[:n]] *)
Fixpoint str_take (n : nat) (s : string) : string :=
  match n, s with
  | S n', String c s' => String c (str_take n' s')
  | _, _ => ""
  end.

(** [s[n:]] *)
Fixpoint str_drop (n : nat) (s : string) : string :=
  match n, s with
  | S n', String _ s' => str_drop n' s'
  | _, _ => s
  end.

(** [s.title()]: a cased character is put in title case after an uncased
    one and in lower case after a cased one. *)
Fixpoint title_go (prev_cased : bool) (s : string) : string :=
  match s with
  | "" => ""
  | String c s' =>
      if is_cased c
      then (if prev_cased then String (lower c) "" else title_char c)
           +:+ title_go true s'
      else String c (title_go false s')
  end.

Definition title : string → string := title_go false.

(** Python values as they occur in rows, app records and parsed JSON. *)
Inductive pyval :=
| PNone
| PBool (b : bool)
| PInt (z : Z)
| PFloat (q : Qc)
| PStr (s : string)
| PList (l : list pyval)
| PDict (kv : list (string * pyval)).

Global Instance PStr_inj : Inj (=) (=) PStr.
Proof. by intros ?? [= ->]. Qed.

(** [bool(v)] *)
Definition truthy (v : pyval) : bool :=
  match v with
  | PNone => false
  | PBool b => b
  | PInt z => negb (z =? 0)
  | PFloat q => negb (Qc_eq_bool q 0)
  | PStr s => negb (String.eqb s "")
  | PList l => match l with [] => false | _ => true end
  | PDict kv => match kv with [] => false | _ => true end
  end.

(** [d.get(k)] on a dict nested in a value, held as its items. *)
Fixpoint assoc (k : string) (kv : list (string * pyval)) : option pyval :=
  match kv with
  | [] => None
  | (k', v) :: rest => if String.eqb k k' then Some v else assoc k rest
  end.

(** [d.get(k)] on a dict held in a [gmap]. *)
Definition get (d : gmap string pyval) (k : string) : pyval :=
  default PNone (d !! k).

(** [d.get(k, dflt)] *)
Definition get_or (d : gmap string pyval) (k : string) (dflt : pyval) : pyval :=
  default dflt (d !! k).

(** [a or b] *)
Definition py_or (a b : pyval) : pyval := if truthy a then a else b.

(** An exception, by what [repr(e)] and [str(e)] print for it. *)
Record exn := { exn_repr : string; exn_str : string }.

(** The result of a call that may raise. *)
Inductive outcome (A : Type) :=
| Ok (a : A)
| Raise (e : exn).
Arguments Ok {A} a.
Arguments Raise {A} e.

End Py.

(* ===================================================================== *)
(** * Regular expressions: the fragment of [re] the code uses *)
(* ===================================================================== *)

Module Regex.
Import Py.

(** Patterns.  The starred sub-patterns of the source are all single
    character classes, which is what [Star] takes. *)
Inductive re :=
| Eps
| Cls (p : ascii → bool)
| Seq (a b : re)
| Alt (a b : re)
| Opt (a : re)
| Star (p : ascii → bool).

Definition Plus (p : ascii → bool) : re := Seq (Cls p) (Star p).

(** A literal character under [re.IGNORECASE]; the letters of the patterns
    are ASCII letters, which match their two cases and nothing else of
    Latin-1. *)
Definition ci (x c : ascii) : bool := Ascii.eqb (lower c) (lower x).

Fixpoint lit_ci (s : string) : re :=
  match s with
  | "" => Eps
  | String c s' => Seq (Cls (ci c)) (lit_ci s')
  end.

(** Greedy repetition of a class, then the continuation; on failure one
    character is given back at a time. *)
Fixpoint match_star (p : ascii → bool) (k : string → option string)
    (s : string) : option string :=
  match s with
  | "" => k s
  | String c s' =>
      if p c
      then match match_star p k s' with
           | Some x => Some x
           | None => k s
           end
      else k s
  end.

(** The backtracking matcher: [match_re r s k] matches [r] at the start of
    [s] and hands what is left to [k]; alternatives are tried in order, the
    optional and the starred parts greedily.  The result is the text left
    after the whole match. *)
Fixpoint match_re (r : re) (s : string) (k : string → option string)
    : option string :=
  match r with
  | Eps => k s
  | Cls p =>
      match s with
      | String c s' => if p c then k s' else None
      | "" => None
      end
  | Seq a b => match_re a s (λ s', match_re b s' k)
  | Alt a b =>
      match match_re a s k with
      | Some x => Some x
      | None => match_re b s k
      end
  | Opt a =>
      match match_re a s k with
      | Some x => Some x
      | None => k s
      end
  | Star p => match_star p k s
  end.

(** [re.match(r, s).group(0)] *)
Definition match_at (r : re) (s : string) : option string :=
  match match_re r s Some with
  | Some rest => Some (str_take (String.length s - String.length rest) s)
  | None => None
  end.

(** [re.search(r, s).group(0)]: the match at the leftmost position that
    has one. *)
Fixpoint search (r : re) (s : string) : option string :=
  match match_at r s with
  | Some m => Some m
  | None =>
      match s with
      | "" => None
      | String _ s' => search r s'
      end
  end.

(** The strings a pattern denotes. *)
Inductive lang : re → string → Prop :=
| lang_eps : lang Eps ""
| lang_cls p c : p c = true → lang (Cls p) (String c "")
| lang_seq a b u v : lang a u → lang b v → lang (Seq a b) (u +:+ v)
| lang_alt_l a b u : lang a u → lang (Alt a b) u
| lang_alt_r a b u : lang b u → lang (Alt a b) u
| lang_opt_none a : lang (Opt a) ""
| lang_opt_some a u : lang a u → lang (Opt a) u
| lang_star_nil p : lang (Star p) ""
| lang_star_cons p c u : p c = true → lang (Star p) u → lang (Star p) (String c u).

(** [r] matches in [s] at offset [i], the match being [m]. *)
Definition occurs_at (r : re) (s : string) (i : nat) (m : string) : Prop :=
  ∃ post, str_drop i s = m +:+ post ∧ (i <= String.length s)%nat ∧ lang r m.

(** [r] matches somewhere in [s]. *)
Definition has_match (r : re) (s : string) : Prop :=
  ∃ i m, occurs_at r s i m.

(** [m] is a match of [r] in [s] at the leftmost offset that has one. *)
Definition leftmost_match (r : re) (s : string) (m : string) : Prop :=
  ∃ i, occurs_at r s i m ∧ ∀ j m', (j < i)%nat → ¬ occurs_at r s j m'.

Infix "⋅" := Seq (at level 41, right associativity).

(** The patterns of the source, quoted with [re.VERBOSE] spacing.

    The amount both price patterns start with:
    [( From \s* )? \$ \s* \d+ (?: \. \d+ )?] *)
Definition AMOUNT : re :=
  Opt (lit_ci "From" ⋅ Star is_space) ⋅ Cls (is_char "$") ⋅ Star is_space ⋅
  Plus is_digit ⋅ Opt (Cls (is_char ".") ⋅ Plus is_digit).

(** [( From \s* )? \$ \s* \d+ (?: \. \d+ )? \s* (?: / | \s per \s ) \s*
     ( month | mo | year | yr )] under [re.IGNORECASE] *)
Definition PRICE_PER_PERIOD : re :=
  AMOUNT ⋅ Star is_space ⋅
  Alt (Cls (is_char "/")) (Cls is_space ⋅ lit_ci "per" ⋅ Cls is_space) ⋅
  Star is_space ⋅
  Alt (lit_ci "month") (Alt (lit_ci "mo") (Alt (lit_ci "year") (lit_ci "yr"))).

(** [( From \s* )? \$ \s* \d+ (?: \. \d+ )?] under [re.IGNORECASE] *)
Definition PRICE_BARE : re := AMOUNT.

Definition is_0_to_5 (c : ascii) : bool := ((48 <=? code c) && (code c <=? 53))%N.

(** [( [0-5] (?: \. \d )? )] *)
Definition STARS : re :=
  Cls is_0_to_5 ⋅ Opt (Cls (is_char ".") ⋅ Cls is_digit).

End Regex.

(* ===================================================================== *)
(** * shopify/products_by_category.py *)
(* ===================================================================== *)

Module Listing.
Import Py.

Definition APP_STORE : string := "https://apps.shopify.com/".

(** An anchor element: its [href] attribute ([None] when absent) and its
    inner text. *)
Record anchor := { href_attr : option string; inner_text : string }.

(** What the page shows once loaded: whether the "Recommended" heading is
    there, the anchors of its enclosing section and of the element after
    that section (when it has an enclosing section), and the anchors of its
    parent element. *)
Record section_view := {
  section_anchors : list anchor;
  sibling_anchors : list anchor }.

Record category_page := {
  recommended_h2 : bool;
  enclosing_section : option section_view;
  parent_anchors : list anchor }.

(** A category of the navigation file, as [load_categories_from_nav]
    builds it. *)
Record category := {
  cat_name : string;
  cat_url : string;
  cat_description : string }.

(** [(await a.get_attribute("href")) or ""] *)
Definition href (a : anchor) : string := default "" (href_attr a).

(** The locator [a[href^='https://apps.shopify.com/']] over some anchors. *)
Definition app_links (l : list anchor) : list anchor :=
  filter (λ a, startswith APP_STORE (href a) = true) l.

Definition NON_APP_SLUGS : list string :=
  ["categories"; "pricing"; "blog"; "partners"].

(** Lines 52-53: the slug of a link. *)
Definition slug_of (href : string) : string :=
  let slug_part :=
    strip_chars (is_char "/") (split_head "?" (replace APP_STORE "" href)) in
  strip (split_head "/" slug_part).

(** Lines 48-58: the product URL of a link, [None] where the loop body
    [continue]s before computing it. *)
Definition product_url_of (href : string) : option string :=
  if negb (startswith APP_STORE href) then None
  else
    let slug := slug_of href in
    if String.eqb slug "" || bool_decide (slug ∈ NON_APP_SLUGS) then None
    else Some (APP_STORE +:+ slug).

(** Lines 63-66: the display name. *)
Definition display_name (a : anchor) (slug : string) : string :=
  let name := strip (inner_text a) in
  if String.eqb name "" || (String.length name <? 2)%nat
  then title (replace "-" " " slug)
  else name.

(** Lines 68-78: the row appended for a link. *)
Definition new_row (category_name category_url category_desc : string)
    (name product_url : string) : gmap string pyval :=
  <["reviews_count" := PStr ""]>
  (<["rating" := PStr ""]>
  (<["Price" := PStr ""]>
  (<["Product_description" := PStr ""]>
  (<["products_url" := PStr product_url]>
  (<["Recommended products" := PStr name]>
  (<["description" := PStr category_desc]>
  (<["apps_url" := PStr category_url]>
  (<["Apps category" := PStr category_name]> ∅)))))))).

(** Lines 46-81: the loop over the links, with its [seen] set, its [rows]
    and the [break] once [limit] rows are there. *)
Fixpoint collect_rows (cname curl cdesc : string) (limit : Z)
    (links : list anchor) (seen : gset string)
    (rows : list (gmap string pyval)) : list (gmap string pyval) :=
  match links with
  | [] => rows
  | a :: rest =>
      match product_url_of (href a) with
      | None => collect_rows cname curl cdesc limit rest seen rows
      | Some product_url =>
          if bool_decide (product_url ∈ seen)
          then collect_rows cname curl cdesc limit rest seen rows
          else
            let name := display_name a (slug_of (href a)) in
            let rows' := rows ++ [new_row cname curl cdesc name product_url] in
            if (Z.of_nat (length rows') >=? limit)
            then rows'
            else collect_rows cname curl cdesc limit rest
                   ({[product_url]} ∪ seen) rows'
      end
  end.

(** Lines 13-35: the links the loop runs over, [None] where the function
    returns the empty list early. *)
Definition recommended_links (pg : category_page) : option (list anchor) :=
  if negb (recommended_h2 pg) then None
  else
    let container :=
      match enclosing_section pg with
      | Some sec => section_anchors sec
      | None => parent_anchors pg
      end in
    let links := app_links container in
    let links :=
      match links with
      | [] =>
          match enclosing_section pg with
          | Some sec => app_links (sibling_anchors sec)
          | None => []
          end
      | _ => links
      end in
    match links with
    | [] => None
    | _ => Some links
    end.

Definition extract_products_from_category (pg : category_page)
    (cat : category) (limit : Z) : list (gmap string pyval) :=
  match recommended_links pg with
  | None => []
  | Some links =>
      collect_rows (strip (cat_name cat)) (strip (cat_url cat))
        (strip (cat_description cat)) limit links ∅ []
  end.




(** The product URLs the links give, in page order. *)
Definition candidate_urls (links : list anchor) : list string :=
  omap (λ a, product_url_of (href a)) links.

(** A list without its repeats: every element stays where it first
    occurs. *)
Fixpoint keep_first (l : list string) : list string :=
  match l with
  | [] => []
  | x :: l' => x :: filter (λ y, y ≠ x) (keep_first l')
  end.

(** The [products_url] a row carries. *)
Definition row_url (r : gmap string pyval) : pyval := get r "products_url".

End Listing.

(* ===================================================================== *)
(** * shopify/product_detail.py *)
(* ===================================================================== *)

Module Detail.
Import Py Regex.

(** What the price step reads: how many elements match [text=Free to
    install] and [text=Free plan], and the inner text of [main] ([None]
    where reading it raises). *)
Record price_view := {
  free_to_install : nat;
  free_plan : nat;
  main_text : option string }.

Definition _extract_price (pv : price_view) : string :=
  if negb (free_to_install pv =? 0)%nat then "Free to install"
  else if negb (free_plan pv =? 0)%nat then "Free plan"
  else
    match main_text pv with
    | None => ""
    | Some txt =>
        match search PRICE_PER_PERIOD txt with
        | Some m => strip m
        | None =>
            match search PRICE_BARE txt with
            | Some m2 => strip m2
            | None => ""
            end
        end
    end.

(** [_safe_text]: the stripped inner text, the default where reading
    raises. *)
Definition _safe_text (inner : option string) (dflt : string) : string :=
  match inner with
  | Some t => strip t
  | None => dflt
  end.

(** What the description step reads: the [content] attribute of the first
    [meta[name='description']] ([None] without such an element, [Some None]
    without the attribute), and the inner text of the first [main p]. *)
Record description_view := {
  meta_description : option (option string);
  first_paragraph : option string }.

Definition _extract_description (dv : description_view) : string :=
  let from_meta :=
    match meta_description dv with
    | Some c => strip (default "" c)
    | None => ""
    end in
  if negb (String.eqb from_meta "") then from_meta
  else _safe_text (first_paragraph dv) "".

(** What the developer step finds after the "Developer" label. *)
Inductive developer_view :=
| NoLabel
| NoValue
| ValueLink (text : option string) (href : option string)
| ValueText (text : option string)
| LookupRaises.

Definition none_if_empty (s : string) : pyval :=
  if String.eqb s "" then PNone else PStr s.

Definition _extract_developer_info (dv : developer_view) : pyval * pyval :=
  match dv with
  | NoLabel | NoValue | LookupRaises => (PNone, PNone)
  | ValueLink text href =>
      (none_if_empty (strip (_safe_text text "")),
       match href with Some h => PStr h | None => PNone end)
  | ValueText text => (none_if_empty (strip (_safe_text text "")), PNone)
  end.

(** One visit of a detail page: the outcome of each call of
    [enrich_product_row] on the page, and the clock reading it stamps. *)
Record detail_page := {
  goto : outcome unit;
  developer : outcome developer_view;
  rating_and_reviews : outcome (pyval * pyval);
  utcnow_iso : string;
  description : outcome description_view;
  price : outcome price_view }.

(** [enrich_product_row]: the row after the call (the dict is updated in
    place, so the caller sees it also when the call raises) and how the call
    ended. *)
Definition enrich_product_row (visit : string → detail_page)
    (row : gmap string pyval) : gmap string pyval * outcome unit :=
  match row !! "products_url" with
  | None => (row, Raise {| exn_repr := "KeyError('products_url')";
                           exn_str := "'products_url'" |})
  | Some (PStr url) =>
      let pg := visit url in
      match goto pg with
      | Raise e => (row, Raise e)
      | Ok _ =>
          (* Developer info *)
          let row :=
            match developer pg with
            | Ok dv =>
                let '(developer_name, developer_website) :=
                  _extract_developer_info dv in
                <["developer_website" := developer_website]>
                  (<["developer_name" := developer_name]> row)
            | Raise _ =>
                <["developer_website" := PNone]>
                  (<["developer_name" := PNone]> row)
            end in
          (* Reviews *)
          let row :=
            match rating_and_reviews pg with
            | Ok (rating, reviews_count) =>
                <["reviews_scraped_at" := PStr (utcnow_iso pg +:+ "Z")]>
                (<["reviews_source" := PStr "shopify_app_store"]>
                (<["reviews_count" := reviews_count]>
                (<["rating" := rating]> row)))
            | Raise e =>
                <["reviews_scrape_error" := PStr (exn_repr e)]>
                (<["reviews_source" := PStr "shopify_app_store"]>
                (<["reviews_count" := PNone]>
                (<["rating" := PNone]> row)))
            end in
          (* Basic details *)
          match description pg with
          | Raise e => (row, Raise e)
          | Ok dv =>
              let row := <["Product_description" := PStr (_extract_description dv)]> row in
              match price pg with
              | Raise e => (row, Raise e)
              | Ok pv => (<["Price" := PStr (_extract_price pv)]> row, Ok ())
              end
          end
      end
  | Some _ => (row, Raise {| exn_repr := "TypeError('url must be a string')";
                             exn_str := "url must be a string" |})
  end.

(** The keys [enrich_product_row] may write. *)
Definition ENRICHED_KEYS : list string :=
  ["developer_name"; "developer_website"; "rating"; "reviews_count";
   "reviews_source"; "reviews_scraped_at"; "reviews_scrape_error";
   "Product_description"; "Price"].

End Detail.

(* ===================================================================== *)
(** * shopify/reviews_extractor.py *)
(* ===================================================================== *)

Module Reviews.
Import Py Regex.

Definition extract_shopify_price (pv : Detail.price_view) : string :=
  if negb (Detail.free_to_install pv =? 0)%nat then "Free to install"
  else if negb (Detail.free_plan pv =? 0)%nat then "Free plan"
  else
    match Detail.main_text pv with
    | None => ""
    | Some txt =>
        match search PRICE_PER_PERIOD txt with
        | Some m => strip m
        | None =>
            match search PRICE_BARE txt with
            | Some m2 => strip m2
            | None => ""
            end
        end
    end.

Definition _safe_text (inner : option string) (dflt : string) : string :=
  match inner with
  | Some t => strip t
  | None => dflt
  end.

(** An entry of [_extract_json_ld_reviews].  [ld_rating] holds the value
    whose [str()] the entry carries. *)
Record ld_review := {
  ld_title : pyval;
  ld_text : pyval;
  ld_date : pyval;
  ld_reviewer : pyval;
  ld_rating : pyval;
  ld_source : string }.

(** [d.get(k, "") or ""] *)
Definition get_text (d : list (string * pyval)) (k : string) : pyval :=
  py_or (default (PStr "") (assoc k d)) (PStr "").

(** Lines 68-85: the entry built from one review object. *)
Definition ld_review_of (r : list (string * pyval)) : ld_review :=
  let author :=
    match assoc "author" r with
    | Some (PDict a) => get_text a "name"
    | Some (PStr _) => get_text r "author"
    | _ => PStr ""
    end in
  let rating :=
    match assoc "reviewRating" r with
    | Some (PDict rr) => get_text rr "ratingValue"
    | _ => PStr ""
    end in
  {| ld_title := get_text r "name";
     ld_text := get_text r "reviewBody";
     ld_date := get_text r "datePublished";
     ld_reviewer := author;
     ld_rating := rating;
     ld_source := "jsonld" |}.

(** Lines 57-85: the entries of one item of a JSON-LD block. *)
Definition reviews_of_item (it : pyval) : list ld_review :=
  match it with
  | PDict d =>
      let rv := default PNone (assoc "review" d) in
      if negb (truthy rv) then []
      else
        let rv_list := match rv with PList l => l | _ => [rv] end in
        omap (λ r, match r with
                   | PDict rd => Some (ld_review_of rd)
                   | _ => None
                   end) rv_list
  | _ => []
  end.

(** [scripts] holds, for each JSON-LD script element of the page, the value
    [json.loads] gives for its text, [None] where the text is empty or does
    not parse. *)
Definition _extract_json_ld_reviews (scripts : list (option pyval))
    : list ld_review :=
  flat_map (λ s, match s with
                 | None => []
                 | Some data =>
                     let items := match data with PList l => l | _ => [data] end in
                     flat_map reviews_of_item items
                 end) (take 10 scripts).

(** An entry of the result.  [rating] holds the value whose [str()] the
    entry carries. *)
Record review := {
  platform : string;
  app_name : pyval;
  app_url : pyval;
  category_url : pyval;
  review_title : string;
  review_text : string;
  review_date : pyval;
  reviewer : pyval;
  rating : pyval;
  source : string }.

(** A candidate card of the DOM pass: the inner text of its first [p], of
    its first [h3, h4], of its first [time], of its first [strong, b, a]
    ([None] where reading raises), and the [aria-label] of its star element
    ([None] where there is none). *)
Record card := {
  card_p : option string;
  card_heading : option string;
  card_time : option string;
  card_strong : option string;
  card_aria : option string }.

Inductive control := Absent | Clickable | ClickRaises.

(** What the page shows at one iteration of the DOM pass. *)
Record dom_view := {
  cards : list card;
  reviews_keyword : nat;
  load_more : control;
  next_btn : control }.

(** One harvest: the outcome of the navigation, what the price and name
    steps read, the JSON-LD blocks, the view at each iteration of the DOM
    pass, and the successive readings of [time.time()] (in seconds). *)
Record harvest_page := {
  goto : outcome unit;
  price_view : Detail.price_view;
  h1 : option string;
  ld_scripts : list (option pyval);
  views : nat → dom_view;
  clock : nat → float }.

(** The loop state: how many clock readings were taken, the [seen] keys and
    the [reviews] so far. *)
Record hstate := {
  tick : nat;
  seen : gset string;
  reviews : list review }.

(** How a pass ends: its loop ran out, it executed [return reviews], or it
    raised. *)
Inductive pass_exit := Completed | Returned | Raised.

(** [time.time() - start > time_budget_sec] at reading [t]; [start] is
    reading 0.  The difference is the rounded one of binary64; the budget
    is a float, or an integer that a float holds exactly (Python compares
    the two by value). *)
Definition deadline_passed (pg : harvest_page) (time_budget_sec : float)
    (t : nat) : bool :=
  PrimFloat.ltb time_budget_sec (PrimFloat.sub (clock pg t) (clock pg 0)).

Definition add_review (st : hstate) (key : string) (r : review) : hstate :=
  {| tick := tick st; seen := {[key]} ∪ seen st; reviews := reviews st ++ [r] |}.

(** Lines 125-143: the JSON-LD pass. *)
Fixpoint jsonld_pass (app : gmap string pyval) (max_reviews : Z)
    (rs : list ld_review) (st : hstate) : hstate * pass_exit :=
  match rs with
  | [] => (st, Completed)
  | r :: rest =>
      match ld_title r, ld_text r with
      | PStr title, PStr text =>
          let key := strip (title +:+ "|" +:+ str_take 80 text) in
          if String.eqb key "" || bool_decide (key ∈ seen st)
          then jsonld_pass app max_reviews rest st
          else
            let st' := add_review st key
              {| platform := "shopify";
                 app_name := get_or app "app_name" (PStr "");
                 app_url := get_or app "app_url" (PStr "");
                 category_url := get_or app "category_url" (PStr "");
                 review_title := title;
                 review_text := text;
                 review_date := ld_date r;
                 reviewer := ld_reviewer r;
                 rating := ld_rating r;
                 source := ld_source r |} in
            if (Z.of_nat (length (reviews st')) >=? max_reviews)
            then (st', Returned)
            else jsonld_pass app max_reviews rest st'
      | _, _ => (st, Raised)
      end
  end.

(** Lines 180-222: the loop over the cards of one view; the flag tells
    whether it executed [return reviews]. *)
Fixpoint scan_cards (pg : harvest_page) (app : gmap string pyval)
    (max_reviews : Z) (time_budget_sec : float)
    (cs : list card) (st : hstate) : hstate * bool :=
  match cs with
  | [] => (st, false)
  | c :: rest =>
      let expired := deadline_passed pg time_budget_sec (tick st) in
      let st := {| tick := S (tick st); seen := seen st; reviews := reviews st |} in
      if expired then (st, false)
      else
        let body := _safe_text (card_p c) "" in
        if (String.length body <? 40)%nat
        then scan_cards pg app max_reviews time_budget_sec rest st
        else
          let title := _safe_text (card_heading c) "" in
          let date := _safe_text (card_time c) "" in
          let reviewer := _safe_text (card_strong c) "" in
          let aria := default "" (card_aria c) in
          let rating := default "" (search STARS aria) in
          let key := strip (title +:+ "|" +:+ str_take 90 body) in
          if String.eqb key "" || bool_decide (key ∈ seen st)
          then scan_cards pg app max_reviews time_budget_sec rest st
          else
            let st' := add_review st key
              {| platform := "shopify";
                 app_name := get_or app "app_name" (PStr "");
                 app_url := get_or app "app_url" (PStr "");
                 category_url := get_or app "category_url" (PStr "");
                 review_title := title;
                 review_text := body;
                 review_date := PStr date;
                 reviewer := PStr reviewer;
                 rating := PStr rating;
                 source := "dom" |} in
            if (Z.of_nat (length (reviews st')) >=? max_reviews)
            then (st', true)
            else scan_cards pg app max_reviews time_budget_sec rest st'
  end.

(** Lines 164-246: the DOM pass, [n] iterations of [range(max_pages)] left
    and [pidx] the current one. *)
Fixpoint dom_pass (pg : harvest_page) (app : gmap string pyval)
    (max_reviews : Z) (time_budget_sec : float)
    (n pidx : nat) (st : hstate) : hstate :=
  match n with
  | O => st
  | S n' =>
      let expired := deadline_passed pg time_budget_sec (tick st) in
      let st := {| tick := S (tick st); seen := seen st; reviews := reviews st |} in
      if expired then st
      else
        let v := views pg pidx in
        let scanned := take 120 (cards v) in
        if (length scanned =? 0)%nat && (pidx =? 0)%nat
           && (length (reviews st) =? 0)%nat
        then st
        else
          match scan_cards pg app max_reviews time_budget_sec scanned st with
          | (st, true) => st
          | (st, false) =>
              if (reviews_keyword v =? 0)%nat then st
              else
                match load_more v with
                | Clickable =>
                    dom_pass pg app max_reviews time_budget_sec n' (S pidx) st
                | _ =>
                    match next_btn v with
                    | Clickable =>
                        dom_pass pg app max_reviews time_budget_sec n' (S pidx) st
                    | _ => st
                    end
                end
          end
  end.

(** Lines 116-121: the price and name of the shared app record are filled
    where they are missing; [None] where the name check raises, with the
    record as it is by then. *)
Definition fill_price (pg : harvest_page) (app : gmap string pyval)
    : gmap string pyval :=
  if negb (truthy (get app "price"))
  then <["price" := PStr (extract_shopify_price (price_view pg))]> app
  else app.

Definition name_missing (app : gmap string pyval) : option bool :=
  let name := get app "app_name" in
  if negb (truthy name) then Some true
  else
    match name with
    | PStr s => Some (String.eqb (strip s) "")
    | _ => None
    end.

Definition fill_name (pg : harvest_page) (app : gmap string pyval)
    : gmap string pyval :=
  <["app_name" := PStr (_safe_text (h1 pg) "(unknown app)")]> app.

(** [extract_shopify_reviews]: the app record after the call (it is updated
    in place) and the reviews returned.  Every exception ends in the outer
    handler, which returns the reviews gathered so far. *)
Definition extract_shopify_reviews (pg : harvest_page)
    (app : gmap string pyval) (max_reviews max_pages : Z)
    (time_budget_sec : float) : gmap string pyval * list review :=
  let st0 := {| tick := 1; seen := ∅; reviews := [] |} in
  match app !! "app_url" with
  | Some (PStr _) =>
      match goto pg with
      | Raise _ => (app, [])
      | Ok _ =>
          let app := fill_price pg app in
          match name_missing app with
          | None => (app, [])
          | Some missing =>
              let app := if missing then fill_name pg app else app in
              let jsonld_reviews := _extract_json_ld_reviews (ld_scripts pg) in
              match jsonld_pass app max_reviews jsonld_reviews st0 with
              | (st, Completed) =>
                  (app, reviews (dom_pass pg app max_reviews time_budget_sec
                                   (Z.to_nat max_pages) 0 st))
              | (st, _) => (app, reviews st)
              end
          end
      end
  | _ => (app, [])
  end.

(** Between two appends the list is empty or still below the maximum. *)
Definition below_max (max_reviews : Z) (st : hstate) : Prop :=
  reviews st = [] ∨ Z.of_nat (length (reviews st)) < max_reviews.

(** From reading [t] on, every reading of the clock is past the budget. *)
Definition late (pg : harvest_page) (time_budget_sec : float) (t : nat) : Prop :=
  ∀ t', (t ≤ t')%nat → deadline_passed pg time_budget_sec t' = true.

End Reviews.

(* ===================================================================== *)
(** * src/main.py *)
(* ===================================================================== *)

Module Main.
Import Py.

Definition is_slug_char (c : ascii) : bool := is_lower c || is_digit c.

(** [re.sub(r"[^a-z0-9]+", "-", s)]: every maximal run of other characters
    becomes one dash; [in_run] tells whether the dash of the current run is
    already out. *)
Fixpoint dash_runs (in_run : bool) (s : string) : string :=
  match s with
  | "" => ""
  | String c s' =>
      if is_slug_char c then String c (dash_runs false s')
      else if in_run then dash_runs true s'
      else String "-" (dash_runs true s')
  end.

Definition _slug (s : string) : string :=
  let s := str_lower (strip s) in
  let s := dash_runs false s in
  let s := strip_chars (is_char "-") s in
  if String.eqb s "" then "category" else s.

(** The settings of a run that the loop reads, and the time stamp [ts] of
    its output keys. *)
Record settings := {
  export_csv : bool;
  export_xlsx : bool;
  ts : string;
  max_categories : Z;
  products_per_category : Z;
  headless_effective : bool }.

(** The pages a run visits: what opening a category gives, and the detail
    page behind each product URL. *)
Record world := {
  open_category : Listing.category → outcome Listing.category_page;
  visit : string → Detail.detail_page }.

(** [scrape_shopify_category]: the listing, then every row enriched; a row
    whose enrichment raises is copied with the error recorded. *)
Definition enrich_or_mark (w : world) (row : gmap string pyval)
    : gmap string pyval :=
  match Detail.enrich_product_row (visit w) row with
  | (enriched, Ok _) => enriched
  | (row, Raise e) => <["enrich_error" := PStr (exn_str e)]> row
  end.

Definition scrape_shopify_category (w : world) (cat : Listing.category)
    (products_per_category : Z) : outcome (list (gmap string pyval)) :=
  match open_category w cat with
  | Raise e => Raise e
  | Ok pg =>
      let rows := Listing.extract_products_from_category pg cat products_per_category in
      Ok (map (enrich_or_mark w) rows)
  end.

(** An entry of [category_stats]. *)
Record category_stat := {
  stat_category : string;
  items_exported : nat;
  stat_csv : option string;
  stat_xlsx : option string }.

(** The variables of the run loop; [dataset] holds what [Actor.push_data]
    received. *)
Record run_state := {
  pushed : nat;
  seen_urls : gset string;
  skipped_dupes : nat;
  dataset : list (gmap string pyval);
  all_results_for_files : list (gmap string pyval);
  category_stats : list category_stat;
  generated_files : list string }.

Definition initial_state : run_state :=
  {| pushed := 0; seen_urls := ∅; skipped_dupes := 0; dataset := [];
     all_results_for_files := []; category_stats := []; generated_files := [] |}.

(** Line 405: the URL of a record; [None] where [.strip()] is called on a
    value that is not a string. *)
Definition record_url (app_record : gmap string pyval) : option string :=
  match py_or (py_or (get app_record "products_url")
                     (get app_record "product_url")) (PStr "") with
  | PStr s => Some (strip s)
  | _ => None
  end.

Definition attribute_error : exn :=
  {| exn_repr := "AttributeError('object has no attribute strip')";
     exn_str := "object has no attribute strip" |}.

(** Lines 404-416: the loop over the records of one category. *)
Fixpoint dedupe_records (apps : list (gmap string pyval)) (st : run_state)
    (per_cat_results : list (gmap string pyval))
    : outcome (run_state * list (gmap string pyval)) :=
  match apps with
  | [] => Ok (st, per_cat_results)
  | app_record :: rest =>
      match record_url app_record with
      | None => Raise attribute_error
      | Some url =>
          if negb (String.eqb url "") && bool_decide (url ∈ seen_urls st)
          then
            dedupe_records rest
              {| pushed := pushed st;
                 seen_urls := seen_urls st;
                 skipped_dupes := S (skipped_dupes st);
                 dataset := dataset st;
                 all_results_for_files := all_results_for_files st;
                 category_stats := category_stats st;
                 generated_files := generated_files st |}
              per_cat_results
          else
            dedupe_records rest
              {| pushed := S (pushed st);
                 seen_urls := if String.eqb url "" then seen_urls st
                              else {[url]} ∪ seen_urls st;
                 skipped_dupes := skipped_dupes st;
                 dataset := dataset st ++ [app_record];
                 all_results_for_files := all_results_for_files st ++ [app_record];
                 category_stats := category_stats st;
                 generated_files := generated_files st |}
              (per_cat_results ++ [app_record])
      end
  end.

Definition file_if (b : bool) (key : string) : option string :=
  if b then Some key else None.

Definition files_of (cfg : settings) (csv xlsx : string) : list string :=
  (if export_csv cfg then [csv] else []) ++ (if export_xlsx cfg then [xlsx] else []).

(** Lines 418-443: the export of one category and its entry in the stats. *)
Definition export_category (cfg : settings) (cat : Listing.category)
    (per_cat_results : list (gmap string pyval)) (st : run_state) : run_state :=
  if (export_csv cfg || export_xlsx cfg)
     && negb (length per_cat_results =? 0)%nat
  then
    let cat_slug := _slug (if String.eqb (Listing.cat_name cat) ""
                           then "category" else Listing.cat_name cat) in
    let per_cat_csv := "OUTPUT_" +:+ cat_slug +:+ "_" +:+ ts cfg +:+ ".csv" in
    let per_cat_xlsx := "OUTPUT_" +:+ cat_slug +:+ "_" +:+ ts cfg +:+ ".xlsx" in
    {| pushed := pushed st;
       seen_urls := seen_urls st;
       skipped_dupes := skipped_dupes st;
       dataset := dataset st;
       all_results_for_files := all_results_for_files st;
       category_stats := category_stats st ++
         [{| stat_category := Listing.cat_name cat;
             items_exported := length per_cat_results;
             stat_csv := file_if (export_csv cfg) per_cat_csv;
             stat_xlsx := file_if (export_xlsx cfg) per_cat_xlsx |}];
       generated_files := generated_files st ++ files_of cfg per_cat_csv per_cat_xlsx |}
  else st.

(** Lines 398-443: the loop over the categories, each given with what
    scraping it gave.  An exception leaves the loop and the run. *)
Fixpoint run_categories (cfg : settings)
    (scraped : list (Listing.category * outcome (list (gmap string pyval))))
    (st : run_state) : outcome run_state :=
  match scraped with
  | [] => Ok st
  | (cat, Raise e) :: _ => Raise e
  | (cat, Ok apps) :: rest =>
      match dedupe_records apps st [] with
      | Raise e => Raise e
      | Ok (st, per_cat_results) =>
          run_categories cfg rest (export_category cfg cat per_cat_results st)
      end
  end.

(** Lines 445-457: the combined export. *)
Definition export_combined (cfg : settings) (st : run_state) : run_state :=
  if (export_csv cfg || export_xlsx cfg)
     && negb (length (all_results_for_files st) =? 0)%nat
  then
    {| pushed := pushed st;
       seen_urls := seen_urls st;
       skipped_dupes := skipped_dupes st;
       dataset := dataset st;
       all_results_for_files := all_results_for_files st;
       category_stats := category_stats st;
       generated_files := generated_files st ++
         files_of cfg ("OUTPUT_" +:+ ts cfg +:+ ".csv")
                      ("OUTPUT_" +:+ ts cfg +:+ ".xlsx") |}
  else st.

(** The run summary (lines 476-493). *)
Record summary := {
  timestamp : string;
  categories_selected : list string;
  limits : Z * Z;
  browser_headless_effective : bool;
  dedupe_skipped_duplicates : nat;
  pushed_to_dataset : nat;
  per_category : list category_stat;
  combined_items_exported : nat;
  combined_csv : option string;
  combined_xlsx : option string;
  files_generated : list string }.

Definition summary_of (cfg : settings) (categories : list Listing.category)
    (st : run_state) : summary :=
  {| timestamp := ts cfg;
     categories_selected := map Listing.cat_name categories;
     limits := (max_categories cfg, products_per_category cfg);
     browser_headless_effective := headless_effective cfg;
     dedupe_skipped_duplicates := skipped_dupes st;
     pushed_to_dataset := pushed st;
     per_category := category_stats st;
     combined_items_exported := length (all_results_for_files st);
     combined_csv := file_if (export_csv cfg) ("OUTPUT_" +:+ ts cfg +:+ ".csv");
     combined_xlsx := file_if (export_xlsx cfg) ("OUTPUT_" +:+ ts cfg +:+ ".xlsx");
     files_generated := generated_files st |}.

(** Lines 397-496 of [run_shopify_actor], from the loop to the summary:
    the final state and the summary, or the exception that ended the run. *)
Definition run_loop (cfg : settings)
    (scraped : list (Listing.category * outcome (list (gmap string pyval))))
    : outcome (run_state * summary) :=
  match run_categories cfg scraped initial_state with
  | Raise e => Raise e
  | Ok st =>
      let st := export_combined cfg st in
      Ok (st, summary_of cfg (map fst scraped) st)
  end.

(** The same, the categories scraped from the pages of [w]. *)
Definition run_shopify_actor (cfg : settings) (w : world)
    (categories : list Listing.category) : outcome (run_state * summary) :=
  run_loop cfg
    (map (λ cat, (cat, scrape_shopify_category w cat (products_per_category cfg)))
         categories).

(** ** What the claims about the loop speak of *)

(** The records a run was fed: those of its categories, in order. *)
Definition fed (scraped : list (Listing.category * outcome (list (gmap string pyval))))
    : list (gmap string pyval) :=
  flat_map (λ co, match co.2 with Ok apps => apps | Raise _ => [] end) scraped.

(** The URL of a record, empty where it has none. *)
Definition url_of (app_record : gmap string pyval) : string :=
  default "" (record_url app_record).

Definition has_url (app_record : gmap string pyval) : Prop :=
  url_of app_record ≠ "".

Definition well_typed (app_record : gmap string pyval) : Prop :=
  is_Some (record_url app_record).

(** A record is a duplicate when it has a URL and a record before it had
    the same; [before] holds the URLs of the records before. *)
Definition is_duplicate (before : list string) (app_record : gmap string pyval)
    : Prop :=
  has_url app_record ∧ url_of app_record ∈ before.

(** The records that are no duplicates, in order. *)
Fixpoint first_seen (before : list string) (l : list (gmap string pyval))
    : list (gmap string pyval) :=
  match l with
  | [] => []
  | r :: l' =>
      if decide (is_duplicate before r)
      then first_seen (before ++ [url_of r]) l'
      else r :: first_seen (before ++ [url_of r]) l'
  end.

(** The number of duplicates. *)
Fixpoint duplicates (before : list string) (l : list (gmap string pyval)) : nat :=
  match l with
  | [] => 0
  | r :: l' =>
      (if decide (is_duplicate before r) then 1 else 0)
      + duplicates (before ++ [url_of r]) l'
  end.

(** The distinct URLs among some records. *)
Definition distinct_urls (l : list (gmap string pyval)) : gset string :=
  list_to_set (filter (λ u, u ≠ "") (map url_of l)).

(** A row that carries a URL of the store. *)
Definition store_row (r : gmap string pyval) : Prop :=
  ∃ slug, r !! "products_url" = Some (PStr (Listing.APP_STORE +:+ slug)).

(** A URL field that is missing or empty. *)
Definition no_url_field (app_record : gmap string pyval) (k : string) : Prop :=
  app_record !! k = None ∨ app_record !! k = Some PNone ∨
  app_record !! k = Some (PStr "").

(** The claim of C1 read literally on the records fed and the final state:
    no URL, the empty one of a record without URL included, occurs twice
    among the results, and the skipped count is the number of records fed
    less the number of distinct URLs. *)
Definition dedup_as_stated (l : list (gmap string pyval)) (st : run_state) : Prop :=
  NoDup (map url_of (all_results_for_files st)) ∧
  skipped_dupes st =
    (length l - size (list_to_set (map url_of l) : gset string))%nat.

End Main.

(* ===================================================================== *)
(** * shopify/apps_extractor.py *)
(* ===================================================================== *)

Module Apps.
Import Py.

(** [s.split(sep)[-1]] for a separator that is not empty: the text behind
    the last occurrence, the occurrences being found left to right without
    overlap.  [piece] is the text behind the last occurrence found so far,
    [skip] counts the characters of that occurrence still to be passed. *)
Fixpoint split_last_go (sep : string) (skip : nat) (piece s : string) : string :=
  match s with
  | "" => piece
  | String c s' =>
      match skip with
      | S k => split_last_go sep k piece s'
      | O =>
          if startswith sep s
          then split_last_go sep (Nat.pred (String.length sep))
                 (str_drop (String.length sep) s) s'
          else split_last_go sep 0 piece s'
      end
  end.

Definition split_last (sep s : string) : string := split_last_go sep 0 s s.

(** Lines 50 and 55: the readable category of a category URL. *)
Definition category_of_url (category_url : string) : string :=
  title (replace "-" " "
    (strip_chars (is_char "/") (split_last "/categories/" category_url))).

(** Lines 57-64: the record appended for a link. *)
Definition new_app (category_url name app_url : string) : gmap string pyval :=
  <["price" := PStr ""]>
  (<["app_url" := PStr app_url]>
  (<["app_name" := PStr name]>
  (<["category" := PStr (category_of_url category_url)]>
  (<["category_url" := PStr category_url]>
  (<["platform" := PStr "shopify"]> ∅))))).

(** Lines 41-45: the display name; only an empty text falls back to the
    slug. *)
Definition display_name (a : Listing.anchor) (slug : string) : string :=
  let name := strip (Listing.inner_text a) in
  if String.eqb name "" then title (replace "-" " " slug) else name.

(** Lines 20-67: the loop over the links.  Lines 23-35 are those of the
    listing extractor (48-58 there), so the product URL of a link is
    [Listing.product_url_of]. *)
Fixpoint collect_apps (category_url : string) (limit : Z)
    (links : list Listing.anchor) (seen : gset string)
    (apps : list (gmap string pyval)) : list (gmap string pyval) :=
  match links with
  | [] => apps
  | a :: rest =>
      match Listing.product_url_of (Listing.href a) with
      | None => collect_apps category_url limit rest seen apps
      | Some app_url =>
          if bool_decide (app_url ∈ seen)
          then collect_apps category_url limit rest seen apps
          else
            let name := display_name a (Listing.slug_of (Listing.href a)) in
            let apps' := apps ++ [new_app category_url name app_url] in
            if (Z.of_nat (length apps') >=? limit)
            then apps'
            else collect_apps category_url limit rest
                   ({[app_url]} ∪ seen) apps'
      end
  end.

(** What the function returns once the category page has loaded;
    [anchors] are the anchors of the whole page. *)
Definition extract_shopify_apps_from_category (anchors : list Listing.anchor)
    (category_url : string) (limit : Z) : list (gmap string pyval) :=
  collect_apps category_url limit (Listing.app_links anchors) ∅ [].

(** The [app_url] an app record carries. *)
Definition app_url_of (r : gmap string pyval) : pyval := get r "app_url".

End Apps.

(* ===================================================================== *)
(** * core/utils.py *)
(* ===================================================================== *)

Module Utils.
Import Py.

(** [re.sub(r"\s+", "-", s)] *)
Fixpoint space_runs (in_run : bool) (s : string) : string :=
  match s with
  | "" => ""
  | String c s' =>
      if is_space c
      then if in_run then space_runs true s'
           else String "-" (space_runs true s')
      else String c (space_runs false s')
  end.

Definition is_slug_or_dash (c : ascii) : bool :=
  is_lower c || is_digit c || is_char "-" c.

(** [re.sub(r"[^...]+", "", s)] for the class [p]: the other characters are
    deleted. *)
Fixpoint keep_chars (p : ascii → bool) (s : string) : string :=
  match s with
  | "" => ""
  | String c s' => if p c then String c (keep_chars p s') else keep_chars p s'
  end.

Definition slugify (text : string) : string :=
  let text := space_runs false (str_lower (strip text)) in
  let text := keep_chars is_slug_or_dash text in
  if String.eqb text "" then "item" else str_take 90 text.

(** The two files [save_debug] writes for a name. *)
Definition debug_html_path (name : string) : string :=
  "debug/html/" +:+ slugify name +:+ ".html".

Definition debug_screenshot_path (name : string) : string :=
  "debug/screenshots/" +:+ slugify name +:+ ".png".

(** The number of characters of [s] equal to [x]. *)
Fixpoint count_char (x : ascii) (s : string) : nat :=
  match s with
  | "" => 0
  | String c s' => (if Ascii.eqb c x then 1 else 0) + count_char x s'
  end.

End Utils.

(* ===================================================================== *)
(** * src/main.py: the navigation file and the choice of categories *)
(* ===================================================================== *)

Module Nav.
Import Py.

Definition no_get : exn :=
  {| exn_repr := "AttributeError('object has no attribute get')";
     exn_str := "object has no attribute get" |}.

Definition no_strip : exn := Main.attribute_error.

Definition file_not_found : exn :=
  {| exn_repr := "FileNotFoundError('Nav config not found')";
     exn_str := "Nav config not found" |}.

Definition invalid_or_empty : exn :=
  {| exn_repr := "ValueError('Nav config is invalid/empty')";
     exn_str := "Nav config is invalid/empty" |}.

Definition no_valid_categories : exn :=
  {| exn_repr := "ValueError('No valid categories found')";
     exn_str := "No valid categories found" |}.

(** [(c.get(k) or "").strip()] on an entry given by its items. *)
Definition stripped_field (c : list (string * pyval)) (k : string)
    : outcome string :=
  match py_or (default PNone (assoc k c)) (PStr "") with
  | PStr s => Ok (strip s)
  | _ => Raise no_strip
  end.

(** Lines 154-159: the entries of the file, one after the other. *)
Fixpoint collect_categories (cats : list pyval) (out : list Listing.category)
    : outcome (list Listing.category) :=
  match cats with
  | [] => Ok out
  | PDict c :: rest =>
      match stripped_field c "name" with
      | Raise e => Raise e
      | Ok name =>
          match stripped_field c "url" with
          | Raise e => Raise e
          | Ok url =>
              match stripped_field c "description" with
              | Raise e => Raise e
              | Ok desc =>
                  if negb (String.eqb name "") && negb (String.eqb url "")
                  then collect_categories rest
                         (out ++ [{| Listing.cat_name := name;
                                     Listing.cat_url := url;
                                     Listing.cat_description := desc |}])
                  else collect_categories rest out
              end
          end
      end
  | _ :: _ => Raise no_get
  end.

(** [load_categories_from_nav]: [nav_file] is [None] where the file does
    not exist, else what [json.loads] gives for its text. *)
Definition load_categories_from_nav (nav_file : option (outcome pyval))
    : outcome (list Listing.category) :=
  match nav_file with
  | None => Raise file_not_found
  | Some (Raise e) => Raise e
  | Some (Ok (PDict data)) =>
      match py_or (default PNone (assoc "categories" data)) (PList []) with
      | PList [] => Raise invalid_or_empty
      | PList cats =>
          match collect_categories cats [] with
          | Raise e => Raise e
          | Ok [] => Raise no_valid_categories
          | Ok out => Ok out
          end
      | _ => Raise invalid_or_empty
      end
  | Some (Ok _) => Raise no_get
  end.

(** An item of [selected_categories]: a 1-based index or a name. *)
Inductive selector :=
| ByIndex (idx : Z)
| ByName (name : string).

Definition is_index (x : selector) : bool :=
  match x with ByIndex _ => true | ByName _ => false end.

(** [str(x)] *)
Definition selector_text (x : selector) : string :=
  match x with
  | ByIndex idx => pretty idx
  | ByName name => name
  end.

(** Lines 171-176: the categories picked by index; an index out of range
    picks nothing. *)
Definition pick_by_index (all_categories : list Listing.category)
    (selected : list selector) : list Listing.category :=
  flat_map (λ x,
    match x with
    | ByIndex idx =>
        let i0 := idx - 1 in
        if (0 <=? i0) && (i0 <? Z.of_nat (length all_categories))
        then match all_categories !! Z.to_nat i0 with
             | Some c => [c]
             | None => []
             end
        else []
    | ByName _ => []
    end) selected.

(** Lines 178-179: the categories picked by name. *)
Definition pick_by_name (all_categories : list Listing.category)
    (selected : list selector) : list Listing.category :=
  let wanted := map (λ x, str_lower (strip (selector_text x))) selected in
  filter (λ c, str_lower (strip (Listing.cat_name c)) ∈ wanted) all_categories.

Definition select_categories (all_categories : list Listing.category)
    (selected_categories : list selector) (max_categories : Z)
    : list Listing.category :=
  let cats :=
    match selected_categories with
    | [] => all_categories
    | _ =>
        if forallb is_index selected_categories
        then pick_by_index all_categories selected_categories
        else pick_by_name all_categories selected_categories
    end in
  if (max_categories >? 0) then take (Z.to_nat max_categories) cats else cats.

(** A category as the loader accepts it: name and URL trimmed and not
    empty, description trimmed. *)
Definition valid_category (c : Listing.category) : Prop :=
  Listing.cat_name c ≠ "" ∧ Listing.cat_url c ≠ "" ∧
  strip (Listing.cat_name c) = Listing.cat_name c ∧
  strip (Listing.cat_url c) = Listing.cat_url c ∧
  strip (Listing.cat_description c) = Listing.cat_description c.

End Nav.

(* ===================================================================== *)
(** * Predicates used in the statements about the code beyond the claims *)
(* ===================================================================== *)

Module Props.
Import Py.

(** A row as the listing builds it: a name that is not empty, a product
    URL of the store, and the fields the enrichment fills still empty. *)
Definition fresh_row (r : gmap string pyval) : Prop :=
  (∃ name, r !! "Recommended products" = Some (PStr name) ∧ name ≠ "") ∧
  (∃ slug, r !! "products_url" = Some (PStr (Listing.APP_STORE +:+ slug)) ∧
           slug ≠ "") ∧
  r !! "Product_description" = Some (PStr "") ∧
  r !! "Price" = Some (PStr "") ∧
  r !! "rating" = Some (PStr "") ∧
  r !! "reviews_count" = Some (PStr "").

(** The key under which the harvest records a review: title and the first
    80 characters of the text in the JSON-LD pass, the first 90 in the DOM
    pass. *)
Definition review_key (r : Reviews.review) : string :=
  if String.eqb (Reviews.source r) "dom"
  then strip (Reviews.review_title r +:+ "|" +:+ str_take 90 (Reviews.review_text r))
  else strip (Reviews.review_title r +:+ "|" +:+ str_take 80 (Reviews.review_text r)).

(** An entry of the DOM pass: a trimmed text of at least 40 characters and
    a trimmed title. *)
Definition dom_entry (r : Reviews.review) : Prop :=
  Reviews.source r = "dom" ∧
  (40 ≤ String.length (Reviews.review_text r))%nat ∧
  strip (Reviews.review_text r) = Reviews.review_text r ∧
  strip (Reviews.review_title r) = Reviews.review_title r.

(** An entry that carries name, URL and category URL of the app record. *)
Definition carries_app (app : gmap string pyval) (r : Reviews.review) : Prop :=
  Reviews.platform r = "shopify" ∧
  Reviews.app_name r = get_or app "app_name" (PStr "") ∧
  Reviews.app_url r = get_or app "app_url" (PStr "") ∧
  Reviews.category_url r = get_or app "category_url" (PStr "").



(** The harvest state keeps its books: the reviews have distinct keys, and
    each key is in [seen]. *)
Definition recorded (st : Reviews.hstate) : Prop :=
  NoDup (map review_key (Reviews.reviews st)) ∧
  ∀ r, r ∈ Reviews.reviews st → review_key r ∈ Reviews.seen st.

(** No two dashes in a row; [after_dash] tells that a dash came just
    before. *)
Fixpoint single_dashes (after_dash : bool) (s : string) : bool :=
  match s with
  | "" => true
  | String c s' =>
      if is_char "-" c then negb after_dash && single_dashes true s'
      else single_dashes false s'
  end.

(** A slug: lower-case letters and digits joined by single dashes, not
    empty and without a dash at either end. *)
Definition slug_form (s : string) : Prop :=
  s ≠ "" ∧ all_chars Utils.is_slug_or_dash s = true ∧
  single_dashes false s = true ∧ strip_chars (is_char "-") s = s.

(** The number of export formats a run has switched on. *)
Definition formats (cfg : Main.settings) : nat :=
  ((if Main.export_csv cfg then 1 else 0) +
   (if Main.export_xlsx cfg then 1 else 0))%nat.

(** A category that was scraped, with records whose URL fields hold
    strings or nothing. *)
Definition scraped_well
    (co : Listing.category * outcome (list (gmap string pyval))) : Prop :=
  ∃ apps, co.2 = Ok apps ∧ Forall Main.well_typed apps.

(** An index that picks no category of [all_categories]. *)
Definition out_of_range (all_categories : list Listing.category)
    (x : Nav.selector) : Prop :=
  ∃ idx, x = Nav.ByIndex idx ∧
         (idx < 1 ∨ Z.of_nat (length all_categories) < idx).

(** What the exports of a run have written so far agrees with its
    results. *)
Definition books_kept (cfg : Main.settings) (st : Main.run_state) : Prop :=
  (formats cfg ≠ 0%nat →
     sum_list_with Main.items_exported (Main.category_stats st) =
       length (Main.all_results_for_files st)) ∧
  (formats cfg = 0%nat → Main.category_stats st = [] ∧ Main.generated_files st = []) ∧
  length (Main.generated_files st) =
    (formats cfg * length (Main.category_stats st))%nat.



End Props.

(* ===================================================================== *)
(** * Sample pages and records *)
(* ===================================================================== *)

Module Samples.
Import Py.

Definition link_x : Listing.anchor :=
  {| Listing.href_attr := Some "https://apps.shopify.com/app-x?surface=cat";
     Listing.inner_text := "App X" |}.

Definition link_y : Listing.anchor :=
  {| Listing.href_attr := Some "https://apps.shopify.com/app-y/reviews";
     Listing.inner_text := "" |}.

Definition two_link_page : Listing.category_page :=
  {| Listing.recommended_h2 := true;
     Listing.enclosing_section := Some
       {| Listing.section_anchors := [link_x; link_y];
          Listing.sibling_anchors := [] |};
     Listing.parent_anchors := [] |}.

Definition marketing : Listing.category :=
  {| Listing.cat_name := "Marketing";
     Listing.cat_url := "https://apps.shopify.com/categories/marketing";
     Listing.cat_description := "" |}.

Definition priced_page : Detail.price_view :=
  {| Detail.free_to_install := 0; Detail.free_plan := 0;
     Detail.main_text := Some "Only $5 today. From $9.99/month, billed yearly" |}.


Definition listed_row : gmap string pyval :=
  Listing.new_row "Marketing" "https://apps.shopify.com/categories/marketing"
    "" "App X" "https://apps.shopify.com/app-x".

Definition locator_timeout : exn :=
  {| exn_repr := "TimeoutError('Timeout 1500ms exceeded.')";
     exn_str := "Timeout 1500ms exceeded." |}.

(** A detail page on which only the rating step raises. *)
Definition rating_fails_page : Detail.detail_page :=
  {| Detail.goto := Ok ();
     Detail.developer :=
       Ok (Detail.ValueLink (Some " Acme ") (Some "https://acme.example"));
     Detail.rating_and_reviews := Raise locator_timeout;
     Detail.utcnow_iso := "2024-05-01T10:00:00";
     Detail.description :=
       Ok {| Detail.meta_description := Some (Some " Grow your store. ");
             Detail.first_paragraph := None |};
     Detail.price := Ok priced_page |}.

(** The default time budget of the harvester, in seconds. *)
Definition budget_25 : float := 25%float.

(** A review of 101 characters, and one of 60. *)
Definition long_body : string :=
  "This app saved us hours every week. Setup took five minutes and support answered within a day. Superb".

Definition short_body : string :=
  "This app saved us hours every week. Setup took five minutes.".

Definition ld_block (body : string) : pyval :=
  PDict [("@type", PStr "SoftwareApplication");
         ("review", PList [PDict [("name", PStr "Great app");
                                  ("reviewBody", PStr body);
                                  ("author", PDict [("name", PStr "Ann")]);
                                  ("reviewRating", PDict [("ratingValue", PInt 5)])]])].

Definition dom_card (body : string) : Reviews.card :=
  {| Reviews.card_p := Some body;
     Reviews.card_heading := Some "Great app";
     Reviews.card_time := Some "May 1, 2024";
     Reviews.card_strong := Some "Ann";
     Reviews.card_aria := Some "5 out of 5 stars" |}.

(** A page that shows the same review in its JSON-LD block and in a card;
    the clock stands still. *)
Definition review_page (body : string) : Reviews.harvest_page :=
  {| Reviews.goto := Ok ();
     Reviews.price_view := priced_page;
     Reviews.h1 := Some "App X";
     Reviews.ld_scripts := [Some (ld_block body)];
     Reviews.views := λ _,
       {| Reviews.cards := [dom_card body];
          Reviews.reviews_keyword := 1;
          Reviews.load_more := Reviews.Absent;
          Reviews.next_btn := Reviews.Absent |};
     Reviews.clock := λ _, 0%float |}.

Definition app_x : gmap string pyval :=
  <["price" := PStr "$4/month"]>
  (<["app_name" := PStr "App X"]>
  (<["app_url" := PStr "https://apps.shopify.com/app-x"]>
  (<["category_url" := PStr "https://apps.shopify.com/categories/marketing"]> ∅))).

(** The same record with a name of one blank. *)
Definition app_blank_name : gmap string pyval :=
  <["app_name" := PStr " "]> app_x.

Definition default_settings : Main.settings :=
  {| Main.export_csv := true;
     Main.export_xlsx := true;
     Main.ts := "20240501_100000";
     Main.max_categories := 1;
     Main.products_per_category := 30;
     Main.headless_effective := true |}.

(** A record that carries no URL. *)
Definition url_less_record : gmap string pyval :=
  <["Recommended products" := PStr "Ghost"]> (<["products_url" := PStr ""]> ∅).

Definition sales : Listing.category :=
  {| Listing.cat_name := "Sales";
     Listing.cat_url := "https://apps.shopify.com/categories/sales";
     Listing.cat_description := "" |}.

Definition listed_row_y : gmap string pyval :=
  Listing.new_row "Sales" "https://apps.shopify.com/categories/sales"
    "" "App Y" "https://apps.shopify.com/app-y".

(** Two categories that share an app. *)
Definition shared_app_run
    : list (Listing.category * outcome (list (gmap string pyval))) :=
  [(marketing, Ok [listed_row; listed_row_y; listed_row]);
   (sales, Ok [listed_row_y; listed_row])].

(** An app, a record without URL, the app again, the record again. *)
Definition mixed_run
    : list (Listing.category * outcome (list (gmap string pyval))) :=
  [(marketing, Ok [listed_row; url_less_record]);
   (sales, Ok [listed_row; url_less_record])].

(** A category whose listing gave nothing, then one with an app. *)
Definition empty_then_sales
    : list (Listing.category * outcome (list (gmap string pyval))) :=
  [(marketing, Ok []); (sales, Ok [listed_row_y])].

Definition only_empty
    : list (Listing.category * outcome (list (gmap string pyval))) :=
  [(marketing, Ok [])].

(** The page of [review_page] on a clock that reads [start] first and
    [later] from then on. *)
Definition timed_page (body : string) (start later : float)
    : Reviews.harvest_page :=
  {| Reviews.goto := Ok ();
     Reviews.price_view := priced_page;
     Reviews.h1 := Some "App X";
     Reviews.ld_scripts := [Some (ld_block body)];
     Reviews.views := λ _,
       {| Reviews.cards := [dom_card body];
          Reviews.reviews_keyword := 1;
          Reviews.load_more := Reviews.Absent;
          Reviews.next_btn := Reviews.Absent |};
     Reviews.clock := λ t, match t with O => start | S _ => later end |}.

(** The floats next to 0.1 and to 25.1. *)
Definition tenth : float := 0x1.999999999999ap-4%float.
Definition twenty_five_and_tenth : float := 0x1.919999999999ap+4%float.

(** A store whose category pages all show the two links of
    [two_link_page] and whose detail pages are all [rating_fails_page]. *)
Definition two_link_store : Main.world :=
  {| Main.open_category := λ _, Ok two_link_page;
     Main.visit := λ _, rating_fails_page |}.

End Samples.

(* ===================================================================== *)
(** * Facts about the string primitives *)
(* ===================================================================== *)

Section StringFacts.
Import Py.

Lemma app_String c s t : String c s +:+ t = String c (s +:+ t).
Proof. reflexivity. Qed.

Lemma app_empty_l s : "" +:+ s = s.
Proof. reflexivity. Qed.

Lemma app_empty_r s : s +:+ "" = s.
Proof. induction s as [|c s IH]; [done|]. by rewrite app_String, IH. Qed.

Lemma app_assoc_str s t u : (s +:+ t) +:+ u = s +:+ t +:+ u.
Proof. induction s as [|c s IH]; [done|]. by rewrite !app_String, IH. Qed.

Lemma length_app_str s t :
  String.length (s +:+ t) = (String.length s + String.length t)%nat.
Proof. induction s as [|c s IH]; [done|]. rewrite app_String. simpl. by rewrite IH. Qed.

Lemma eqb_empty_false c s : String.eqb (String c s) "" = false.
Proof. reflexivity. Qed.

Lemma all_chars_app p s t :
  all_chars p (s +:+ t) = all_chars p s && all_chars p t.
Proof.
  induction s as [|c s IH]; [done|].
  rewrite app_String. simpl. by rewrite IH, andb_assoc.
Qed.


Lemma all_chars_lstrip p q s :
  all_chars p s = true → all_chars p (lstrip q s) = true.
Proof.
  induction s as [|c s IH]; [done|]. simpl.
  intros H. destruct (q c); [|done].
  apply andb_true_iff in H as [_ H]. auto.
Qed.

Lemma rstrip_cons p c s :
  rstrip p (String c s) = "" ∨ rstrip p (String c s) = String c (rstrip p s).
Proof.
  simpl. destruct (rstrip p s) eqn:E; [|by right].
  destruct (p c); [by left | by right].
Qed.

Lemma all_chars_rstrip p q s :
  all_chars p s = true → all_chars p (rstrip q s) = true.
Proof.
  induction s as [|c s IH]; [done|].
  intros H. destruct (rstrip_cons q c s) as [-> | ->]; [done|].
  simpl in *. apply andb_true_iff in H as [Hc H]. rewrite Hc. simpl. auto.
Qed.

Lemma all_chars_strip_chars p q s :
  all_chars p s = true → all_chars p (strip_chars q s) = true.
Proof. intros H. by apply all_chars_rstrip, all_chars_lstrip. Qed.

Lemma all_chars_split_head p sep s :
  all_chars p s = true → all_chars p (split_head sep s) = true.
Proof.
  induction s as [|c s IH]; [done|]. simpl.
  intros [Hc H]%andb_true_iff. destruct (Ascii.eqb c sep); [done|].
  simpl. rewrite Hc. simpl. auto.
Qed.

(** What is before the first separator holds no separator. *)
Lemma split_head_free sep s :
  all_chars (λ c, negb (is_char sep c)) (split_head sep s) = true.
Proof.
  induction s as [|c s IH]; [done|]. simpl.
  destruct (Ascii.eqb c sep) eqn:E; [done|]. simpl.
  unfold is_char at 1. by rewrite E.
Qed.

Lemma split_head_app sep a b :
  all_chars (λ c, negb (is_char sep c)) a = true →
  split_head sep (a +:+ b) = a +:+ split_head sep b.
Proof.
  induction a as [|c a IH]; [done|]. simpl. unfold is_char at 1.
  intros [Hc H]%andb_true_iff. rewrite app_String. simpl.
  apply negb_true_iff in Hc. rewrite Hc. by rewrite IH.
Qed.

Lemma lstrip_keep p c s : p c = false → lstrip p (String c s) = String c s.
Proof. intros H. simpl. by rewrite H. Qed.

Lemma rstrip_free p s :
  all_chars (λ c, negb (p c)) s = true → rstrip p s = s.
Proof.
  induction s as [|c s IH]; [done|]. simpl.
  intros [Hc H]%andb_true_iff. rewrite (IH H).
  apply negb_true_iff in Hc. rewrite Hc. by destruct s.
Qed.


Lemma startswith_app pre s : startswith pre (pre +:+ s) = true.
Proof.
  induction pre as [|c pre IH]; [done|].
  rewrite app_String. simpl. by rewrite Ascii.eqb_refl, IH.
Qed.

Lemma startswith_inv pre s :
  startswith pre s = true → ∃ rest, s = pre +:+ rest.
Proof.
  revert s. induction pre as [|c pre IH]; intros s H.
  - by exists s.
  - destruct s as [|d s]; [done|]. simpl in H.
    apply andb_true_iff in H as [Hc H]. apply Ascii.eqb_eq in Hc as ->.
    destruct (IH _ H) as [rest ->]. by exists rest.
Qed.

(** Right after an occurrence was found, the scan resumes behind it. *)
Lemma replace_go_skip old new a rest :
  replace_go old new (String.length a) (a +:+ rest) = replace_go old new 0 rest.
Proof.
  induction a as [|c a IH]; [by destruct rest|].
  rewrite app_String. simpl. apply IH.
Qed.

Lemma replace_go_at_occurrence old new rest :
  old ≠ "" →
  replace_go old new 0 (old +:+ rest) = new +:+ replace_go old new 0 rest.
Proof.
  destruct old as [|c old]; [done|]. intros _.
  rewrite app_String. simpl.
  rewrite Ascii.eqb_refl, startswith_app. simpl.
  by rewrite replace_go_skip.
Qed.

Lemma replace_go_no_occurrence old new c s :
  startswith old (String c s) = false →
  replace_go old new 0 (String c s) = String c (replace_go old new 0 s).
Proof. intros H. simpl replace_go. by rewrite H. Qed.

Lemma first_where_app p a b :
  all_chars (λ c, negb (p c)) a = true →
  first_where p (a +:+ b) = first_where p b.
Proof.
  induction a as [|c a IH]; [done|]. rewrite app_String. simpl.
  intros [Hc H]%andb_true_iff.
  apply negb_true_iff in Hc. rewrite Hc. auto.
Qed.

End StringFacts.

(* ===================================================================== *)
(** * The listing extractor *)
(* ===================================================================== *)

Section ListingFacts.
Import Py Listing.

Lemma is_char_eq x c : is_char x c = true → c = x.
Proof. unfold is_char. by intros ?%Ascii.eqb_eq. Qed.








Lemma all_chars_and p q s :
  all_chars p s = true → all_chars q s = true →
  all_chars (λ c, p c && q c) s = true.
Proof.
  induction s as [|c s IH]; [done|]. simpl.
  intros [-> ?]%andb_true_iff [-> ?]%andb_true_iff. simpl. auto.
Qed.

(** Whatever the link, its slug holds neither a slash nor a question
    mark. *)
Lemma slug_of_one_segment href :
  all_chars (λ c, negb (is_char "/" c) && negb (is_char "?" c)) (slug_of href) = true.
Proof.
  unfold slug_of, strip. apply all_chars_and.
  - apply all_chars_strip_chars, split_head_free.
  - apply all_chars_strip_chars, all_chars_split_head, all_chars_strip_chars,
      split_head_free.
Qed.

Lemma product_url_shape href u :
  product_url_of href = Some u →
  startswith APP_STORE href = true ∧
  u = APP_STORE +:+ slug_of href ∧
  slug_of href ≠ "" ∧
  slug_of href ∉ NON_APP_SLUGS.
Proof.
  unfold product_url_of.
  destruct (startswith APP_STORE href); [|done]. simpl.
  destruct (String.eqb_spec (slug_of href) ""); [done|]. simpl.
  case_bool_decide; [done|]. intros [= <-]. done.
Qed.









(** Links of another host get no product URL at all. *)
Example other_host_skipped :
  product_url_of "https://store.example/app-x/?ref=abc" = None ∧
  product_url_of "https://store.example/app-x" = None.
Proof. by vm_compute. Qed.

(** A segment is trimmed of the white space of Latin-1, the no-break space
    included, and slashes before the segment do not count. *)
Example no_break_space_trimmed :
  product_url_of ("https://apps.shopify.com/app-x" +:+ String "160" "") =
    Some "https://apps.shopify.com/app-x" ∧
  product_url_of "https://apps.shopify.com//app-x" =
    Some "https://apps.shopify.com/app-x".
Proof. by vm_compute. Qed.

(** Outside the theorem: the prefix is deleted wherever it occurs, so a
    segment that holds it again (which takes a colon) is glued to what
    follows the inner prefix. *)
Example nested_prefix_deleted :
  product_url_of "https://apps.shopify.com/ahttps://apps.shopify.com/b/c" =
    Some "https://apps.shopify.com/ab".
Proof. by vm_compute. Qed.

End ListingFacts.

Section ListingLoop.
Import Py Listing Samples.

Lemma keep_first_sublist l : sublist (keep_first l) l.
Proof.
  induction l as [|x l IH]; [done|]. simpl.
  apply sublist_skip. etrans; [apply sublist_filter|done].
Qed.

Lemma keep_first_NoDup l : NoDup (keep_first l).
Proof.
  induction l as [|x l IH]; [constructor|]. simpl. constructor.
  - by intros [? _]%list_elem_of_filter.
  - by apply NoDup_filter.
Qed.

Lemma filter_not_seen_cons (seen : gset string) u (l : list string) :
  u ∈ seen →
  filter (λ y, y ∉ seen) (filter (λ y, y ≠ u) l) = filter (λ y, y ∉ seen) l.
Proof.
  intros Hu. rewrite list_filter_filter. apply list_filter_iff.
  intros y. split; [by intros [? _]|]. intros Hy. split; [done|].
  by intros ->.
Qed.

Lemma filter_not_seen_insert (seen : gset string) u (l : list string) :
  filter (λ y, y ∉ {[u]} ∪ seen) l =
    filter (λ y, y ∉ seen) (filter (λ y, y ≠ u) l).
Proof.
  rewrite list_filter_filter. apply list_filter_iff.
  intros y. rewrite not_elem_of_union, not_elem_of_singleton. tauto.
Qed.

Lemma row_url_new_row cn cu cd name u :
  row_url (new_row cn cu cd name u) = PStr u.
Proof. unfold row_url, get, new_row. by simplify_map_eq. Qed.

Lemma category_new_row cn cu cd name u :
  get (new_row cn cu cd name u) "Apps category" = PStr cn.
Proof. unfold get, new_row. by simplify_map_eq. Qed.

(** The loop keeps, in page order, the product URLs not seen before, until
    the rows reach the limit; the test comes after the append, so one row
    is added even when the limit is already reached. *)
Lemma collect_rows_urls cn cu cd limit links (seen : gset string) rows :
  map row_url (collect_rows cn cu cd limit links seen rows) =
    map row_url rows ++
    (PStr <$> take (Z.to_nat (Z.max (limit - Z.of_nat (length rows)) 1))
                (filter (λ u, u ∉ seen) (keep_first (candidate_urls links)))).
Proof.
  revert seen rows. induction links as [|a rest IH]; intros seen rows.
  { simpl. by rewrite filter_nil, take_nil, app_nil_r. }
  unfold candidate_urls in *. simpl.
  destruct (product_url_of (href a)) as [u|] eqn:Hu; simpl; [|apply IH].
  case_bool_decide as Hseen.
  - rewrite IH. rewrite filter_cons_False by naive_solver.
    by rewrite filter_not_seen_cons.
  - rewrite filter_cons_True by done.
    rewrite length_app. simpl.
    destruct (Z.geb_spec (Z.of_nat (length rows + 1)) limit) as [Hge|Hlt].
    + rewrite map_app. simpl. rewrite row_url_new_row.
      replace (Z.to_nat _) with 1%nat by lia.
      done.
    + rewrite IH. rewrite map_app, length_app. simpl.
      rewrite row_url_new_row, <- app_assoc. simpl.
      replace (Z.to_nat (Z.max (limit - Z.of_nat (length rows)) 1))
        with (S (Z.to_nat (Z.max (limit - Z.of_nat (length rows + 1)) 1))) by lia.
      simpl. by rewrite filter_not_seen_insert.
Qed.

Lemma collect_rows_category cn cu cd limit links (seen : gset string) rows :
  Forall (λ r, get r "Apps category" = PStr cn) rows →
  Forall (λ r, get r "Apps category" = PStr cn)
    (collect_rows cn cu cd limit links seen rows).
Proof.
  revert seen rows. induction links as [|a rest IH]; intros seen rows Hrows;
    [done|]. simpl.
  destruct (product_url_of (href a)) as [u|]; [|by apply IH].
  case_bool_decide; [by apply IH|].
  assert (Forall (λ r, get r "Apps category" = PStr cn)
            (rows ++ [new_row cn cu cd (display_name a (slug_of (href a))) u])).
  { apply Forall_app. split; [done|].
    apply Forall_singleton, category_new_row. }
  destruct (_ >=? _); [done|]. by apply IH.
Qed.

Lemma filter_not_in_empty (seen : gset string) (l : list string) :
  seen = ∅ → filter (λ u, u ∉ seen) l = l.
Proof.
  intros ->. induction l as [|x l IH]; [done|].
  rewrite filter_cons_True by apply not_elem_of_empty. by rewrite IH.
Qed.

(** C8, as the code has it.  The rows of a category page carry, in page
    order, the first [max limit 1] distinct product URLs of its
    recommended links: at most [limit] rows for a positive limit, pairwise
    distinct URLs, a subsequence of the links; every row carries the
    trimmed name of the category; two links with distinct product URLs and
    limit 2 give exactly two rows, in the order of the links. *)
Theorem listing_page_order pg cat limit :
  let rows := extract_products_from_category pg cat limit in
  let links := default [] (recommended_links pg) in
  map row_url rows =
    PStr <$> take (Z.to_nat (Z.max limit 1)) (keep_first (candidate_urls links)) ∧
  Z.of_nat (length rows) ≤ Z.max limit 1 ∧
  (1 ≤ limit → Z.of_nat (length rows) ≤ limit) ∧
  NoDup (map row_url rows) ∧
  sublist (map row_url rows) (PStr <$> candidate_urls links) ∧
  Forall (λ r, get r "Apps category" = PStr (strip (cat_name cat))) rows ∧
  (∀ a1 a2 u1 u2,
     recommended_links pg = Some [a1; a2] →
     product_url_of (href a1) = Some u1 →
     product_url_of (href a2) = Some u2 →
     u1 ≠ u2 → limit = 2 →
     length rows = 2%nat ∧ map row_url rows = [PStr u1; PStr u2]).
Proof.
  intros rows links.
  assert (map row_url rows =
    PStr <$> take (Z.to_nat (Z.max limit 1)) (keep_first (candidate_urls links)))
    as Hurls.
  { subst rows links. unfold extract_products_from_category.
    destruct (recommended_links pg) as [links|]; simpl.
    - rewrite collect_rows_urls, (filter_not_in_empty ∅) by done. simpl.
      by rewrite Z.sub_0_r.
    - by rewrite take_nil. }
  assert (Z.of_nat (length rows) ≤ Z.max limit 1) as Hlen.
  { rewrite <- (length_map row_url), Hurls, length_fmap, length_take. lia. }
  split; [done|]. split; [done|]. split; [lia|]. split; [|split; [|split]].
  - rewrite Hurls. apply (NoDup_fmap_2 _).
    eapply sublist_NoDup; [apply keep_first_NoDup|apply sublist_take].
  - rewrite Hurls. apply fmap_sublist.
    etrans; [apply sublist_take|apply keep_first_sublist].
  - subst rows. unfold extract_products_from_category.
    destruct (recommended_links pg); [|done].
    by apply collect_rows_category.
  - intros a1 a2 u1 u2 Hl H1 H2 Hne ->.
    assert (map row_url rows = [PStr u1; PStr u2]) as Hr.
    { rewrite Hurls. subst links. rewrite Hl. unfold candidate_urls. simpl.
      rewrite H1, H2. simpl.
      rewrite filter_nil, filter_cons_True by done. by rewrite filter_nil. }
    split; [|done]. by rewrite <- (length_map row_url), Hr.
Qed.

Lemma listing_page_order_witness :
  length (extract_products_from_category two_link_page marketing 2) = 2%nat ∧
  map row_url (extract_products_from_category two_link_page marketing 2) =
    [PStr "https://apps.shopify.com/app-x";
     PStr "https://apps.shopify.com/app-y"].
Proof.
  destruct (listing_page_order two_link_page marketing 2)
    as (_ & _ & _ & _ & _ & _ & H).
  apply (H link_x link_y); reflexivity || discriminate.
Defined.

(** C8 as stated fails for a limit below one: the limit is tested after a
    row is appended, so the first link always gives a row. *)
Lemma limit_zero_gives_one_row :
  length (extract_products_from_category two_link_page marketing 0) = 1%nat ∧
  ¬ (Z.of_nat (length (extract_products_from_category two_link_page marketing 0))
     ≤ 0).
Proof. vm_compute. split; [done|]. intros H. by apply H. Qed.

End ListingLoop.

(* ===================================================================== *)
(** * The matcher against the languages of the patterns *)
(* ===================================================================== *)

Section RegexFacts.
Import Py Regex Props.

Lemma match_star_sound p k s x :
  match_star p k s = Some x →
  ∃ u v, s = u +:+ v ∧ lang (Star p) u ∧ k v = Some x.
Proof.
  revert x. induction s as [|c s IH]; intros x; simpl.
  { intros H. exists "", "". eauto using lang_star_nil. }
  destruct (p c) eqn:Hc.
  - destruct (match_star p k s) as [y|] eqn:E.
    + intros [= ->]. destruct (IH _ eq_refl) as (u & v & -> & Hu & Hk).
      exists (String c u), v. eauto using lang_star_cons.
    + intros H. exists "", (String c s). eauto using lang_star_nil.
  - intros H. exists "", (String c s). eauto using lang_star_nil.
Qed.

Lemma match_re_sound r s k x :
  match_re r s k = Some x →
  ∃ u v, s = u +:+ v ∧ lang r u ∧ k v = Some x.
Proof.
  revert s k x. induction r as [|p|a IHa b IHb|a IHa b IHb|a IHa|p];
    intros s k x; simpl.
  - intros H. exists "", s. eauto using lang_eps.
  - destruct s as [|c s]; [done|]. destruct (p c) eqn:Hc; [|done].
    intros H. exists (String c ""), s. eauto using lang_cls.
  - intros (u1 & v1 & -> & Hu1 & (u2 & v2 & -> & Hu2 & Hk)%IHb)%IHa.
    exists (u1 +:+ u2), v2. rewrite app_assoc_str. eauto using lang_seq.
  - destruct (match_re a s k) as [y|] eqn:E.
    + intros [= ->]. apply IHa in E as (u & v & -> & Hu & Hk).
      exists u, v. eauto using lang_alt_l.
    + intros (u & v & -> & Hu & Hk)%IHb. exists u, v. eauto using lang_alt_r.
  - destruct (match_re a s k) as [y|] eqn:E.
    + intros [= ->]. apply IHa in E as (u & v & -> & Hu & Hk).
      exists u, v. eauto using lang_opt_some.
    + intros H. exists "", s. eauto using lang_opt_none.
  - apply match_star_sound.
Qed.

Lemma match_star_continue p k s x :
  k s = Some x → is_Some (match_star p k s).
Proof.
  intros H. destruct s as [|c s]; simpl; [eauto|].
  destruct (p c); [|eauto]. destruct (match_star p k s); eauto.
Qed.

Lemma match_star_complete p k u v x :
  lang (Star p) u → k v = Some x → is_Some (match_star p k (u +:+ v)).
Proof.
  intros Hu Hk. remember (Star p) as r eqn:Hr.
  induction Hu as [| | | | | | |q|q c u Hc Hu IH]; try done.
  - by eapply match_star_continue.
  - injection Hr as ->. rewrite app_String. simpl. rewrite Hc.
    destruct (IH eq_refl) as [y ->]. eauto.
Qed.

Lemma match_re_complete r u v k x :
  lang r u → k v = Some x → is_Some (match_re r (u +:+ v) k).
Proof.
  intros Hu. revert v k x.
  induction Hu as [|p c Hc|a b u1 u2 _ IHa _ IHb|a b u _ IH|a b u _ IH
                  |a|a u _ IH|p|p c u Hc Hu _]; intros v k x Hk; simpl.
  - eauto.
  - rewrite Hc. eauto.
  - rewrite app_assoc_str.
    destruct (IHb v k x Hk) as [y Hy]. by eapply IHa.
  - destruct (IH v k x Hk) as [y ->]. eauto.
  - destruct (match_re a (u +:+ v) k); [eauto|]. by eapply IH.
  - rewrite app_empty_l. destruct (match_re a v k); [eauto|]. by rewrite Hk.
  - destruct (IH v k x Hk) as [y ->]. eauto.
  - by eapply match_star_continue.
  - eapply (match_star_complete p k (String c u)); [|done].
    by apply lang_star_cons.
Qed.

Lemma str_take_app u v :
  str_take (String.length (u +:+ v) - String.length v) (u +:+ v) = u.
Proof.
  rewrite length_app_str.
  replace (String.length u + String.length v - String.length v)%nat
    with (String.length u) by lia.
  induction u as [|c u IH]; [by destruct v|].
  rewrite app_String. simpl. by rewrite IH.
Qed.

(** A match at the start of [s] is a word of the pattern that [s] starts
    with; there is one whenever [s] starts with such a word. *)
Lemma match_at_sound r s m :
  match_at r s = Some m → ∃ post, s = m +:+ post ∧ lang r m.
Proof.
  unfold match_at. destruct (match_re r s Some) as [rest|] eqn:E; [|done].
  intros [= <-]. apply match_re_sound in E as (u & v & -> & Hu & [= ->]).
  rewrite str_take_app. eauto.
Qed.

Lemma match_at_complete r m post :
  lang r m → is_Some (match_at r (m +:+ post)).
Proof.
  intros Hm. unfold match_at.
  destruct (match_re_complete r m post Some post Hm eq_refl) as [y ->]. eauto.
Qed.

Lemma occurs_at_0 r s m :
  occurs_at r s 0 m ↔ ∃ post, s = m +:+ post ∧ lang r m.
Proof.
  unfold occurs_at. split.
  - intros (post & H & _ & Hm). destruct s; simpl in H; eauto.
  - intros (post & -> & Hm). exists post. split; [by destruct (m +:+ post)|].
    split; [lia|done].
Qed.

Lemma occurs_at_S r c s i m :
  occurs_at r (String c s) (S i) m ↔ occurs_at r s i m.
Proof.
  unfold occurs_at. simpl. split; intros (post & H & Hi & Hm);
    exists post; (split; [done|]); (split; [lia|done]).
Qed.

Lemma occurs_at_empty r i m : occurs_at r "" i m → i = 0%nat.
Proof. intros (_ & _ & Hi & _). simpl in Hi. lia. Qed.

(** [re.search]: the result is a match at the leftmost offset that has
    one. *)
Lemma search_leftmost r s m :
  search r s = Some m → leftmost_match r s m.
Proof.
  unfold leftmost_match. revert m. induction s as [|c s IH]; intros m; simpl.
  - destruct (match_at r "") as [m0|] eqn:E; [|done].
    intros [= ->]. exists 0%nat. split; [|lia].
    apply occurs_at_0. by apply match_at_sound.
  - destruct (match_at r (String c s)) as [m0|] eqn:E.
    + intros [= ->]. exists 0%nat. split; [|lia].
      apply occurs_at_0. by apply match_at_sound.
    + intros (i & Hi & Hleft)%IH. exists (S i). split.
      * by apply occurs_at_S.
      * intros [|j] m' Hj.
        -- intros (post & Hs & Hm)%occurs_at_0.
           destruct (match_at_complete r m' post Hm) as [y Hy].
           rewrite <- Hs in Hy. congruence.
        -- rewrite occurs_at_S. apply Hleft. lia.
Qed.

Lemma search_none r s :
  search r s = None → ¬ has_match r s.
Proof.
  intros Hs (i & m & Hi). revert Hs i m Hi.
  induction s as [|c s IH]; simpl.
  - destruct (match_at r "") as [m0|] eqn:E; [done|]. intros _ i m Hi.
    pose proof (occurs_at_empty _ _ _ Hi) as ->.
    apply occurs_at_0 in Hi as (post & Hs & Hm).
    destruct (match_at_complete r m post Hm) as [y Hy].
    rewrite <- Hs in Hy. congruence.
  - destruct (match_at r (String c s)) as [m0|] eqn:E; [done|].
    intros Hs [|i] m.
    + intros (post & Hp & Hm)%occurs_at_0.
      destruct (match_at_complete r m post Hm) as [y Hy].
      rewrite <- Hp in Hy. congruence.
    + rewrite occurs_at_S. by apply IH.
Qed.


(** ** The texts of the price patterns *)


Lemma lang_seq_inv a b m :
  lang (Seq a b) m → ∃ u v, m = u +:+ v ∧ lang a u ∧ lang b v.
Proof. inversion 1; subst; eauto. Qed.

Lemma lang_cls_inv p m :
  lang (Cls p) m → ∃ c, m = String c "" ∧ p c = true.
Proof. inversion 1; subst; eauto. Qed.








End RegexFacts.

(* ===================================================================== *)
(** * The price step of the detail page *)
(* ===================================================================== *)

Section PriceFacts.
Import Py Regex Detail Samples Props.



Example price_from_per_month :
  _extract_price {| free_to_install := 0; free_plan := 0;
                    main_text := Some "From $9.99/month" |} = "From $9.99/month".
Proof. reflexivity. Qed.

Example price_period_before_bare :
  _extract_price priced_page = "From $9.99/month".
Proof. reflexivity. Qed.

Example price_bare_only :
  _extract_price {| free_to_install := 0; free_plan := 0;
                    main_text := Some "Plans start at $ 12.50 and up" |} = "$ 12.50".
Proof. reflexivity. Qed.

(** The white space of the patterns is that of Latin-1: a no-break space
    between "From" and the amount, or between the dollar sign and the
    digits, is taken as a blank is. *)
Example price_with_no_break_space :
  _extract_price {| free_to_install := 0; free_plan := 0;
                    main_text := Some ("From" +:+ String "160" "$9/month") |}
    = "From" +:+ String "160" "$9/month" ∧
  _extract_price {| free_to_install := 0; free_plan := 0;
                    main_text := Some ("$" +:+ String "160" "9/month") |}
    = "$" +:+ String "160" "9/month".
Proof. by vm_compute. Qed.

End PriceFacts.

(* ===================================================================== *)
(** * Detail enrichment *)
(* ===================================================================== *)

Section EnrichFacts.
Import Py Detail Samples.

(** C5.  When the rating step raises while the other steps go through,
    [enrich_product_row] returns the row it was given, with developer,
    description and price filled by their steps, rating and count set to
    [None], and [reviews_scrape_error] holding the exception; every other
    key is as before.  When the rating step finds nothing instead, the
    marker is not written and the scrape time is.  The caller keeps the
    row in both cases. *)
Theorem partial_enrichment_kept visit row url e dview dv pv :
  row !! "products_url" = Some (PStr url) →
  goto (visit url) = Ok () →
  developer (visit url) = Ok dview →
  rating_and_reviews (visit url) = Raise e →
  description (visit url) = Ok dv →
  price (visit url) = Ok pv →
  ∃ row',
    enrich_product_row visit row = (row', Ok ()) ∧
    row' !! "developer_name" = Some (_extract_developer_info dview).1 ∧
    row' !! "developer_website" = Some (_extract_developer_info dview).2 ∧
    row' !! "Price" = Some (PStr (_extract_price pv)) ∧
    row' !! "Product_description" = Some (PStr (_extract_description dv)) ∧
    row' !! "reviews_scrape_error" = Some (PStr (exn_repr e)) ∧
    row' !! "rating" = Some PNone ∧
    row' !! "reviews_count" = Some PNone ∧
    row' !! "reviews_scraped_at" = row !! "reviews_scraped_at" ∧
    (∀ k, k ∉ ENRICHED_KEYS → row' !! k = row !! k) ∧
    (∀ w, Main.visit w = visit → Main.enrich_or_mark w row = row') ∧
    (∀ visit2,
       goto (visit2 url) = Ok () →
       rating_and_reviews (visit2 url) = Ok (PNone, PNone) →
       description (visit2 url) = Ok dv →
       price (visit2 url) = Ok pv →
       ∃ row2,
         enrich_product_row visit2 row = (row2, Ok ()) ∧
         row2 !! "reviews_scrape_error" = row !! "reviews_scrape_error" ∧
         row2 !! "reviews_scraped_at" =
           Some (PStr (utcnow_iso (visit2 url) +:+ "Z"))).
Proof.
  intros Hurl Hgoto Hdev Hrat Hdesc Hprice.
  unfold enrich_product_row. rewrite Hurl, Hgoto, Hdev, Hrat, Hdesc, Hprice.
  destruct (_extract_developer_info dview) as [name site] eqn:Hinfo.
  eexists. split; [reflexivity|].
  repeat split; try by simplify_map_eq.
  - intros k Hk. unfold ENRICHED_KEYS in Hk.
    rewrite !not_elem_of_cons in Hk. destruct_and!.
    by rewrite !lookup_insert_ne by done.
  - intros w <-. unfold Main.enrich_or_mark, enrich_product_row.
    by rewrite Hurl, Hgoto, Hdev, Hrat, Hdesc, Hprice, Hinfo.
  - intros visit2 Hgoto2 Hrat2 Hdesc2 Hprice2.
    rewrite Hgoto2, Hrat2, Hdesc2, Hprice2.
    eexists. split; [reflexivity|].
    destruct (developer (visit2 url)) as [d2|];
      [destruct (_extract_developer_info d2)|]; by simplify_map_eq.
Qed.

Lemma partial_enrichment_kept_witness :
  ∃ row',
    enrich_product_row (λ _, rating_fails_page) listed_row = (row', Ok ()) ∧
    row' !! "developer_name" = Some (PStr "Acme") ∧
    row' !! "Price" = Some (PStr "From $9.99/month") ∧
    row' !! "Product_description" = Some (PStr "Grow your store.") ∧
    row' !! "reviews_scrape_error" =
      Some (PStr "TimeoutError('Timeout 1500ms exceeded.')") ∧
    row' !! "products_url" = Some (PStr "https://apps.shopify.com/app-x").
Proof.
  destruct (partial_enrichment_kept (λ _, rating_fails_page) listed_row
              "https://apps.shopify.com/app-x" locator_timeout
              (ValueLink (Some " Acme ") (Some "https://acme.example"))
              {| meta_description := Some (Some " Grow your store. ");
                 first_paragraph := None |}
              priced_page
              eq_refl eq_refl eq_refl eq_refl eq_refl eq_refl)
    as (row' & Hrow & Hname & _ & Hprice & Hdesc & Herr & _ & _ & _ & Hother & _).
  exists row'. repeat split; try assumption.
  rewrite Hother; [reflexivity|]. unfold ENRICHED_KEYS.
  rewrite !not_elem_of_cons. repeat split; try discriminate.
  apply not_elem_of_nil.
Defined.

End EnrichFacts.

(* ===================================================================== *)
(** * The review harvester *)
(* ===================================================================== *)

Section HarvestFacts.
Import Py Reviews Samples.

(** ** The shared app record *)

Lemma fill_price_other pg (app : gmap string pyval) k :
  k ≠ "price" → fill_price pg app !! k = app !! k.
Proof.
  intros Hk. unfold fill_price. destruct (negb _); [|done].
  by rewrite lookup_insert_ne.
Qed.

Lemma fill_price_kept pg (app : gmap string pyval) :
  truthy (get app "price") = true → fill_price pg app = app.
Proof. intros H. unfold fill_price. by rewrite H. Qed.

Lemma name_missing_fill_price pg (app : gmap string pyval) :
  name_missing (fill_price pg app) = name_missing app.
Proof.
  unfold name_missing, get. by rewrite fill_price_other.
Qed.

Lemma fill_name_other pg (app : gmap string pyval) k :
  k ≠ "app_name" → fill_name pg app !! k = app !! k.
Proof. intros Hk. unfold fill_name. by rewrite lookup_insert_ne. Qed.

(** The record after the harvest: untouched, or with the price step done,
    or with the price step done and the missing name filled. *)
Lemma harvest_app_cases pg app max_reviews max_pages budget :
  let app' := (extract_shopify_reviews pg app max_reviews max_pages budget).1 in
  app' = app ∨
  (app' = fill_price pg app ∧ name_missing app ≠ Some true) ∨
  (app' = fill_name pg (fill_price pg app) ∧ name_missing app = Some true).
Proof.
  unfold extract_shopify_reviews.
  destruct (app !! "app_url") as [[]|]; try by left.
  destruct (goto pg); [|by left].
  pose proof (name_missing_fill_price pg app) as Hname.
  destruct (name_missing (fill_price pg app)) as [[]|]; simpl.
  - right. right. split; [|done].
    by destruct (jsonld_pass _ _ _ _) as [st []].
  - right. left. rewrite <- Hname. split; [|done].
    by destruct (jsonld_pass _ _ _ _) as [st []].
  - right. left. rewrite <- Hname. done.
Qed.

Lemma name_missing_string (app : gmap string pyval) s :
  app !! "app_name" = Some (PStr s) → strip s ≠ "" →
  name_missing app ≠ Some true.
Proof.
  intros Hs Hne. unfold name_missing, get. rewrite Hs. simpl.
  destruct (String.eqb_spec s ""); simpl.
  - subst. by destruct Hne.
  - intros [= H]. by apply String.eqb_eq in H.
Qed.

(** C9, as the code has it.  The harvest writes no key of the app record
    but [price] and [app_name]; a price that is truthy is left as it is,
    and so is a name unless it is falsy or a string of blanks only. *)
Theorem harvest_frame pg app max_reviews max_pages budget :
  let app' := (extract_shopify_reviews pg app max_reviews max_pages budget).1 in
  (∀ k, k ≠ "price" → k ≠ "app_name" → app' !! k = app !! k) ∧
  (truthy (get app "price") = true → app' !! "price" = app !! "price") ∧
  (name_missing app ≠ Some true → app' !! "app_name" = app !! "app_name") ∧
  (∀ s, app !! "price" = Some (PStr s) → s ≠ "" →
        app' !! "price" = app !! "price") ∧
  (∀ s, app !! "app_name" = Some (PStr s) → strip s ≠ "" →
        app' !! "app_name" = app !! "app_name").
Proof.
  intros app'.
  pose proof (harvest_app_cases pg app max_reviews max_pages budget) as Hc.
  fold app' in Hc.
  assert (truthy (get app "price") = true → app' !! "price" = app !! "price")
    as Hprice.
  { intros Ht. destruct Hc as [-> | [[-> _] | [-> _]]]; [done|..].
    - by rewrite fill_price_kept.
    - by rewrite fill_name_other, fill_price_kept. }
  assert (name_missing app ≠ Some true → app' !! "app_name" = app !! "app_name")
    as Hname.
  { intros Hn. destruct Hc as [-> | [[-> _] | [_ ?]]]; [done| |done].
    by rewrite fill_price_other. }
  split; [|split; [done|split; [done|split]]].
  - intros k Hp Hn. destruct Hc as [-> | [[-> _] | [-> _]]]; [done|..].
    + by rewrite fill_price_other.
    + by rewrite fill_name_other, fill_price_other.
  - intros s Hs Hne. apply Hprice. unfold get. rewrite Hs. simpl.
    by destruct (String.eqb_spec s "").
  - intros s Hs Hne. eauto using name_missing_string.
Qed.

Lemma harvest_frame_witness :
  (extract_shopify_reviews (review_page short_body) app_x 20 3 budget_25).1
    !! "price" = Some (PStr "$4/month") ∧
  (extract_shopify_reviews (review_page short_body) app_x 20 3 budget_25).1
    !! "app_name" = Some (PStr "App X").
Proof.
  destruct (harvest_frame (review_page short_body) app_x 20 3 budget_25)
    as (_ & _ & _ & Hprice & Hname).
  split.
  - apply (Hprice "$4/month"); [reflexivity|discriminate].
  - apply (Hname "App X"); [reflexivity|discriminate].
Defined.

(** C9 as stated fails for a name that is not empty but blank: it is
    replaced by the heading of the page. *)
Lemma blank_name_overwritten :
  app_blank_name !! "app_name" = Some (PStr " ") ∧
  (extract_shopify_reviews (review_page short_body) app_blank_name 20 3 budget_25).1
    !! "app_name" = Some (PStr "App X").
Proof. by vm_compute. Qed.

(** A name of a no-break space is blank as well. *)
Example no_break_space_name_overwritten :
  (extract_shopify_reviews (review_page short_body)
     (<["app_name" := PStr (String "160" "")]> app_x) 20 3 budget_25).1
    !! "app_name" = Some (PStr "App X").
Proof. by vm_compute. Qed.

(** ** The bound on the number of reviews *)

Lemma below_max_bound max_reviews st :
  below_max max_reviews st →
  Z.of_nat (length (reviews st)) ≤ Z.max max_reviews 1.
Proof. intros [-> | H]; simpl; lia. Qed.

Lemma add_review_bound max_reviews st key r :
  below_max max_reviews st →
  Z.of_nat (length (reviews (add_review st key r))) ≤ Z.max max_reviews 1 ∧
  ((Z.of_nat (length (reviews (add_review st key r))) >=? max_reviews) = false →
   below_max max_reviews (add_review st key r)).
Proof.
  intros H. split.
  - simpl. rewrite length_app. destruct H as [-> | H]; simpl; lia.
  - rewrite Z.geb_leb, Z.leb_gt. intros Hlt. by right.
Qed.

Lemma jsonld_pass_bound app max_reviews rs st :
  below_max max_reviews st →
  let (st', exit) := jsonld_pass app max_reviews rs st in
  Z.of_nat (length (reviews st')) ≤ Z.max max_reviews 1 ∧
  (exit = Completed → below_max max_reviews st').
Proof.
  revert st. induction rs as [|r rs IH]; intros st Hst; simpl.
  { eauto using below_max_bound. }
  destruct (ld_title r) as [| | | |title| |];
    try by eauto using below_max_bound.
  destruct (ld_text r) as [| | | |text| |];
    try by eauto using below_max_bound.
  destruct (_ || _); [by apply IH|].
  match goal with |- context [add_review st ?k ?r] =>
    destruct (add_review_bound max_reviews st k r Hst) as [Hle Hbelow];
    set (st1 := add_review st k r) in *
  end.
  destruct (_ >=? _) eqn:E; [done|]. by apply IH, Hbelow.
Qed.

Lemma scan_cards_bound pg app max_reviews budget cs st :
  below_max max_reviews st →
  let (st', returned) := scan_cards pg app max_reviews budget cs st in
  Z.of_nat (length (reviews st')) ≤ Z.max max_reviews 1 ∧
  (returned = false → below_max max_reviews st').
Proof.
  revert st. induction cs as [|c cs IH]; intros st Hst; simpl.
  { eauto using below_max_bound. }
  set (st0 := {| tick := S (tick st); seen := seen st; reviews := reviews st |}).
  assert (below_max max_reviews st0) as Hst0 by done.
  destruct (deadline_passed _ _ _); [by eauto using below_max_bound|].
  destruct (_ <? _)%nat; [by apply IH|].
  destruct (_ || _); [by apply IH|].
  match goal with |- context [add_review st0 ?k ?r] =>
    destruct (add_review_bound max_reviews st0 k r Hst0) as [Hle Hbelow];
    set (st1 := add_review st0 k r) in *
  end.
  destruct (_ >=? _) eqn:E; [done|]. by apply IH, Hbelow.
Qed.

Lemma dom_pass_bound pg app max_reviews budget n pidx st :
  below_max max_reviews st →
  Z.of_nat (length (reviews (dom_pass pg app max_reviews budget n pidx st)))
    ≤ Z.max max_reviews 1.
Proof.
  revert pidx st. induction n as [|n IH]; intros pidx st Hst; simpl.
  { by apply below_max_bound. }
  set (st0 := {| tick := S (tick st); seen := seen st; reviews := reviews st |}).
  assert (below_max max_reviews st0) as Hst0 by done.
  destruct (deadline_passed _ _ _); [by apply below_max_bound|].
  destruct (_ && _); [by apply below_max_bound|].
  pose proof (scan_cards_bound pg app max_reviews budget
                (take 120 (cards (views pg pidx))) st0 Hst0) as Hscan.
  destruct (scan_cards _ _ _ _ _ _) as [st1 []]; [by apply Hscan|].
  destruct Hscan as [Hle Hbelow]. specialize (Hbelow eq_refl).
  destruct (_ =? _)%nat; [done|].
  destruct (load_more _); [|by apply IH|];
    (destruct (next_btn _); [done|by apply IH|done]).
Qed.

(** ** The deadline *)

Lemma scan_cards_late pg app max_reviews budget cs st :
  late pg budget (tick st) →
  reviews (scan_cards pg app max_reviews budget cs st).1 = reviews st.
Proof.
  intros Hlate. destruct cs as [|c cs]; [done|]. simpl.
  by rewrite (Hlate (tick st)) by lia.
Qed.

Lemma dom_pass_late pg app max_reviews budget n pidx st :
  late pg budget (tick st) →
  reviews (dom_pass pg app max_reviews budget n pidx st) = reviews st.
Proof.
  intros Hlate. destruct n as [|n]; [done|]. simpl.
  by rewrite (Hlate (tick st)) by lia.
Qed.

Lemma jsonld_pass_tick app max_reviews rs st :
  tick (jsonld_pass app max_reviews rs st).1 = tick st.
Proof.
  revert st. induction rs as [|r rs IH]; intros st; simpl; [done|].
  destruct (ld_title r); try done. destruct (ld_text r); try done.
  destruct (_ || _); [apply IH|].
  destruct (_ >=? _); [done|]. by rewrite IH.
Qed.

Lemma extracted_source scripts :
  Forall (λ r, ld_source r = "jsonld") (_extract_json_ld_reviews scripts).
Proof.
  apply Forall_forall. intros r. unfold _extract_json_ld_reviews.
  rewrite list_elem_of_In, in_flat_map. intros ([data|] & _ & Hin); [|done].
  apply in_flat_map in Hin as (it & _ & Hit).
  unfold reviews_of_item in Hit. destruct it; try done.
  destruct (negb _); [done|].
  apply list_elem_of_In, list_elem_of_omap in Hit as (x & _ & Hx).
  destruct x; try done. by injection Hx as <-.
Qed.

Lemma jsonld_pass_source app max_reviews rs st :
  Forall (λ r, ld_source r = "jsonld") rs →
  Forall (λ r, source r = "jsonld") (reviews st) →
  Forall (λ r, source r = "jsonld") (reviews (jsonld_pass app max_reviews rs st).1).
Proof.
  revert st. induction rs as [|r rs IH]; intros st Hrs Hst; simpl; [done|].
  apply Forall_cons in Hrs as [Hr Hrs].
  destruct (ld_title r); try done. destruct (ld_text r); try done.
  destruct (_ || _); [by apply IH|].
  match goal with |- context [add_review st ?k ?x] =>
    assert (Forall (λ r, source r = "jsonld") (reviews (add_review st k x)))
      as Hadd by (simpl; apply Forall_app; split; [done|by apply Forall_singleton]);
    set (st1 := add_review st k x) in *
  end.
  destruct (_ >=? _); [done|]. by apply IH.
Qed.

(** ** Where the loops stop *)

Lemma late_mono pg budget t t' :
  late pg budget t → (t ≤ t')%nat → late pg budget t'.
Proof. intros H Hle t'' Ht. apply H. lia. Qed.

Lemma not_late_yet pg budget t i :
  late pg budget t → deadline_passed pg budget i = false → (i < t)%nat.
Proof.
  intros Hlate Hi. destruct (Nat.lt_ge_cases i t) as [|Hge]; [done|].
  by rewrite (Hlate i Hge) in Hi.
Qed.

(** The card loop reads the clock once per card and ends at the first
    reading past the budget. *)
Lemma scan_cards_stops pg app max_reviews budget cs st t :
  late pg budget t →
  (tick (scan_cards pg app max_reviews budget cs st).1
   ≤ Nat.max (tick st) t + 1)%nat.
Proof.
  intros Hlate. revert st. induction cs as [|c cs IH]; intros st;
    cbn [scan_cards]; [simpl; lia|].
  destruct (deadline_passed pg budget (tick st)) eqn:Hd; [simpl; lia|].
  apply (not_late_yet _ _ t) in Hd; [|done].
  assert (∀ st', tick st' = S (tick st) →
    (tick (scan_cards pg app max_reviews budget cs st').1
     ≤ Nat.max (tick st) t + 1)%nat) as Hstep.
  { intros st' Ht. specialize (IH st'). lia. }
  destruct (_ <? _)%nat; [by apply Hstep|].
  destruct (_ || _); [by apply Hstep|].
  destruct (_ >=? _); [simpl; lia|]. by apply Hstep.
Qed.

(** The page loop ends at its first reading past the budget: where the
    budget runs out during the card loop, that loop ends at its next
    reading and the page loop at the one after. *)
Lemma dom_pass_stops pg app max_reviews budget n pidx st t :
  late pg budget t →
  (tick (dom_pass pg app max_reviews budget n pidx st)
   ≤ Nat.max (tick st + 1) (t + 2))%nat.
Proof.
  intros Hlate. revert pidx st. induction n as [|n IH]; intros pidx st;
    cbn [dom_pass]; [lia|].
  destruct (deadline_passed pg budget (tick st)) eqn:Hd; [simpl; lia|].
  apply (not_late_yet _ _ t) in Hd; [|done].
  set (st0 := {| tick := S (tick st); seen := seen st; reviews := reviews st |}).
  destruct (_ && _); [simpl; lia|].
  pose proof (scan_cards_stops pg app max_reviews budget
                (take 120 (cards (views pg pidx))) st0 t Hlate) as Hscan.
  destruct (scan_cards _ _ _ _ _ _) as [st1 returned].
  assert (tick st1 ≤ t + 1)%nat as Hst1.
  { change (tick st1 ≤ Nat.max (S (tick st)) t + 1)%nat in Hscan. lia. }
  assert (∀ p, tick (dom_pass pg app max_reviews budget n p st1)
               ≤ Nat.max (tick st + 1) (t + 2))%nat as Hnext.
  { intros p. specialize (IH p st1). lia. }
  destruct returned; [lia|].
  destruct (_ =? _)%nat; [lia|].
  destruct (load_more _); [|apply Hnext|];
    (destruct (next_btn _); [lia|apply Hnext|lia]).
Qed.

Lemma scan_cards_stops_now pg app max_reviews budget cs st :
  late pg budget (tick st) →
  (tick (scan_cards pg app max_reviews budget cs st).1 ≤ S (tick st))%nat.
Proof.
  intros Hlate.
  pose proof (scan_cards_stops pg app max_reviews budget cs st _ Hlate). lia.
Qed.

Lemma dom_pass_stops_now pg app max_reviews budget n pidx st :
  late pg budget (tick st) →
  (tick (dom_pass pg app max_reviews budget n pidx st) ≤ S (tick st))%nat.
Proof.
  intros Hlate. destruct n as [|n]; cbn [dom_pass]; [lia|].
  by rewrite (Hlate (tick st)) by lia.
Qed.

(** C4, as the code has it.  The harvest returns at most [max_reviews]
    reviews when [max_reviews] is at least one, and at most one otherwise,
    the maximum being tested after each append.  The deadline is tested
    before every page and before every card of the DOM pass, on successive
    readings of the clock: from a state in which the clock is past the
    budget for good, neither loop adds a review, each ends at its next
    reading, and a harvest whose clock is past the budget when the DOM
    pass starts returns reviews of the JSON-LD pass only.  Where the clock
    is past the budget from its reading [t] on, the DOM pass ends with at
    most two readings from [t] on: the one that ends the loop it is in
    and, where that is the card loop, the one of the page loop after it. *)
Theorem harvest_bounded pg app max_reviews max_pages budget :
  let result := (extract_shopify_reviews pg app max_reviews max_pages budget).2 in
  Z.of_nat (length result) ≤ Z.max max_reviews 1 ∧
  (1 ≤ max_reviews → Z.of_nat (length result) ≤ max_reviews) ∧
  (∀ app n pidx st,
     late pg budget (tick st) →
     reviews (dom_pass pg app max_reviews budget n pidx st) = reviews st) ∧
  (∀ app cs st,
     late pg budget (tick st) →
     reviews (scan_cards pg app max_reviews budget cs st).1 = reviews st) ∧
  (late pg budget 1 → Forall (λ r, source r = "jsonld") result) ∧
  (∀ app n pidx st,
     late pg budget (tick st) →
     (tick (dom_pass pg app max_reviews budget n pidx st) ≤ S (tick st))%nat) ∧
  (∀ app cs st,
     late pg budget (tick st) →
     (tick (scan_cards pg app max_reviews budget cs st).1 ≤ S (tick st))%nat) ∧
  (∀ app n pidx st t,
     late pg budget t →
     (tick (dom_pass pg app max_reviews budget n pidx st)
      ≤ Nat.max (tick st + 1) (t + 2))%nat).
Proof.
  intros result.
  assert (below_max max_reviews {| tick := 1; seen := ∅; reviews := [] |})
    as Hst0 by by left.
  assert (Z.of_nat (length result) ≤ Z.max max_reviews 1) as Hlen.
  { subst result. unfold extract_shopify_reviews.
    destruct (app !! "app_url") as [[]|]; simpl; try lia.
    destruct (goto pg); simpl; [|lia].
    destruct (name_missing _) as [missing|]; simpl; [|lia].
    match goal with |- context [jsonld_pass ?a ?m ?rs ?st] =>
      pose proof (jsonld_pass_bound a m rs st Hst0) as Hld;
      destruct (jsonld_pass a m rs st) as [st1 exit]
    end.
    destruct Hld as [Hle Hbelow].
    destruct exit; simpl; try done.
    by apply dom_pass_bound, Hbelow. }
  split; [done|]. split; [lia|].
  split; [by eauto using dom_pass_late|].
  split; [by eauto using scan_cards_late|].
  split; [|split; [by eauto using dom_pass_stops_now|
           split; [by eauto using scan_cards_stops_now|
                   by eauto using dom_pass_stops]]].
  intros Hlate. subst result. unfold extract_shopify_reviews.
  destruct (app !! "app_url") as [[]|]; simpl; try done.
  destruct (goto pg); simpl; [|done].
  destruct (name_missing _) as [missing|]; simpl; [|done].
  match goal with |- context [jsonld_pass ?a ?m ?rs ?st] =>
    pose proof (jsonld_pass_source a m rs st
                  (extracted_source _) (Forall_nil_2 _)) as Hsrc;
    pose proof (jsonld_pass_tick a m rs st) as Htick;
    destruct (jsonld_pass a m rs st) as [st1 exit]
  end.
  simpl in *. destruct exit; simpl; try done.
  rewrite dom_pass_late; [done|]. by rewrite Htick.
Qed.

Lemma harvest_bounded_witness :
  Z.of_nat (length (extract_shopify_reviews (review_page long_body)
                      app_x 1 3 budget_25).2) ≤ 1 ∧
  late (timed_page long_body 0 26) budget_25 1 ∧
  Forall (λ r, source r = "jsonld")
    (extract_shopify_reviews (timed_page long_body 0 26)
       app_x 20 3 budget_25).2.
Proof.
  assert (late (timed_page long_body 0 26) budget_25 1) as Hlate.
  { intros [|t'] Ht; [lia|]. reflexivity. }
  split; [|split; [done|]].
  - apply (proj1 (proj2 (harvest_bounded (review_page long_body)
                           app_x 1 3 budget_25))).
    reflexivity.
  - by apply (proj1 (proj2 (proj2 (proj2 (proj2
              (harvest_bounded (timed_page long_body 0 26)
                 app_x 20 3 budget_25)))))).
Defined.

(** C4 as stated fails for a maximum below one: the first review is
    appended before the maximum is tested. *)
Lemma max_zero_gives_one_review :
  length (extract_shopify_reviews (review_page short_body)
            app_x 0 3 budget_25).2 = 1%nat ∧
  ¬ (Z.of_nat (length (extract_shopify_reviews (review_page short_body)
                         app_x 0 3 budget_25).2) ≤ 0).
Proof. vm_compute. split; [done|]. intros H. by apply H. Qed.

(** On a clock that is past the budget from its second reading on, the
    harvest returns the review of the JSON-LD block and not the card. *)
Example late_harvest_structured_only :
  late (timed_page long_body 0 26) budget_25 1 ∧
  map source (extract_shopify_reviews (timed_page long_body 0 26)
                app_x 20 3 budget_25).2 = ["jsonld"].
Proof.
  split; [|by vm_compute].
  intros [|t'] Ht; [lia|]. reflexivity.
Qed.

(** The elapsed time is the rounded difference of two floats: between the
    readings 0.1 and 25.1 it is 25, which a budget of 25 allows, so the
    DOM pass still runs. *)
Example elapsed_time_is_rounded :
  deadline_passed (timed_page long_body tenth twenty_five_and_tenth)
    budget_25 1 = false ∧
  map source (extract_shopify_reviews
                (timed_page long_body tenth twenty_five_and_tenth)
                app_x 20 3 budget_25).2 = ["jsonld"; "dom"].
Proof. by vm_compute. Qed.

(** ** The key of a review in the two passes *)

(** C3 on a page that shows one review, of 101 characters, both in its
    JSON-LD block and in a card: the JSON-LD pass keys it by its first 80
    characters, the DOM pass by its first 90, so the card is not recognised
    and the review is returned twice. *)
Theorem same_review_returned_twice :
  map (λ r, (review_title r, str_take 90 (review_text r), source r))
    (extract_shopify_reviews (review_page long_body) app_x 20 3 budget_25).2 =
    [("Great app", str_take 90 long_body, "jsonld");
     ("Great app", str_take 90 long_body, "dom")].
Proof. by vm_compute. Qed.

(** With a body of at most 80 characters the two keys agree and the card
    is skipped. *)
Example short_review_returned_once :
  map source (extract_shopify_reviews (review_page short_body)
                app_x 20 3 budget_25).2 = ["jsonld"].
Proof. by vm_compute. Qed.

End HarvestFacts.

(* ===================================================================== *)
(** * The run loop *)
(* ===================================================================== *)

Set Warnings "-clear-no-such-hyp".

Section RunFacts.
Import Py Main Samples.

Implicit Types (r : gmap string pyval) (l apps : list (gmap string pyval)).
Implicit Types (before : list string) (st : run_state).

Lemma record_url_url_of r u : record_url r = Some u → url_of r = u.
Proof. unfold url_of. by intros ->. Qed.

(** ** Duplicates and first occurrences *)

Lemma first_seen_app before l1 l2 :
  first_seen before (l1 ++ l2) =
    first_seen before l1 ++ first_seen (before ++ map url_of l1) l2.
Proof.
  revert before. induction l1 as [|r l1 IH]; intros before; simpl.
  { by rewrite app_nil_r. }
  rewrite IH, <- app_assoc. simpl. by destruct (decide _).
Qed.

Lemma duplicates_app before l1 l2 :
  duplicates before (l1 ++ l2) =
    (duplicates before l1 + duplicates (before ++ map url_of l1) l2)%nat.
Proof.
  revert before. induction l1 as [|r l1 IH]; intros before; simpl.
  { by rewrite app_nil_r. }
  rewrite IH, <- app_assoc. simpl. lia.
Qed.

Lemma duplicates_first_seen before l :
  (duplicates before l + length (first_seen before l) = length l)%nat.
Proof.
  revert before. induction l as [|r l IH]; intros before; simpl; [done|].
  specialize (IH (before ++ [url_of r])).
  destruct (decide _); simpl; lia.
Qed.

(** The records kept for a URL: the first one fed with it, unless the URL
    was there before. *)
Lemma first_seen_per_url before l u :
  u ≠ "" →
  filter (λ r, url_of r = u) (first_seen before l) =
    if decide (u ∈ before) then []
    else take 1 (filter (λ r, url_of r = u) l).
Proof.
  intros Hu. revert before. induction l as [|r l IH]; intros before; simpl.
  { rewrite filter_nil. by destruct (decide _). }
  specialize (IH (before ++ [url_of r])).
  destruct (decide (url_of r = u)) as [Heq|Hne].
  - rewrite (filter_cons_True _ r l) by done. simpl.
    rewrite decide_True in IH by (apply elem_of_app; right; by apply list_elem_of_singleton).
    destruct (decide (is_duplicate before r)) as [[_ Hin]|Hnd].
    + rewrite IH. rewrite <- Heq. by rewrite decide_True.
    + rewrite filter_cons_True by done. rewrite IH.
      rewrite decide_False; [by rewrite take_0|].
      intros Hin. apply Hnd. split; [unfold has_url; congruence|].
      by rewrite Heq.
  - rewrite (filter_cons_False _ r l) by done.
    assert (u ∈ before ++ [url_of r] ↔ u ∈ before) as Hiff.
    { rewrite elem_of_app, list_elem_of_singleton.
      split; [intros [?|?]; [done|congruence]|by left]. }
    destruct (decide (is_duplicate before r)).
    + rewrite IH. by destruct (decide _), (decide _); try tauto.
    + rewrite filter_cons_False by done. rewrite IH.
      by destruct (decide _), (decide _); try tauto.
Qed.

(** The records without URL are all kept. *)
Lemma first_seen_url_less before l :
  filter (λ r, url_of r = "") (first_seen before l) =
    filter (λ r, url_of r = "") l.
Proof.
  revert before. induction l as [|r l IH]; intros before; simpl; [done|].
  specialize (IH (before ++ [url_of r])).
  destruct (decide (is_duplicate before r)) as [[Hurl _]|_].
  - by rewrite (filter_cons_False _ r l) by done.
  - destruct (decide (url_of r = "")).
    + by rewrite !filter_cons_True, IH by done.
    + by rewrite !filter_cons_False by done.
Qed.

Lemma first_seen_urls_fresh before l u :
  u ≠ "" → u ∈ map url_of (first_seen before l) → u ∉ before.
Proof.
  intros Hu. revert before. induction l as [|r l IH]; intros before; simpl.
  { by intros ?%elem_of_nil. }
  assert (∀ v, v ∉ before ++ [url_of r] → v ∉ before) as Hmono.
  { intros v Hv Hin. apply Hv, elem_of_app. by left. }
  destruct (decide (is_duplicate before r)) as [|Hnd]; simpl; [by eauto|].
  intros [->|Hin]%elem_of_cons; [|by eauto].
  intros Hin. apply Hnd. by split.
Qed.

Lemma first_seen_NoDup before l :
  NoDup (filter (λ u, u ≠ "") (map url_of (first_seen before l))).
Proof.
  revert before. induction l as [|r l IH]; intros before; simpl.
  { rewrite filter_nil. constructor. }
  destruct (decide (is_duplicate before r)); simpl; [done|].
  destruct (decide (url_of r = "")) as [|Hne].
  - by rewrite filter_cons_False by (by intros []).
  - rewrite filter_cons_True by done. constructor; [|done].
    intros [_ Hin]%list_elem_of_filter.
    pose proof (first_seen_urls_fresh _ _ _ Hne Hin) as Hfresh.
    apply Hfresh, elem_of_app. right. by apply list_elem_of_singleton.
Qed.

Lemma empty_not_distinct l : "" ∉ distinct_urls l.
Proof.
  unfold distinct_urls. rewrite elem_of_list_to_set.
  by intros [? _]%list_elem_of_filter.
Qed.

Lemma distinct_urls_cons r l :
  distinct_urls (r :: l) =
    if decide (url_of r = "") then distinct_urls l
    else {[url_of r]} ∪ distinct_urls l.
Proof.
  unfold distinct_urls. simpl. destruct (decide (url_of r = "")).
  - by rewrite filter_cons_False by (by intros []).
  - by rewrite filter_cons_True by done.
Qed.

(** As many records are kept as there are new URLs and records without
    URL. *)
Lemma first_seen_length before l :
  length (first_seen before l) =
    (size (distinct_urls l ∖ list_to_set before)
     + length (filter (λ r, url_of r = "") l))%nat.
Proof.
  revert before. induction l as [|r l IH]; intros before.
  { simpl. unfold distinct_urls. simpl.
    replace (∅ ∖ list_to_set before : gset string) with (∅ : gset string)
      by set_solver.
    by rewrite size_empty. }
  simpl. specialize (IH (before ++ [url_of r])).
  rewrite list_to_set_app_L in IH. simpl in IH. rewrite union_empty_r_L in IH.
  rewrite distinct_urls_cons.
  pose proof (empty_not_distinct l) as Hempty.
  destruct (decide (is_duplicate before r)) as [[Hurl Hin]|Hnd].
  - unfold has_url in Hurl.
    rewrite decide_False, filter_cons_False by done. rewrite IH.
    assert (url_of r ∈ (list_to_set before : gset string))
      by by apply elem_of_list_to_set.
    f_equal. f_equal. set_solver.
  - destruct (decide (url_of r = "")) as [Heq|Hne].
    + rewrite filter_cons_True by done. simpl.
      rewrite IH, Heq, Nat.add_succ_r.
      replace (distinct_urls l ∖ (list_to_set before ∪ {[""]}))
        with (distinct_urls l ∖ list_to_set before : gset string)
        by set_solver.
      done.
    + rewrite filter_cons_False by done. simpl. rewrite IH.
      assert (url_of r ∉ (list_to_set before : gset string)) as Hfresh.
      { rewrite elem_of_list_to_set. intros Hin. apply Hnd. by split. }
      replace (({[url_of r]} ∪ distinct_urls l) ∖ list_to_set before)
        with ({[url_of r]} ∪
              distinct_urls l ∖ (list_to_set before ∪ {[url_of r]}) : gset string).
      * assert ({[url_of r]} ##
                distinct_urls l ∖ (list_to_set before ∪ {[url_of r]} : gset string))
          as Hdisj by set_solver.
        by rewrite (size_union _ _ Hdisj), size_singleton.
      * apply set_eq. intros x.
        destruct (decide (x = url_of r)) as [->|]; set_solver.
Qed.

(** ** The loop over the records of one category *)

Lemma dedupe_records_spec apps st per_cat st' per_cat' before :
  seen_urls st = list_to_set (filter (λ u, u ≠ "") before) →
  dedupe_records apps st per_cat = Ok (st', per_cat') →
  all_results_for_files st' =
    all_results_for_files st ++ first_seen before apps ∧
  dataset st' = dataset st ++ first_seen before apps ∧
  per_cat' = per_cat ++ first_seen before apps ∧
  pushed st' = (pushed st + length (first_seen before apps))%nat ∧
  skipped_dupes st' = (skipped_dupes st + duplicates before apps)%nat ∧
  seen_urls st' =
    list_to_set (filter (λ u, u ≠ "") (before ++ map url_of apps)) ∧
  category_stats st' = category_stats st ∧
  generated_files st' = generated_files st ∧
  Forall well_typed apps.
Proof.
  revert st per_cat before. induction apps as [|r apps IH];
    intros st per_cat before Hseen; simpl.
  { intros [= <- <-]. rewrite !app_nil_r, !Nat.add_0_r. done. }
  destruct (record_url r) as [u|] eqn:Hu; [|done].
  pose proof (record_url_url_of _ _ Hu) as Hurl. subst u.
  assert (well_typed r) as Hwt by (unfold well_typed; by rewrite Hu).
  assert (url_of r ≠ "" → (url_of r ∈ seen_urls st ↔ url_of r ∈ before))
    as Hmem.
  { intros Hne. rewrite Hseen, elem_of_list_to_set, list_elem_of_filter.
    tauto. }
  destruct (String.eqb_spec (url_of r) "") as [Hempty|Hne]; simpl.
  - (* a record without URL *)
    intros Hrun. eapply (IH _ _ (before ++ [url_of r])) in Hrun; simpl.
    + destruct Hrun as (-> & -> & -> & -> & -> & -> & -> & -> & Hall).
      rewrite !decide_False by (by intros [Hhas _]).
      simpl. rewrite <- !app_assoc. simpl.
      repeat split; try done; try lia. by constructor.
    + rewrite Hseen, filter_app, Hempty.
      by rewrite (filter_cons_False _ "" []), filter_nil, app_nil_r
        by (by intros []).
  - case_bool_decide as Hin.
    + (* a duplicate *)
      intros Hrun. eapply (IH _ _ (before ++ [url_of r])) in Hrun; simpl.
      * destruct Hrun as (-> & -> & -> & -> & -> & -> & -> & -> & Hall).
        rewrite !decide_True by (split; [done|by apply Hmem]).
        simpl. rewrite <- !app_assoc. simpl.
        repeat split; try done; try lia. by constructor.
      * rewrite filter_app, list_to_set_app_L, <- Hseen.
        rewrite filter_cons_True, filter_nil by done. simpl. set_solver.
    + (* a new URL *)
      intros Hrun. eapply (IH _ _ (before ++ [url_of r])) in Hrun; simpl.
      * destruct Hrun as (-> & -> & -> & -> & -> & -> & -> & -> & Hall).
        rewrite !decide_False by (intros [_ Hb]; by apply Hin, Hmem).
        simpl. rewrite <- !app_assoc. simpl.
        repeat split; try done; try lia. by constructor.
      * rewrite filter_app, list_to_set_app_L, <- Hseen.
        rewrite filter_cons_True, filter_nil by done. simpl. set_solver.
Qed.

Lemma dedupe_records_total apps st per_cat :
  Forall well_typed apps →
  ∃ st' per_cat', dedupe_records apps st per_cat = Ok (st', per_cat').
Proof.
  intros Hall. revert st per_cat.
  induction Hall as [|r apps [u Hu] _ IH]; intros st per_cat; simpl; [eauto|].
  rewrite Hu. destruct (_ && _); apply IH.
Qed.

(** ** The loop over the categories *)

Lemma export_category_frame cfg cat per_cat st :
  let st' := export_category cfg cat per_cat st in
  pushed st' = pushed st ∧ seen_urls st' = seen_urls st ∧
  skipped_dupes st' = skipped_dupes st ∧ dataset st' = dataset st ∧
  all_results_for_files st' = all_results_for_files st.
Proof. unfold export_category. by destruct (_ && _). Qed.

Lemma fed_cons_ok cat apps rest : fed ((cat, Ok apps) :: rest) = apps ++ fed rest.
Proof. done. Qed.

Lemma run_categories_spec cfg scraped st st' before :
  seen_urls st = list_to_set (filter (λ u, u ≠ "") before) →
  run_categories cfg scraped st = Ok st' →
  all_results_for_files st' =
    all_results_for_files st ++ first_seen before (fed scraped) ∧
  dataset st' = dataset st ++ first_seen before (fed scraped) ∧
  pushed st' = (pushed st + length (first_seen before (fed scraped)))%nat ∧
  skipped_dupes st' = (skipped_dupes st + duplicates before (fed scraped))%nat ∧
  Forall well_typed (fed scraped).
Proof.
  revert st before. induction scraped as [|[cat [apps|e]] rest IH];
    intros st before Hseen; cbn [run_categories]; [| |done].
  { intros [= <-]. simpl. rewrite !app_nil_r, !Nat.add_0_r. by repeat split. }
  destruct (dedupe_records apps st []) as [[st1 per_cat]|] eqn:Hd; [|done].
  apply (dedupe_records_spec _ _ _ _ _ before Hseen) in Hd
    as (Hres & Hdata & _ & Hpushed & Hskip & Hseen1 & _ & _ & Htyped).
  destruct (export_category_frame cfg cat per_cat st1)
    as (Hp & Hs & Hk & Hd & Ha).
  intros Hrun. apply (IH _ (before ++ map url_of apps)) in Hrun
    as (-> & -> & -> & -> & Hrest); [|by rewrite Hs].
  rewrite fed_cons_ok, first_seen_app, duplicates_app, length_app.
  rewrite Hp, Hk, Hd, Ha, Hres, Hdata, Hpushed, Hskip, <- !app_assoc.
  repeat split; try done; try lia. by apply Forall_app.
Qed.

Lemma run_categories_total cfg scraped st :
  Forall (λ co, ∃ apps, co.2 = Ok apps ∧ Forall well_typed apps) scraped →
  ∃ st', run_categories cfg scraped st = Ok st'.
Proof.
  intros Hall. revert st.
  induction Hall as [|[cat o] rest (apps & Ho & Happs) _ IH]; intros st;
    simpl in *; [eauto|]. subst o.
  destruct (dedupe_records_total apps st [] Happs) as (st1 & per_cat & ->).
  apply IH.
Qed.

(** A run whose categories were all scraped, with records whose URL
    fields hold strings or nothing, comes to its summary. *)
Lemma run_loop_total cfg scraped :
  Forall (λ co, ∃ apps, co.2 = Ok apps ∧ Forall well_typed apps) scraped →
  ∃ st sm, run_loop cfg scraped = Ok (st, sm).
Proof.
  intros Hall. unfold run_loop.
  destruct (run_categories_total cfg scraped initial_state Hall) as [st ->].
  eauto.
Qed.

Lemma export_combined_frame cfg st :
  let st' := export_combined cfg st in
  pushed st' = pushed st ∧ seen_urls st' = seen_urls st ∧
  skipped_dupes st' = skipped_dupes st ∧ dataset st' = dataset st ∧
  all_results_for_files st' = all_results_for_files st ∧
  category_stats st' = category_stats st.
Proof. unfold export_combined. by destruct (_ && _). Qed.

(** What a run leaves of the records it was fed. *)
Lemma run_loop_spec cfg scraped st sm :
  run_loop cfg scraped = Ok (st, sm) →
  all_results_for_files st = first_seen [] (fed scraped) ∧
  dataset st = first_seen [] (fed scraped) ∧
  pushed st = length (first_seen [] (fed scraped)) ∧
  skipped_dupes st = duplicates [] (fed scraped) ∧
  Forall well_typed (fed scraped) ∧
  sm = summary_of cfg (map fst scraped) st.
Proof.
  unfold run_loop.
  destruct (run_categories cfg scraped initial_state) as [st0|] eqn:Hrun;
    [|done].
  intros [= <- <-].
  apply (run_categories_spec _ _ _ _ []) in Hrun as (H1 & H2 & H3 & H4 & H5);
    [|done].
  destruct (export_combined_frame cfg st0) as (Hp & _ & Hk & Hd & Ha & _).
  by rewrite Hp, Hk, Hd, Ha.
Qed.

Lemma filter_Forall_id {A} (P : A → Prop) `{∀ x, Decision (P x)} (l : list A) :
  Forall P l → filter P l = l.
Proof.
  induction 1 as [|x l Hx _ IH]; [done|].
  by rewrite filter_cons_True, IH.
Qed.

Lemma filter_Forall_none {A} (P : A → Prop) `{∀ x, Decision (P x)} (l : list A) :
  Forall (λ x, ¬ P x) l → filter P l = [].
Proof.
  induction 1 as [|x l Hx _ IH]; [done|].
  by rewrite filter_cons_False.
Qed.

Lemma first_seen_Forall (P : gmap string pyval → Prop) before l :
  Forall P l → Forall P (first_seen before l).
Proof.
  intros Hall. revert before.
  induction Hall as [|r l Hr _ IH]; intros before; simpl; [done|].
  destruct (decide _); [apply IH|]. constructor; [done|apply IH].
Qed.

Lemma first_seen_url_less_all before l :
  Forall (λ r, url_of r = "") l →
  first_seen before l = l ∧ duplicates before l = 0%nat.
Proof.
  intros Hall. revert before.
  induction Hall as [|r l Hr _ IH]; intros before; simpl; [done|].
  rewrite !decide_False by (by intros [Hhas _]).
  destruct (IH (before ++ [url_of r])) as [-> ->]. done.
Qed.

(** Where every record has a URL, keeping first occurrences is what the
    claim of C1 states. *)
Lemma first_seen_as_stated l st :
  all_results_for_files st = first_seen [] l →
  skipped_dupes st = duplicates [] l →
  Forall has_url l →
  dedup_as_stated l st.
Proof.
  intros Hres Hskip Hall.
  pose proof (duplicates_first_seen [] l) as Hlen.
  rewrite first_seen_length in Hlen. simpl in Hlen.
  rewrite difference_empty_L in Hlen.
  rewrite filter_Forall_none in Hlen by done. simpl in Hlen.
  unfold distinct_urls in Hlen.
  rewrite filter_Forall_id in Hlen by by apply Forall_fmap.
  split; [|rewrite Hskip; lia].
  pose proof (first_seen_NoDup [] l) as Hnd. rewrite <- Hres in Hnd.
  rewrite filter_Forall_id in Hnd; [done|].
  apply Forall_fmap. rewrite Hres. by apply first_seen_Forall.
Qed.

(** The loop on any records.  The results keep, of the records fed, every
    record without URL and the first record of every URL: for each URL at
    most one record, the first one fed; the skipped count is the number of
    records fed less the distinct URLs and the records without URL.  When
    every record has a URL, no URL occurs twice and the count is the
    records fed less the distinct URLs. *)
Lemma run_loop_dedup cfg scraped st sm :
  run_loop cfg scraped = Ok (st, sm) →
  let l := fed scraped in
  let results := all_results_for_files st in
  results = first_seen [] l ∧
  (∀ u, u ≠ "" →
     filter (λ r, url_of r = u) results = take 1 (filter (λ r, url_of r = u) l)) ∧
  NoDup (filter (λ u, u ≠ "") (map url_of results)) ∧
  (skipped_dupes st + size (distinct_urls l)
   + length (filter (λ r, url_of r = "") l) = length l)%nat ∧
  (Forall has_url l → dedup_as_stated l st) ∧
  dedupe_skipped_duplicates sm = skipped_dupes st.
Proof.
  intros (Hres & _ & _ & Hskip & _ & ->)%run_loop_spec l results.
  subst results. fold l in Hres, Hskip.
  assert (skipped_dupes st + size (distinct_urls l)
          + length (filter (λ r, url_of r = "") l) = length l)%nat as Hcount.
  { pose proof (duplicates_first_seen [] l) as Hlen.
    rewrite first_seen_length in Hlen. simpl in Hlen.
    rewrite difference_empty_L in Hlen. lia. }
  split; [done|]. split; [|split; [|split; [done|split; [|done]]]].
  - intros u Hu. rewrite Hres, first_seen_per_url by done.
    by rewrite decide_False by apply not_elem_of_nil.
  - rewrite Hres. apply first_seen_NoDup.
  - intros Hall. by apply first_seen_as_stated.
Qed.

(** Every category of a sample run was scraped and its records are well
    typed. *)
Ltac sample_run_typed :=
  repeat (apply Forall_cons; split;
          [eexists; split; [reflexivity|];
           repeat (apply Forall_cons; split; [by vm_compute; eauto|]);
           apply Forall_nil_2|]);
  apply Forall_nil_2.

(** ** Records without URL *)

Lemma no_url_record_url r :
  no_url_field r "products_url" → no_url_field r "product_url" →
  record_url r = Some "".
Proof.
  unfold record_url, get.
  by intros [-> | [-> | ->]] [-> | [-> | ->]].
Qed.

(** C10.  The records without URL are all pushed and all in the results,
    in the order they were fed, and the skipped count is the number of
    records that have a URL which a record before them had: a run fed only
    records without URL keeps them all and skips none.  A record whose
    [products_url] and [product_url] are both missing or empty is without
    URL. *)
Theorem url_less_records_bypass cfg scraped st sm :
  run_loop cfg scraped = Ok (st, sm) →
  let l := fed scraped in
  filter (λ r, url_of r = "") (all_results_for_files st) =
    filter (λ r, url_of r = "") l ∧
  dataset st = all_results_for_files st ∧
  pushed st = length (dataset st) ∧
  skipped_dupes st = duplicates [] l ∧
  (Forall (λ r, url_of r = "") l →
     all_results_for_files st = l ∧ skipped_dupes st = 0%nat) ∧
  (∀ r, no_url_field r "products_url" → no_url_field r "product_url" →
        url_of r = "").
Proof.
  intros (Hres & Hdata & Hpushed & Hskip & _)%run_loop_spec l.
  fold l in Hres, Hdata, Hpushed, Hskip.
  split; [by rewrite Hres, first_seen_url_less|].
  split; [by rewrite Hres, Hdata|].
  split; [by rewrite Hdata|].
  split; [done|]. split.
  - intros Hall. rewrite Hres, Hskip.
    by apply first_seen_url_less_all.
  - intros r H1 H2. unfold url_of. by rewrite no_url_record_url.
Qed.

Lemma url_less_records_bypass_witness :
  ∃ st sm,
    run_loop default_settings mixed_run = Ok (st, sm) ∧
    filter (λ r, url_of r = "") (all_results_for_files st) =
      [url_less_record; url_less_record] ∧
    skipped_dupes st = 1%nat.
Proof.
  destruct (run_loop_total default_settings mixed_run) as (st & sm & Hrun).
  { sample_run_typed. }
  exists st, sm. split; [done|].
  destruct (url_less_records_bypass default_settings mixed_run st sm Hrun)
    as (Hkept & _ & _ & Hskip & _).
  split; [rewrite Hkept|rewrite Hskip; by vm_compute].
  change (fed mixed_run)
    with [listed_row; url_less_record; listed_row; url_less_record].
  rewrite filter_cons_False by by vm_compute.
  rewrite filter_cons_True by by vm_compute.
  rewrite filter_cons_False by by vm_compute.
  by rewrite filter_cons_True by by vm_compute.
Defined.

(** ** A category without items *)

Lemma export_category_nothing cfg cat st : export_category cfg cat [] st = st.
Proof. unfold export_category. simpl. by rewrite andb_false_r. Qed.

Lemma run_categories_skip_empty cfg pre cat post st :
  run_categories cfg (pre ++ (cat, Ok []) :: post) st =
    run_categories cfg (pre ++ post) st.
Proof.
  revert st. induction pre as [|[cat' [apps|e]] pre IH]; intros st; simpl.
  - by rewrite export_category_nothing.
  - destruct (dedupe_records apps st []) as [[st1 per_cat]|]; [apply IH|done].
  - done.
Qed.

Lemma dedupe_records_stats apps st per_cat st' per_cat' :
  dedupe_records apps st per_cat = Ok (st', per_cat') →
  category_stats st' = category_stats st ∧
  (length per_cat ≤ length per_cat')%nat.
Proof.
  revert st per_cat. induction apps as [|r apps IH]; intros st per_cat; simpl.
  { by intros [= <- <-]. }
  destruct (record_url r); [|done].
  destruct (_ && _); intros [Hstats Hlen]%IH; simpl in *; [done|].
  rewrite length_app in Hlen. simpl in Hlen. split; [done|lia].
Qed.

Lemma export_category_stats cfg cat per_cat st :
  Forall (λ e, 1 ≤ items_exported e)%nat (category_stats st) →
  Forall (λ e, 1 ≤ items_exported e)%nat
    (category_stats (export_category cfg cat per_cat st)).
Proof.
  intros Hst. unfold export_category.
  destruct (_ || _); simpl; [|done].
  destruct per_cat as [|r per_cat]; simpl; [done|].
  apply Forall_app. split; [done|]. apply Forall_singleton. simpl. lia.
Qed.

Lemma run_categories_stats cfg scraped st st' :
  run_categories cfg scraped st = Ok st' →
  Forall (λ e, 1 ≤ items_exported e)%nat (category_stats st) →
  Forall (λ e, 1 ≤ items_exported e)%nat (category_stats st').
Proof.
  revert st. induction scraped as [|[cat [apps|e]] rest IH]; intros st; simpl;
    [by intros [= <-]| |done].
  destruct (dedupe_records apps st []) as [[st1 per_cat]|] eqn:Hd; [|done].
  apply dedupe_records_stats in Hd as [Hstats _].
  intros Hrun Hst. apply (IH _ Hrun), export_category_stats.
  by rewrite Hstats.
Qed.

(** C6, as the code has it.  A category whose listing gave no item leaves
    the state of the run as it is: the run goes on with the categories
    after it exactly as if it had not been there, and where it comes to its
    summary the category is among the selected ones.  It gets no entry in
    the per-category stats: an entry is written only together with the
    export of at least one item, so no entry ever notes zero exports. *)
Theorem empty_category_contained cfg pre cat post :
  run_loop cfg (pre ++ (cat, Ok []) :: post) =
    match run_loop cfg (pre ++ post) with
    | Ok (st, _) =>
        Ok (st, summary_of cfg (map fst (pre ++ (cat, Ok []) :: post)) st)
    | Raise e => Raise e
    end ∧
  fed (pre ++ (cat, Ok []) :: post) = fed (pre ++ post) ∧
  (∀ st sm,
     run_loop cfg (pre ++ (cat, Ok []) :: post) = Ok (st, sm) →
     Listing.cat_name cat ∈ categories_selected sm ∧
     per_category sm = category_stats st ∧
     Forall (λ e, 1 ≤ items_exported e)%nat (per_category sm)).
Proof.
  split; [|split].
  - unfold run_loop. rewrite run_categories_skip_empty.
    by destruct (run_categories _ _ _).
  - unfold fed. by rewrite !flat_map_app.
  - intros st sm Hrun. pose proof Hrun as Hspec.
    apply run_loop_spec in Hspec as (_ & _ & _ & _ & _ & ->).
    split; [|split; [done|]]; simpl.
    + rewrite !map_app. simpl. apply elem_of_app. right. by left.
    + unfold run_loop in Hrun.
      destruct (run_categories _ _ _) as [st0|] eqn:Hcats; [|done].
      injection Hrun as <- _.
      destruct (export_combined_frame cfg st0) as (_ & _ & _ & _ & _ & ->).
      by apply (run_categories_stats _ _ _ _ Hcats).
Qed.

Lemma empty_category_contained_witness :
  ∃ st sm,
    run_loop default_settings empty_then_sales = Ok (st, sm) ∧
    categories_selected sm = ["Marketing"; "Sales"] ∧
    Forall (λ e, 1 ≤ items_exported e)%nat (per_category sm) ∧
    all_results_for_files st = [listed_row_y].
Proof.
  destruct (run_loop_total default_settings empty_then_sales)
    as (st & sm & Hrun).
  { sample_run_typed. }
  exists st, sm. split; [done|].
  destruct (empty_category_contained default_settings [] marketing
              [(sales, Ok [listed_row_y])]) as (_ & _ & Hsm).
  destruct (Hsm st sm Hrun) as (_ & _ & Hstats).
  apply run_loop_spec in Hrun as (Hres & _ & _ & _ & _ & ->).
  split; [done|]. split; [done|]. rewrite Hres.
  change (fed empty_then_sales) with [listed_row_y]. cbn [first_seen].
  by rewrite decide_False by (intros [_ H]; by apply elem_of_nil in H).
Defined.

(** C6 as stated fails on the entry in the stats: a run whose only
    category gave no item has the category among the selected ones and no
    entry for it. *)
Lemma empty_category_has_no_entry :
  ∃ st sm,
    run_loop default_settings only_empty = Ok (st, sm) ∧
    categories_selected sm = ["Marketing"] ∧
    per_category sm = [].
Proof. eexists _, _. split; [by vm_compute|]. by split. Qed.

End RunFacts.

(* ===================================================================== *)
(** * The records the pipeline feeds to the loop *)
(* ===================================================================== *)

Section PipelineFacts.
Import Py Main Samples.

Lemma rstrip_head p c s : p c = false → rstrip p (String c s) ≠ "".
Proof. intros Hc. simpl. destruct (rstrip p s); by rewrite ?Hc. Qed.

Lemma strip_store_url slug : strip (Listing.APP_STORE +:+ slug) ≠ "".
Proof.
  unfold strip, strip_chars, Listing.APP_STORE. rewrite app_String.
  rewrite lstrip_keep by done. by apply rstrip_head.
Qed.

Lemma store_row_has_url r : store_row r → well_typed r ∧ has_url r.
Proof.
  intros [slug Hr]. unfold well_typed, has_url, url_of, record_url, get.
  rewrite Hr. simpl. split; [eauto|]. apply strip_store_url.
Qed.

Lemma collect_rows_store cn cu cd limit links (seen : gset string) rows :
  Forall store_row rows →
  Forall store_row (Listing.collect_rows cn cu cd limit links seen rows).
Proof.
  revert seen rows. induction links as [|a rest IH]; intros seen rows Hrows;
    [done|]. simpl.
  destruct (Listing.product_url_of (Listing.href a)) as [u|] eqn:Hu;
    [|by apply IH].
  case_bool_decide; [by apply IH|].
  apply product_url_shape in Hu as (_ & -> & _).
  match goal with |- context [rows ++ [?r]] =>
    assert (Forall store_row (rows ++ [r])) as Hnew
  end.
  { apply Forall_app. split; [done|]. apply Forall_singleton.
    eexists. unfold Listing.new_row. by simplify_map_eq. }
  destruct (_ >=? _); [done|]. by apply IH.
Qed.

Lemma enrich_keeps_url visit (row : gmap string pyval) :
  (Detail.enrich_product_row visit row).1 !! "products_url" =
    row !! "products_url".
Proof.
  unfold Detail.enrich_product_row.
  repeat case_match; simpl; by simplify_map_eq.
Qed.

Lemma enrich_or_mark_store w r : store_row r → store_row (enrich_or_mark w r).
Proof.
  intros [slug Hr]. exists slug. unfold enrich_or_mark.
  pose proof (enrich_keeps_url (visit w) r) as Hkeep.
  destruct (Detail.enrich_product_row (visit w) r) as [row [|e]]; simpl in *.
  - by rewrite Hkeep.
  - rewrite lookup_insert_ne by done. by rewrite Hkeep.
Qed.

(** Every record [scrape_shopify_category] returns carries the URL the
    listing gave it. *)
Lemma scraped_rows_have_url w cat limit rows :
  scrape_shopify_category w cat limit = Ok rows →
  Forall (λ r, well_typed r ∧ has_url r) rows.
Proof.
  unfold scrape_shopify_category.
  destruct (open_category w cat) as [pg|]; [|done]. intros [= <-].
  apply Forall_fmap, Forall_forall. intros r Hr. simpl.
  apply store_row_has_url, enrich_or_mark_store.
  revert r Hr. apply Forall_forall.
  unfold Listing.extract_products_from_category.
  destruct (Listing.recommended_links pg); [|done].
  by apply collect_rows_store.
Qed.

Lemma scraped_fed_have_url cfg w categories :
  Forall (λ r, well_typed r ∧ has_url r)
    (fed (map (λ cat, (cat, scrape_shopify_category w cat
                              (products_per_category cfg))) categories)).
Proof.
  induction categories as [|cat rest IH]; [done|].
  unfold fed in *. simpl.
  destruct (scrape_shopify_category w cat _) as [rows|] eqn:Hs; [|done].
  apply Forall_app. split; [|done].
  by apply scraped_rows_have_url in Hs.
Qed.

(** A run whose category pages all open comes to its summary. *)
Lemma run_shopify_actor_total cfg w categories :
  Forall (λ cat, ∃ pg, open_category w cat = Ok pg) categories →
  ∃ st sm, run_shopify_actor cfg w categories = Ok (st, sm).
Proof.
  intros Hopen. apply run_loop_total.
  apply Forall_fmap, Forall_forall. intros cat Hcat. simpl.
  rewrite Forall_forall in Hopen. destruct (Hopen cat Hcat) as [pg Hpg].
  destruct (scrape_shopify_category w cat (products_per_category cfg))
    as [rows|] eqn:Hs.
  - exists rows. split; [done|].
    apply scraped_rows_have_url in Hs.
    eapply Forall_impl; [exact Hs|]. by intros r [? _].
  - unfold scrape_shopify_category in Hs. by rewrite Hpg in Hs.
Qed.

(** C1.  The records the loop of a run is fed are those its categories
    were scraped to, and each carries the product URL the listing gave it.
    The results keep of them the first record of every URL, in the order
    fed: no URL occurs twice among the results, and the skipped count,
    which the summary reports, is the number of records fed less the
    number of distinct URLs among them. *)
Theorem pipeline_dedup cfg w categories st sm :
  run_shopify_actor cfg w categories = Ok (st, sm) →
  let l := fed (map (λ cat, (cat, scrape_shopify_category w cat
                                    (products_per_category cfg))) categories) in
  let results := all_results_for_files st in
  Forall has_url l ∧
  results = first_seen [] l ∧
  (∀ u, filter (λ r, url_of r = u) results =
          take 1 (filter (λ r, url_of r = u) l)) ∧
  NoDup (map url_of results) ∧
  skipped_dupes st =
    (length l - size (list_to_set (map url_of l) : gset string))%nat ∧
  (skipped_dupes st + length results = length l)%nat ∧
  dedupe_skipped_duplicates sm = skipped_dupes st.
Proof.
  intros Hrun l results. unfold run_shopify_actor in Hrun. fold l in Hrun.
  apply run_loop_spec in Hrun as (Hres & _ & _ & Hskip & _ & ->).
  fold results in Hres. fold l in Hres, Hskip.
  assert (Forall has_url l) as Hall.
  { eapply Forall_impl; [apply scraped_fed_have_url|]. by intros r [_ ?]. }
  destruct (first_seen_as_stated l st Hres Hskip Hall) as [Hnd Hcount].
  split; [done|]. split; [done|]. split; [|split; [done|split; [done|split]]].
  - intros u. rewrite Hres. destruct (decide (u = "")) as [->|Hu].
    + rewrite first_seen_url_less.
      rewrite (filter_Forall_none (λ r, url_of r = "") l); [done|].
      eapply Forall_impl; [exact Hall|]. by intros r Hr.
    + rewrite first_seen_per_url by done.
      by rewrite decide_False by apply not_elem_of_nil.
  - rewrite Hskip, Hres.
    pose proof (duplicates_first_seen [] l). lia.
  - done.
Qed.

Lemma pipeline_dedup_witness :
  ∃ st sm,
    run_shopify_actor default_settings two_link_store [marketing; sales] =
      Ok (st, sm) ∧
    NoDup (map url_of (all_results_for_files st)) ∧
    skipped_dupes st = 2%nat ∧
    map url_of (all_results_for_files st) =
      ["https://apps.shopify.com/app-x"; "https://apps.shopify.com/app-y"].
Proof.
  destruct (run_shopify_actor_total default_settings two_link_store
              [marketing; sales]) as (st & sm & Hrun).
  { repeat constructor; by exists two_link_page. }
  exists st, sm. split; [done|].
  destruct (pipeline_dedup default_settings two_link_store [marketing; sales]
              st sm Hrun) as (_ & Hres & _ & Hnd & Hskip & _).
  split; [done|]. split.
  - rewrite Hskip. by vm_compute.
  - rewrite Hres. by vm_compute.
Defined.

End PipelineFacts.

(* ===================================================================== *)
(** * More on strings: trimming twice, lengths *)
(* ===================================================================== *)

Section TrimFacts.
Import Py.

Lemma rstrip_idem p s : rstrip p (rstrip p s) = rstrip p s.
Proof.
  induction s as [|c s IH]; [done|]. simpl.
  destruct (rstrip p s) as [|d r] eqn:E.
  - destruct (p c) eqn:Hc; [done|]. simpl. by rewrite Hc.
  - simpl in *. by rewrite IH.
Qed.

Lemma rstrip_keeps_head p c t :
  p c = false → ∃ t', rstrip p (String c t) = String c t'.
Proof.
  intros Hc. simpl. destruct (rstrip p t); rewrite ?Hc; eauto.
Qed.

Lemma lstrip_head p s :
  lstrip p s = "" ∨ ∃ c t, lstrip p s = String c t ∧ p c = false.
Proof.
  induction s as [|c s IH]; [by left|]. simpl.
  destruct (p c) eqn:Hc; [done|]. right. eauto.
Qed.

(** Trimming a trimmed string changes nothing. *)
Lemma strip_chars_idem p s :
  strip_chars p (strip_chars p s) = strip_chars p s.
Proof.
  unfold strip_chars.
  destruct (lstrip_head p s) as [-> | (c & t & -> & Hc)]; [done|].
  destruct (rstrip_keeps_head p c t Hc) as [t' Ht'].
  rewrite Ht', lstrip_keep by done. rewrite <- Ht'. apply rstrip_idem.
Qed.

Lemma strip_idem s : strip (strip s) = strip s.
Proof. apply strip_chars_idem. Qed.

Lemma lstrip_all p s : all_chars p s = true → lstrip p s = "".
Proof.
  induction s as [|c s IH]; [done|]. simpl.
  intros [-> ?]%andb_true_iff. auto.
Qed.

Lemma rstrip_empty p s : rstrip p s = "" ↔ all_chars p s = true.
Proof.
  induction s as [|c s IH]; [done|]. simpl. split.
  - destruct (rstrip p s) as [|d r] eqn:E; [|done].
    destruct (p c); [|done]. intros _. simpl. by apply IH.
  - intros [-> Hs]%andb_true_iff. apply IH in Hs. by rewrite Hs.
Qed.

Lemma all_chars_lstrip_inv p s :
  all_chars p (lstrip p s) = true → all_chars p s = true.
Proof.
  induction s as [|c s IH]; [done|]. simpl.
  destruct (p c) eqn:Hc; simpl; [done|]. by rewrite Hc.
Qed.

(** A string trims to nothing exactly when it holds trimmed characters
    only. *)
Lemma strip_chars_empty p s :
  strip_chars p s = "" ↔ all_chars p s = true.
Proof.
  unfold strip_chars. rewrite rstrip_empty. split.
  - apply all_chars_lstrip_inv.
  - intros H. by rewrite lstrip_all.
Qed.

Lemma all_chars_first_where p s :
  all_chars (λ c, negb (p c)) s = true → first_where p s = None.
Proof.
  intros H. rewrite <- (app_empty_r s). by rewrite first_where_app.
Qed.

Lemma split_head_free_id sep s :
  all_chars (λ c, negb (is_char sep c)) s = true → split_head sep s = s.
Proof.
  intros H. rewrite <- (app_empty_r s) at 1.
  rewrite split_head_app by done. simpl. apply app_empty_r.
Qed.

Lemma length_str_map f s : String.length (str_map f s) = String.length s.
Proof. induction s as [|c s IH]; simpl; congruence. Qed.

Lemma title_go_empty b s : title_go b s = "" → s = "".
Proof.
  destruct s as [|c s]; [done|]. simpl.
  destruct (is_cased c); [|done]. destruct b; [done|].
  unfold title_char. destruct (has_upper c); [done|].
  by destruct (is_char "223" c).
Qed.


(** Title case on Latin-1 text: "xéy" gives "Xéy", a sharp s that starts a
    word gives "Ss", a digit is uncased. *)
Example title_latin1 :
  title "hello-world app" = "Hello-World App" ∧
  title "a1b" = "A1B" ∧
  title (String "x" (String "233" "y")) = String "X" (String "233" "y") ∧
  title (String "223" "a") = "Ssa" ∧
  title (String "192" "B cd") = String "192" "b Cd".
Proof. by vm_compute. Qed.

(** Trimming takes the no-break space and the next-line character as it
    takes a blank. *)
Example strip_latin1 :
  strip (String "160" (" a b" +:+ String "133" "")) = "a b".
Proof. by vm_compute. Qed.

(** Replacing one character by one character keeps the length. *)
Lemma length_replace_char (x y : ascii) s :
  String.length (replace (String x "") (String y "") s) = String.length s.
Proof.
  unfold replace. induction s as [|c s IH]; [done|].
  cbn [replace_go startswith String.length Nat.pred].
  destruct (Ascii.eqb x c); cbn [andb];
    rewrite ?app_String, ?app_empty_l; simpl; by rewrite IH.
Qed.

Lemma length_empty s : String.length s = 0%nat → s = "".
Proof. by destruct s. Qed.

End TrimFacts.

(* ===================================================================== *)
(** * More on the listing *)
(* ===================================================================== *)

Section ListingMore.
Import Py Listing Props.

Lemma store_prefix_has_slash s :
  startswith APP_STORE s = true →
  all_chars (λ c, negb (is_char "/" c)) s = false.
Proof.
  intros (rest & ->)%startswith_inv.
  destruct (all_chars _ _) eqn:E; [|done].
  apply all_chars_first_where in E. unfold APP_STORE in E.
  by rewrite !app_String in E.
Qed.

(** Text without a slash holds no occurrence of the store prefix. *)
Lemma replace_go_slash_free s :
  all_chars (λ c, negb (is_char "/" c)) s = true →
  replace_go APP_STORE "" 0 s = s.
Proof.
  induction s as [|c s IH]; [done|]. intros Hs.
  rewrite replace_go_no_occurrence.
  - f_equal. apply IH. simpl in Hs. by apply andb_true_iff in Hs as [_ ?].
  - destruct (startswith APP_STORE (String c s)) eqn:E; [|done].
    apply store_prefix_has_slash in E. congruence.
Qed.

Lemma all_chars_and_inv p q s :
  all_chars (λ c, p c && q c) s = true →
  all_chars p s = true ∧ all_chars q s = true.
Proof.
  induction s as [|c s IH]; [done|]. simpl.
  intros [[-> ->]%andb_true_iff [? ?]%IH]%andb_true_iff. by split.
Qed.

Lemma slug_of_stripped href : strip (slug_of href) = slug_of href.
Proof. unfold slug_of. apply strip_idem. Qed.

(** X1.  The product URL of a link is its own product URL: canonical URLs are
    fixed points of the canonicalisation. *)
Theorem product_url_idempotent href u :
  product_url_of href = Some u → product_url_of u = Some u.
Proof.
  intros Hu. pose proof Hu as Hshape.
  apply product_url_shape in Hshape as (_ & -> & Hne & Hnon).
  pose proof (slug_of_one_segment href) as Hseg.
  apply all_chars_and_inv in Hseg as [Hslash Hquery].
  set (slug := slug_of href) in *.
  assert (slug_of (APP_STORE +:+ slug) = slug) as Hslug.
  { unfold slug_of at 1, replace.
    change (match APP_STORE with "" => interleave "" (APP_STORE +:+ slug)
            | _ => replace_go APP_STORE "" 0 (APP_STORE +:+ slug) end)
      with (replace_go APP_STORE "" 0 (APP_STORE +:+ slug)).
    rewrite replace_go_at_occurrence by done.
    rewrite app_empty_l, replace_go_slash_free by done.
    rewrite (split_head_free_id "?" slug) by done.
    assert (strip_chars (is_char "/") slug = slug) as ->.
    { unfold strip_chars. destruct slug as [|c t]; [done|].
      simpl in Hslash. apply andb_true_iff in Hslash as [Hc Ht].
      apply negb_true_iff in Hc. rewrite lstrip_keep by done.
      apply rstrip_free. simpl. by rewrite Hc, Ht. }
    rewrite (split_head_free_id "/" slug) by done. apply slug_of_stripped. }
  unfold product_url_of. rewrite startswith_app, Hslug. simpl.
  destruct (String.eqb_spec slug ""); [done|]. simpl.
  by rewrite bool_decide_eq_false_2.
Qed.

Lemma product_url_idempotent_witness :
  product_url_of "https://apps.shopify.com/app-x" =
    Some "https://apps.shopify.com/app-x".
Proof.
  apply (product_url_idempotent "https://apps.shopify.com/app-x/reviews?page=2").
  reflexivity.
Defined.

(** The URLs of the rows: the first distinct product URLs of the
    recommended links. *)
Lemma listing_urls pg cat limit :
  map row_url (extract_products_from_category pg cat limit) =
    PStr <$> take (Z.to_nat (Z.max limit 1))
               (keep_first (candidate_urls (default [] (recommended_links pg)))).
Proof.
  unfold extract_products_from_category.
  destruct (recommended_links pg) as [links|]; simpl.
  - rewrite collect_rows_urls, (filter_not_in_empty ∅) by done. simpl.
    by rewrite Z.sub_0_r.
  - by rewrite take_nil.
Qed.

Lemma keep_first_nil l : keep_first l = [] ↔ l = [].
Proof. by destruct l. Qed.

(** X2.  The listing is empty exactly when no recommended link has a product
    URL: without the heading, without links, or with links to non-app
    paths only; as soon as one link has a product URL there is a row,
    whatever the limit. *)
Theorem listing_empty_iff pg cat limit :
  extract_products_from_category pg cat limit = [] ↔
  candidate_urls (default [] (recommended_links pg)) = [].
Proof.
  pose proof (listing_urls pg cat limit) as Hurls.
  split.
  - intros Hrows. rewrite Hrows in Hurls. simpl in Hurls.
    apply keep_first_nil.
    destruct (keep_first _) as [|u l]; [done|].
    destruct (Z.to_nat (Z.max limit 1)) eqn:En; [lia|done].
  - intros Hnone. rewrite Hnone in Hurls. simpl in Hurls.
    rewrite take_nil in Hurls. by destruct (extract_products_from_category _ _ _).
Qed.

Lemma title_nonempty s : s ≠ "" → title (replace "-" " " s) ≠ "".
Proof.
  intros Hs Ht. apply Hs, length_empty.
  rewrite <- (length_replace_char "-" " " s).
  unfold title in Ht. by rewrite (title_go_empty _ _ Ht).
Qed.

Lemma display_name_nonempty a slug : slug ≠ "" → display_name a slug ≠ "".
Proof.
  intros Hs. unfold display_name.
  destruct (String.eqb_spec (strip (inner_text a)) "") as [|Hne]; simpl.
  - by apply title_nonempty.
  - destruct (_ <? _)%nat; [by apply title_nonempty|done].
Qed.

Lemma collect_rows_fresh cn cu cd limit links (seen : gset string) rows :
  Forall fresh_row rows →
  Forall fresh_row (collect_rows cn cu cd limit links seen rows).
Proof.
  revert seen rows. induction links as [|a rest IH]; intros seen rows Hrows;
    [done|]. simpl.
  destruct (product_url_of (href a)) as [u|] eqn:Hu; [|by apply IH].
  case_bool_decide; [by apply IH|].
  apply product_url_shape in Hu as (_ & -> & Hne & _).
  match goal with |- context [rows ++ [?r]] =>
    assert (Forall fresh_row (rows ++ [r])) as Hnew
  end.
  { apply Forall_app. split; [done|]. apply Forall_singleton.
    unfold fresh_row, new_row. repeat split; try by simplify_map_eq.
    - eexists. split; [by simplify_map_eq|]. by apply display_name_nonempty.
    - eexists. split; [by simplify_map_eq|done]. }
  destruct (_ >=? _); [done|]. by apply IH.
Qed.

(** X3.  Every row of the listing has a display name that is not empty, also
    where the link has no text, a product URL of the store with a slug that
    is not empty, and empty placeholders for description, price, rating and
    review count. *)
Theorem listing_rows_fresh pg cat limit :
  Forall fresh_row (extract_products_from_category pg cat limit).
Proof.
  unfold extract_products_from_category.
  destruct (recommended_links pg); [|done]. by apply collect_rows_fresh.
Qed.

End ListingMore.

(* ===================================================================== *)
(** * The synchronous extractor of apps_extractor.py *)
(* ===================================================================== *)

Section AppsFacts.
Import Py.

Lemma app_url_new_app cu name u :
  Apps.app_url_of (Apps.new_app cu name u) = PStr u.
Proof. unfold Apps.app_url_of, get, Apps.new_app. by simplify_map_eq. Qed.

Lemma collect_apps_urls cn cu cd category_url limit links (seen : gset string)
    rows apps :
  length rows = length apps →
  map Listing.row_url rows = map Apps.app_url_of apps →
  map Apps.app_url_of (Apps.collect_apps category_url limit links seen apps) =
    map Listing.row_url (Listing.collect_rows cn cu cd limit links seen rows).
Proof.
  revert seen rows apps. induction links as [|a rest IH];
    intros seen rows apps Hlen Hurls; simpl; [done|].
  destruct (Listing.product_url_of (Listing.href a)) as [u|]; [|by apply IH].
  case_bool_decide; [by apply IH|].
  rewrite !length_app, Hlen. simpl.
  destruct (_ >=? _).
  - by rewrite !map_app, Hurls; simpl; rewrite app_url_new_app, row_url_new_row.
  - apply IH.
    + by rewrite !length_app, Hlen.
    + by rewrite !map_app, Hurls; simpl; rewrite app_url_new_app, row_url_new_row.
Qed.

(** X4.  On the same links and with the same limit the two extractors keep the
    same URLs in the same order: the synchronous one, given the anchors of
    a page, returns the first [max limit 1] distinct product URLs of its
    store links, at most [limit] of them for a limit of at least one. *)
Theorem apps_extractor_urls anchors category_url limit :
  let apps := Apps.extract_shopify_apps_from_category anchors category_url limit in
  (∀ cn cu cd,
     map Apps.app_url_of apps =
       map Listing.row_url
         (Listing.collect_rows cn cu cd limit (Listing.app_links anchors) ∅ [])) ∧
  map Apps.app_url_of apps =
    PStr <$> take (Z.to_nat (Z.max limit 1))
               (Listing.keep_first
                  (Listing.candidate_urls (Listing.app_links anchors))) ∧
  NoDup (map Apps.app_url_of apps) ∧
  (1 ≤ limit → Z.of_nat (length apps) ≤ limit).
Proof.
  intros apps.
  assert (∀ cn cu cd,
     map Apps.app_url_of apps =
       map Listing.row_url
         (Listing.collect_rows cn cu cd limit (Listing.app_links anchors) ∅ []))
    as Hsame.
  { intros. by apply collect_apps_urls. }
  assert (map Apps.app_url_of apps =
    PStr <$> take (Z.to_nat (Z.max limit 1))
               (Listing.keep_first
                  (Listing.candidate_urls (Listing.app_links anchors))))
    as Hurls.
  { rewrite (Hsame "" "" ""), collect_rows_urls.
    rewrite (filter_not_in_empty ∅) by done. simpl. by rewrite Z.sub_0_r. }
  split; [done|]. split; [done|]. split.
  - rewrite Hurls. apply (NoDup_fmap_2 _).
    eapply sublist_NoDup; [apply keep_first_NoDup|apply sublist_take].
  - intros Hlimit.
    rewrite <- (length_map Apps.app_url_of), Hurls, length_fmap, length_take.
    lia.
Qed.

Lemma apps_extractor_urls_witness :
  Z.of_nat (length (Apps.extract_shopify_apps_from_category
                      [Samples.link_x; Samples.link_y; Samples.link_x]
                      "https://apps.shopify.com/categories/marketing" 1)) ≤ 1.
Proof.
  apply (proj2 (proj2 (proj2 (apps_extractor_urls
           [Samples.link_x; Samples.link_y; Samples.link_x]
           "https://apps.shopify.com/categories/marketing" 1)))).
  reflexivity.
Defined.

End AppsFacts.

(* ===================================================================== *)
(** * More on the detail page *)
(* ===================================================================== *)

Section DetailMore.
Import Py Regex Detail.

(** A word of the amount pattern holds a dollar sign. *)
Lemma amount_has_dollar m :
  lang AMOUNT m → ∃ u w, m = u +:+ String "$" w.
Proof.
  intros (u & v & -> & _ & (d & w & -> & Hd & _)%lang_seq_inv)%lang_seq_inv.
  apply lang_cls_inv in Hd as (c & -> & ->%is_char_eq).
  exists u, w. by rewrite app_String.
Qed.

Lemma amount_not_blank m : lang AMOUNT m → strip m ≠ "".
Proof.
  intros (u & w & ->)%amount_has_dollar. unfold strip.
  rewrite strip_chars_empty, all_chars_app. simpl.
  by rewrite andb_false_r.
Qed.

Lemma per_period_starts_with_amount m :
  lang PRICE_PER_PERIOD m → ∃ m1 m2, m = m1 +:+ m2 ∧ lang AMOUNT m1.
Proof. intros (m1 & m2 & -> & H1 & _)%lang_seq_inv. eauto. Qed.

Lemma per_period_not_blank m : lang PRICE_PER_PERIOD m → strip m ≠ "".
Proof.
  intros (m1 & m2 & -> & (u & w & ->)%amount_has_dollar)%per_period_starts_with_amount.
  unfold strip. rewrite strip_chars_empty, !all_chars_app. simpl.
  by rewrite andb_false_r.
Qed.

(** Where an amount with a period matches, a bare amount matches. *)
Lemma per_period_has_bare txt :
  has_match PRICE_PER_PERIOD txt → has_match PRICE_BARE txt.
Proof.
  intros (i & m & post & Hdrop & Hi & Hm).
  apply per_period_starts_with_amount in Hm as (m1 & m2 & -> & Hm1).
  exists i, m1, (m2 +:+ post). by rewrite <- app_assoc_str.
Qed.

Lemma leftmost_in_lang r s m : leftmost_match r s m → lang r m.
Proof. by intros (i & (post & _ & _ & Hm) & _). Qed.

Lemma leftmost_has_match r s m : leftmost_match r s m → has_match r s.
Proof. intros (i & Hi & _). by exists i, m. Qed.

(** X5.  The price is empty exactly when the page shows neither free-tier
    phrase and its main text, if it can be read, holds no dollar amount. *)
Theorem price_empty_iff pv :
  _extract_price pv = "" ↔
    free_to_install pv = 0%nat ∧ free_plan pv = 0%nat ∧
    ∀ txt, main_text pv = Some txt → ¬ has_match PRICE_BARE txt.
Proof.
  unfold _extract_price.
  destruct (free_to_install pv) as [|n]; simpl; [|by split; [|intros []]].
  destruct (free_plan pv) as [|n]; simpl; [|by split; [|intros (_ & ? & _)]].
  destruct (main_text pv) as [txt|]; [|by split].
  destruct (search PRICE_PER_PERIOD txt) as [m|] eqn:E1.
  { apply search_leftmost in E1. split.
    - intros Hm. by apply leftmost_in_lang, per_period_not_blank in E1.
    - intros (_ & _ & Hno). destruct (Hno txt eq_refl).
      eapply per_period_has_bare, leftmost_has_match, E1. }
  destruct (search PRICE_BARE txt) as [m|] eqn:E2.
  { apply search_leftmost in E2. split.
    - intros Hm. by apply leftmost_in_lang, amount_not_blank in E2.
    - intros (_ & _ & Hno). destruct (Hno txt eq_refl).
      eapply leftmost_has_match, E2. }
  apply search_none in E2. split; [|done].
  intros _. split; [done|]. split; [done|]. by intros ? [= <-].
Qed.

Lemma none_if_empty_shape s :
  none_if_empty (strip s) = PNone ∨
  none_if_empty (strip s) = PStr (strip s) ∧ strip s ≠ "".
Proof.
  unfold none_if_empty. destruct (String.eqb_spec (strip s) ""); eauto.
Qed.

(** X6.  The developer name is [None] or a trimmed string that is not empty,
    never an empty or padded one; a website is returned only together with
    a link, and both are [None] where the label or its value is missing or
    the lookup raises. *)
Theorem developer_info_shape dv :
  let info := _extract_developer_info dv in
  (info.1 = PNone ∨ ∃ s, info.1 = PStr s ∧ s ≠ "" ∧ strip s = s) ∧
  (info.2 ≠ PNone → ∃ text h, dv = ValueLink text (Some h) ∧ info.2 = PStr h) ∧
  (dv = NoLabel ∨ dv = NoValue ∨ dv = LookupRaises →
   info = (PNone, PNone)).
Proof.
  assert (∀ s, none_if_empty (strip s) = PNone ∨
               ∃ t, none_if_empty (strip s) = PStr t ∧ t ≠ "" ∧ strip t = t)
    as Hname.
  { intros s. destruct (none_if_empty_shape s) as [->|[-> ?]]; [by left|].
    right. exists (strip s). by rewrite strip_idem. }
  destruct dv as [| |text href|text|]; simpl.
  - split; [by left|]. by split.
  - split; [by left|]. by split.
  - split; [apply Hname|]. split; [|by intros [?|[?|?]]].
    destruct href; [eauto|done].
  - split; [apply Hname|]. split; [done|by intros [?|[?|?]]].
  - split; [by left|]. by split.
Qed.

Lemma developer_info_shape_witness :
  ∃ text h,
    ValueLink (Some " Acme ") (Some "https://acme.example") =
      ValueLink text (Some h) ∧
    (_extract_developer_info
       (ValueLink (Some " Acme ") (Some "https://acme.example"))).2 = PStr h.
Proof.
  apply (proj1 (proj2 (developer_info_shape
           (ValueLink (Some " Acme ") (Some "https://acme.example"))))).
  discriminate.
Defined.

Lemma safe_text_trimmed inner : strip (_safe_text inner "") = _safe_text inner "".
Proof. destruct inner; simpl; [apply strip_idem|done]. Qed.

(** X7.  The description is trimmed; it is empty exactly when the meta
    description is missing or blank and the first paragraph is blank or
    cannot be read. *)
Theorem description_trimmed dv :
  strip (_extract_description dv) = _extract_description dv ∧
  (_extract_description dv = "" ↔
     (∀ c, meta_description dv = Some (Some c) → strip c = "") ∧
     (∀ t, first_paragraph dv = Some t → strip t = "")).
Proof.
  unfold _extract_description.
  destruct (meta_description dv) as [[c|]|]; simpl.
  - destruct (String.eqb_spec (strip c) "") as [Hc|Hc]; simpl.
    + split; [apply safe_text_trimmed|]. split.
      * intros Hp. split; [by intros ? [= <-]|].
        intros t Ht. by rewrite Ht in Hp.
      * intros [_ Hp]. destruct (first_paragraph dv); simpl; eauto.
    + split; [apply strip_idem|]. split; [done|].
      intros [Hm _]. by destruct Hc; apply Hm.
  - split; [apply safe_text_trimmed|]. split.
    + intros Hp. split; [done|]. intros t Ht. by rewrite Ht in Hp.
    + intros [_ Hp]. destruct (first_paragraph dv); simpl; eauto.
  - split; [apply safe_text_trimmed|]. split.
    + intros Hp. split; [done|]. intros t Ht. by rewrite Ht in Hp.
    + intros [_ Hp]. destruct (first_paragraph dv); simpl; eauto.
Qed.

Lemma description_trimmed_witness :
  _extract_description
    {| meta_description := Some (Some "   "); first_paragraph := None |} = "".
Proof.
  apply (proj2 (description_trimmed
           {| meta_description := Some (Some "   "); first_paragraph := None |})).
  split.
  - intros c [= <-]. reflexivity.
  - intros t Ht. discriminate Ht.
Defined.

(** ** What enrichment leaves alone *)

Lemma enrich_frame visit (row : gmap string pyval) k :
  k ∉ ENRICHED_KEYS →
  (enrich_product_row visit row).1 !! k = row !! k.
Proof.
  unfold ENRICHED_KEYS. rewrite !not_elem_of_cons. intros Hk. destruct_and!.
  unfold enrich_product_row.
  repeat case_match; simpl; by rewrite ?lookup_insert_ne by done.
Qed.

Lemma enrich_or_mark_frame w (row : gmap string pyval) k :
  k ∉ ENRICHED_KEYS → k ≠ "enrich_error" →
  Main.enrich_or_mark w row !! k = row !! k.
Proof.
  intros Hk Herr. unfold Main.enrich_or_mark.
  pose proof (enrich_frame (Main.visit w) row k Hk) as Hf.
  destruct (enrich_product_row (Main.visit w) row) as [row' [[]|e]];
    simpl in *; [done|]. by rewrite lookup_insert_ne.
Qed.

(** X8.  Whatever the detail page does, the row the caller keeps differs from
    the listed one at most in the nine enrichment keys and [enrich_error]:
    category, name and product URL are as listed.  [enrich_error] is
    written exactly when the enrichment raises, and holds the text of the
    exception; a navigation that raises leaves the other keys as they
    were. *)
Theorem enrichment_frame w row :
  (∀ k, k ∉ ENRICHED_KEYS → k ≠ "enrich_error" →
        Main.enrich_or_mark w row !! k = row !! k) ∧
  (∀ e, (enrich_product_row (Main.visit w) row).2 = Raise e →
        Main.enrich_or_mark w row !! "enrich_error" = Some (PStr (exn_str e))) ∧
  ((enrich_product_row (Main.visit w) row).2 = Ok () →
        Main.enrich_or_mark w row !! "enrich_error" = row !! "enrich_error") ∧
  (∀ url e, row !! "products_url" = Some (PStr url) →
        goto (Main.visit w url) = Raise e →
        Main.enrich_or_mark w row = <["enrich_error" := PStr (exn_str e)]> row).
Proof.
  split; [by apply enrich_or_mark_frame|].
  unfold Main.enrich_or_mark. split; [|split].
  - intros e He.
    destruct (enrich_product_row (Main.visit w) row) as [row' [[]|e']];
      simpl in *; [done|]. injection He as ->. by rewrite lookup_insert_eq.
  - intros Hok.
    pose proof (enrich_frame (Main.visit w) row "enrich_error") as Hf.
    destruct (enrich_product_row (Main.visit w) row) as [row' [[]|e']];
      simpl in *; [|done]. apply Hf. unfold ENRICHED_KEYS.
    rewrite !not_elem_of_cons. repeat split; try done. apply not_elem_of_nil.
  - intros url e Hurl Hgoto. unfold enrich_product_row.
    by rewrite Hurl, Hgoto.
Qed.

Lemma enrichment_frame_witness :
  Main.enrich_or_mark
    {| Main.open_category := λ _, Raise Samples.locator_timeout;
       Main.visit := λ _, Samples.rating_fails_page |}
    Samples.listed_row !! "enrich_error" =
  Samples.listed_row !! "enrich_error".
Proof.
  apply (proj1 (proj2 (proj2 (enrichment_frame
           {| Main.open_category := λ _, Raise Samples.locator_timeout;
              Main.visit := λ _, Samples.rating_fails_page |}
           Samples.listed_row)))).
  reflexivity.
Defined.

(** X9.  [scrape_shopify_category] returns one row for every row of the
    listing, in the order of the listing and with the listed category, name
    and product URL, whether its enrichment raised or not; it raises only
    where opening the category does. *)
Theorem scrape_keeps_every_row w cat limit :
  match Main.open_category w cat with
  | Raise e => Main.scrape_shopify_category w cat limit = Raise e
  | Ok pg =>
      ∃ out,
        Main.scrape_shopify_category w cat limit = Ok out ∧
        Forall2 (λ r o, ∀ k, k ∉ ENRICHED_KEYS → k ≠ "enrich_error" →
                             o !! k = r !! k)
          (Listing.extract_products_from_category pg cat limit) out
  end.
Proof.
  unfold Main.scrape_shopify_category.
  destruct (Main.open_category w cat) as [pg|e]; [|done].
  eexists. split; [done|].
  apply Forall2_fmap_r, Forall_Forall2_diag, Forall_forall.
  intros r _ k Hk Herr. by apply enrich_or_mark_frame.
Qed.

End DetailMore.

(* ===================================================================== *)
(** * More on the review harvester *)
(* ===================================================================== *)

Section HarvestMore.
Import Py Reviews Props.

Implicit Types (st : hstate) (app : gmap string pyval).

(** The harvest ends early with nothing, or runs the JSON-LD pass on the
    record with price and name filled and, where that pass runs out, the
    DOM pass. *)
Lemma harvest_cases pg app max_reviews max_pages budget :
  extract_shopify_reviews pg app max_reviews max_pages budget = (app, []) ∨
  (extract_shopify_reviews pg app max_reviews max_pages budget).2 = [] ∨
  ∃ app' st1 exit,
    jsonld_pass app' max_reviews (_extract_json_ld_reviews (ld_scripts pg))
      {| tick := 1; seen := ∅; reviews := [] |} = (st1, exit) ∧
    extract_shopify_reviews pg app max_reviews max_pages budget =
      (app', match exit with
             | Completed =>
                 reviews (dom_pass pg app' max_reviews budget
                            (Z.to_nat max_pages) 0 st1)
             | _ => reviews st1
             end).
Proof.
  unfold extract_shopify_reviews.
  destruct (app !! "app_url") as [[]|]; try by left.
  destruct (goto pg); [|by left].
  destruct (name_missing _) as [missing|]; [|by right; left].
  right. right.
  destruct (jsonld_pass _ _ _ _) as [st1 exit] eqn:E.
  eexists _, st1, exit. split; [exact E|]. by destruct exit.
Qed.

(** ** Keys *)

Lemma add_review_recorded st key r :
  recorded st → key ∉ seen st → review_key r = key →
  recorded (add_review st key r).
Proof.
  intros [Hnd Hseen] Hkey Hr. split; simpl.
  - rewrite map_app. simpl. apply NoDup_app. split; [done|]. split.
    + intros k Hk ->%list_elem_of_singleton.
      apply list_elem_of_fmap in Hk as (r' & Hr' & Hin).
      apply Hkey. rewrite <- Hr, Hr'. by apply Hseen.
    + apply NoDup_singleton.
  - intros r' [Hin | ->%list_elem_of_singleton]%elem_of_app.
    + apply elem_of_union. right. by apply Hseen.
    + apply elem_of_union. left. by apply elem_of_singleton.
Qed.

Lemma recorded_tick st :
  recorded st →
  recorded {| tick := S (tick st); seen := seen st; reviews := reviews st |}.
Proof. done. Qed.

Lemma new_key_not_seen key (s : gset string) :
  String.eqb key "" || bool_decide (key ∈ s) = false → key ∉ s.
Proof.
  intros [_ H]%orb_false_iff. by apply bool_decide_eq_false in H.
Qed.

Lemma jsonld_pass_recorded app max_reviews rs st :
  Forall (λ r, ld_source r = "jsonld") rs →
  recorded st →
  recorded (jsonld_pass app max_reviews rs st).1.
Proof.
  intros Hrs. revert st. induction Hrs as [|r rs Hr _ IH]; intros st Hst;
    simpl; [done|].
  destruct (ld_title r); try done. destruct (ld_text r); try done.
  destruct (_ || _) eqn:Hnew; [by apply IH|].
  apply new_key_not_seen in Hnew.
  match goal with |- context [add_review st ?k ?x] =>
    assert (recorded (add_review st k x)) as Hadd
      by (apply add_review_recorded; [done|done|];
          unfold review_key; simpl; by rewrite Hr);
    set (st1 := add_review st k x) in *
  end.
  destruct (_ >=? _); [done|]. by apply IH.
Qed.

Lemma scan_cards_recorded pg app max_reviews budget cs st :
  recorded st →
  recorded (scan_cards pg app max_reviews budget cs st).1.
Proof.
  revert st. induction cs as [|c cs IH]; intros st Hst; simpl; [done|].
  apply recorded_tick in Hst.
  set (st0 := {| tick := S (tick st); seen := seen st; reviews := reviews st |}) in *.
  destruct (deadline_passed _ _ _); [done|].
  destruct (_ <? _)%nat; [by apply IH|].
  destruct (_ || _) eqn:Hnew; [by apply IH|].
  apply new_key_not_seen in Hnew.
  match goal with |- context [add_review st0 ?k ?x] =>
    assert (recorded (add_review st0 k x)) as Hadd
      by (by apply add_review_recorded);
    set (st1 := add_review st0 k x) in *
  end.
  destruct (_ >=? _); [done|]. by apply IH.
Qed.

Lemma dom_pass_recorded pg app max_reviews budget n pidx st :
  recorded st →
  recorded (dom_pass pg app max_reviews budget n pidx st).
Proof.
  revert pidx st. induction n as [|n IH]; intros pidx st Hst; simpl; [done|].
  apply recorded_tick in Hst.
  set (st0 := {| tick := S (tick st); seen := seen st; reviews := reviews st |}) in *.
  destruct (deadline_passed _ _ _); [done|].
  destruct (_ && _); [done|].
  pose proof (scan_cards_recorded pg app max_reviews budget
                (take 120 (cards (views pg pidx))) st0 Hst) as Hscan.
  destruct (scan_cards _ _ _ _ _ _) as [st1 []]; [done|]. simpl in Hscan.
  destruct (_ =? _)%nat; [done|].
  destruct (load_more _); [|by apply IH|];
    (destruct (next_btn _); [done|by apply IH|done]).
Qed.

(** X10.  No two reviews of a harvest were recorded under the same key: a
    review is added only under a key that is not yet in [seen]. *)
Theorem harvest_keys_distinct pg app max_reviews max_pages budget :
  NoDup (map review_key
           (extract_shopify_reviews pg app max_reviews max_pages budget).2).
Proof.
  destruct (harvest_cases pg app max_reviews max_pages budget)
    as [-> | [-> | (app' & st1 & exit & Hld & ->)]]; [constructor..|].
  assert (recorded {| tick := 1; seen := ∅; reviews := [] |}) as H0.
  { split; [constructor|]. by intros r ?%elem_of_nil. }
  pose proof (jsonld_pass_recorded app' max_reviews _ _
                (extracted_source (ld_scripts pg)) H0) as Hrec.
  rewrite Hld in Hrec. simpl in *.
  destruct exit; try apply Hrec.
  by apply dom_pass_recorded.
Qed.

(** ** Where the reviews come from *)

Lemma safe_text_stripped inner : strip (_safe_text inner "") = _safe_text inner "".
Proof. destruct inner; simpl; [apply strip_idem|done]. Qed.

Lemma scan_cards_appends pg app max_reviews budget cs st :
  ∃ added,
    reviews (scan_cards pg app max_reviews budget cs st).1 =
      reviews st ++ added ∧
    Forall dom_entry added ∧ Forall (carries_app app) added.
Proof.
  revert st. induction cs as [|c cs IH]; intros st; simpl.
  { exists []. by rewrite app_nil_r. }
  set (st0 := {| tick := S (tick st); seen := seen st; reviews := reviews st |}).
  destruct (deadline_passed _ _ _).
  { exists []. by rewrite app_nil_r. }
  destruct (Nat.ltb_spec (String.length (_safe_text (card_p c) "")) 40)
    as [|Hlen]; [apply (IH st0)|].
  destruct (_ || _); [apply (IH st0)|].
  match goal with |- context [add_review st0 ?k ?x] =>
    assert (dom_entry x ∧ carries_app app x) as [Hdom Happ]
      by (repeat split; simpl; auto using safe_text_stripped);
    set (r := x) in *; set (st1 := add_review st0 k r) in *
  end.
  destruct (_ >=? _).
  - exists [r]. simpl. repeat split; by try apply Forall_singleton.
  - destruct (IH st1) as (added & -> & Hd & Ha).
    exists (r :: added). simpl. rewrite <- app_assoc.
    repeat split; by try constructor.
Qed.

Lemma dom_pass_appends pg app max_reviews budget n pidx st :
  ∃ added,
    reviews (dom_pass pg app max_reviews budget n pidx st) =
      reviews st ++ added ∧
    Forall dom_entry added ∧ Forall (carries_app app) added.
Proof.
  revert pidx st. induction n as [|n IH]; intros pidx st; simpl.
  { exists []. by rewrite app_nil_r. }
  set (st0 := {| tick := S (tick st); seen := seen st; reviews := reviews st |}).
  assert (∃ added, reviews st0 = reviews st ++ added ∧
            Forall dom_entry added ∧ Forall (carries_app app) added) as Hnone.
  { exists []. by rewrite app_nil_r. }
  destruct (deadline_passed _ _ _); [done|].
  destruct (_ && _); [done|].
  destruct (scan_cards_appends pg app max_reviews budget
              (take 120 (cards (views pg pidx))) st0)
    as (added & Hadded & Hd & Ha).
  destruct (scan_cards _ _ _ _ _ _) as [st1 returned]. simpl in Hadded.
  assert (∀ st2, (∃ more, reviews st2 = reviews st1 ++ more ∧
                   Forall dom_entry more ∧ Forall (carries_app app) more) →
            ∃ all, reviews st2 = reviews st ++ all ∧
                   Forall dom_entry all ∧ Forall (carries_app app) all) as Hjoin.
  { intros st2 (more & -> & Hd2 & Ha2). exists (added ++ more).
    rewrite Hadded, <- app_assoc. repeat split; by try apply Forall_app. }
  assert (∃ all, reviews st1 = reviews st ++ all ∧
                 Forall dom_entry all ∧ Forall (carries_app app) all) as Hhere.
  { apply Hjoin. exists []. by rewrite app_nil_r. }
  destruct returned; [done|].
  destruct (_ =? _)%nat; [done|].
  destruct (load_more _); [|by apply Hjoin, IH|];
    (destruct (next_btn _); [done|by apply Hjoin, IH|done]).
Qed.

Lemma jsonld_pass_carries app max_reviews rs st :
  Forall (carries_app app) (reviews st) →
  Forall (carries_app app) (reviews (jsonld_pass app max_reviews rs st).1).
Proof.
  revert st. induction rs as [|r rs IH]; intros st Hst; simpl; [done|].
  destruct (ld_title r); try done. destruct (ld_text r); try done.
  destruct (_ || _); [by apply IH|].
  match goal with |- context [add_review st ?k ?x] =>
    assert (Forall (carries_app app) (reviews (add_review st k x))) as Hadd
      by (simpl; apply Forall_app; split; [done|by apply Forall_singleton]);
    set (st1 := add_review st k x) in *
  end.
  destruct (_ >=? _); [done|]. by apply IH.
Qed.

(** X11.  The reviews of a harvest are those of the JSON-LD pass followed by
    those of the DOM pass; a DOM review has a trimmed text of at least 40
    characters; every review carries the name, URL and category URL of the
    app record as it is after the harvest; without page iterations
    ([max_pages] below one) there is no DOM review. *)
Theorem harvest_provenance pg app max_reviews max_pages budget :
  let app' := (extract_shopify_reviews pg app max_reviews max_pages budget).1 in
  let result := (extract_shopify_reviews pg app max_reviews max_pages budget).2 in
  ∃ structured dom,
    result = structured ++ dom ∧
    Forall (λ r, source r = "jsonld") structured ∧
    Forall dom_entry dom ∧
    Forall (carries_app app') result ∧
    (max_pages ≤ 0 → dom = []).
Proof.
  intros app' result. subst app' result.
  destruct (harvest_cases pg app max_reviews max_pages budget)
    as [-> | [Hnil | (app' & st1 & exit & Hld & ->)]].
  - by exists [], [].
  - rewrite Hnil. by exists [], [].
  - simpl.
    pose proof (jsonld_pass_source app' max_reviews _
                  {| tick := 1; seen := ∅; reviews := [] |}
                  (extracted_source (ld_scripts pg)) (Forall_nil_2 _)) as Hsrc.
    pose proof (jsonld_pass_carries app' max_reviews
                  (_extract_json_ld_reviews (ld_scripts pg))
                  {| tick := 1; seen := ∅; reviews := [] |} (Forall_nil_2 _))
      as Hcar.
    rewrite Hld in Hsrc, Hcar. simpl in Hsrc, Hcar.
    destruct exit.
    + destruct (dom_pass_appends pg app' max_reviews budget
                  (Z.to_nat max_pages) 0 st1) as (added & Hadded & Hd & Ha).
      exists (reviews st1), added. rewrite Hadded.
      repeat split; try done; [by apply Forall_app|].
      intros Hmax. replace (Z.to_nat max_pages) with 0%nat in Hadded by lia.
      simpl in Hadded. symmetry in Hadded.
      rewrite <- (app_nil_r (reviews st1)) in Hadded at 2.
      by apply app_inv_head in Hadded.
    + exists (reviews st1), []. by rewrite app_nil_r.
    + exists (reviews st1), []. by rewrite app_nil_r.
Qed.

(** ** How much the DOM pass does *)

Lemma scan_cards_ticks pg app max_reviews budget cs st :
  (tick (scan_cards pg app max_reviews budget cs st).1
   ≤ tick st + length cs)%nat.
Proof.
  revert st. induction cs as [|c cs IH]; intros st; simpl; [lia|].
  set (st0 := {| tick := S (tick st); seen := seen st; reviews := reviews st |}).
  assert (∀ st', tick st' = S (tick st) →
    (tick (scan_cards pg app max_reviews budget cs st').1
     ≤ tick st + S (length cs))%nat) as Hstep.
  { intros st' Ht. specialize (IH st'). lia. }
  destruct (deadline_passed _ _ _); [simpl; lia|].
  destruct (_ <? _)%nat; [by apply Hstep|].
  destruct (_ || _); [by apply Hstep|].
  destruct (_ >=? _); [simpl; lia|]. by apply Hstep.
Qed.

(** X12.  The DOM pass reads the clock at most 121 times per page iteration:
    once before the page and once before each of at most 120 cards; with
    [n] iterations left it takes at most [121 * n] readings. *)
Theorem dom_pass_work_bound pg app max_reviews budget n pidx st :
  (tick (dom_pass pg app max_reviews budget n pidx st)
   ≤ tick st + 121 * n)%nat.
Proof.
  revert pidx st. induction n as [|n IH]; intros pidx st;
    cbn [dom_pass]; [lia|].
  set (st0 := {| tick := S (tick st); seen := seen st; reviews := reviews st |}).
  destruct (deadline_passed _ _ _); [simpl; lia|].
  destruct (_ && _); [simpl; lia|].
  pose proof (scan_cards_ticks pg app max_reviews budget
                (take 120 (cards (views pg pidx))) st0) as Hscan.
  rewrite length_take in Hscan.
  destruct (scan_cards _ _ _ _ _ _) as [st1 returned].
  assert (tick st1 ≤ tick st + 121)%nat as Hst1.
  { change (tick st1 ≤ S (tick st) + (120 `min` length (cards (views pg pidx))))%nat
      in Hscan. lia. }
  assert (∀ p, tick (dom_pass pg app max_reviews budget n p st1)
               ≤ tick st + 121 * S n)%nat as Hnext.
  { intros p. specialize (IH p st1). lia. }
  destruct returned; [lia|].
  destruct (_ =? _)%nat; [lia|].
  destruct (load_more _); [|apply Hnext|];
    (destruct (next_btn _); [lia|apply Hnext|lia]).
Qed.

(** ** Failures *)



(** ** The JSON-LD reader *)





End HarvestMore.

(* ===================================================================== *)
(** * Slugs and debug file names *)
(* ===================================================================== *)

Section SlugFacts.
Import Py Main Utils Props.

Lemma slug_or_dash_plain c :
  is_slug_or_dash c = true → is_space c = false ∧ has_lower c = false.
Proof.
  destruct c as [[] [] [] [] [] [] [] []]; vm_compute; auto.
Qed.

Lemma slug_char_no_dash c : is_slug_char c = true → is_char "-" c = false.
Proof.
  destruct c as [[] [] [] [] [] [] [] []]; vm_compute; auto.
Qed.

Lemma slug_or_dash_cases c :
  is_slug_or_dash c = true → is_slug_char c = false → is_char "-" c = true.
Proof.
  unfold is_slug_or_dash, is_slug_char. intros H Hc. by rewrite Hc in H.
Qed.

Lemma all_chars_impl (p q : ascii → bool) s :
  (∀ c, p c = true → q c = true) →
  all_chars p s = true → all_chars q s = true.
Proof.
  intros Hpq. induction s as [|c s IH]; [done|]. simpl.
  intros [Hc Hs]%andb_true_iff. by rewrite (Hpq c Hc), IH.
Qed.

Lemma all_chars_str_take p n s :
  all_chars p s = true → all_chars p (str_take n s) = true.
Proof.
  revert n. induction s as [|c s IH]; intros [|n]; try done. simpl.
  intros [Hc Hs]%andb_true_iff. by rewrite Hc, IH.
Qed.

Lemma length_str_take n s : (String.length (str_take n s) ≤ n)%nat.
Proof.
  revert s. induction n as [|n IH]; intros [|c s]; simpl; try lia.
  specialize (IH s). lia.
Qed.

Lemma lstrip_none p s :
  all_chars (λ c, negb (p c)) s = true → lstrip p s = s.
Proof.
  destruct s as [|c s]; [done|]. simpl.
  intros [Hc _]%andb_true_iff. by apply negb_true_iff in Hc as ->.
Qed.

Lemma rstrip_none p s :
  all_chars (λ c, negb (p c)) s = true → rstrip p s = s.
Proof.
  induction s as [|c s IH]; [done|]. simpl.
  intros [Hc Hs]%andb_true_iff. rewrite (IH Hs).
  apply negb_true_iff in Hc as ->. by destruct s.
Qed.

Lemma strip_chars_none p s :
  all_chars (λ c, negb (p c)) s = true → strip_chars p s = s.
Proof.
  intros H. unfold strip_chars. by rewrite (lstrip_none p s H), rstrip_none.
Qed.

Lemma str_lower_fixed s :
  all_chars (λ c, negb (has_lower c)) s = true → str_lower s = s.
Proof.
  induction s as [|c s IH]; [done|]. unfold str_lower in *. simpl.
  intros [Hc Hs]%andb_true_iff. rewrite (IH Hs).
  unfold lower. by apply negb_true_iff in Hc as ->.
Qed.

(** ** [_slug] *)

Lemma dash_runs_chars b s :
  all_chars is_slug_or_dash (dash_runs b s) = true.
Proof.
  revert b. induction s as [|c s IH]; intros b; [done|]. simpl.
  destruct (is_slug_char c) eqn:Hc.
  - simpl. rewrite IH. unfold is_slug_or_dash, is_slug_char in *.
    by rewrite Hc.
  - destruct b; [apply IH|]. simpl. by rewrite IH.
Qed.

Lemma dash_runs_single b s : single_dashes b (dash_runs b s) = true.
Proof.
  revert b. induction s as [|c s IH]; intros b; [done|]. simpl.
  destruct (is_slug_char c) eqn:Hc.
  - simpl. by rewrite (slug_char_no_dash c Hc).
  - destruct b; [apply IH|]. simpl. apply IH.
Qed.

Lemma single_dashes_weaken b s :
  single_dashes b s = true → single_dashes false s = true.
Proof.
  destruct s as [|c s]; [done|]. simpl.
  destruct (is_char "-" c); [|done]. by intros [_ ->]%andb_true_iff.
Qed.

Lemma single_dashes_lstrip p b s :
  single_dashes b s = true → single_dashes false (lstrip p s) = true.
Proof.
  revert b. induction s as [|c s IH]; intros b; [done|].
  cbn [lstrip]. destruct (p c); [|apply single_dashes_weaken].
  simpl. destruct (is_char "-" c); [|by apply IH].
  intros [_ H]%andb_true_iff. by apply (IH true).
Qed.

Lemma single_dashes_cons b c s :
  single_dashes b (String c s) =
    if is_char "-" c then negb b && single_dashes true s
    else single_dashes false s.
Proof. done. Qed.

Lemma single_dashes_rstrip p b s :
  single_dashes b s = true → single_dashes b (rstrip p s) = true.
Proof.
  revert b. induction s as [|c s IH]; intros b; [done|].
  rewrite single_dashes_cons. cbn [rstrip]. intros H.
  assert (single_dashes (is_char "-" c) s = true ∧
          (is_char "-" c = true → b = false)) as [Hs Hb].
  { destruct (is_char "-" c); [|done].
    apply andb_true_iff in H as [Hb%negb_true_iff Hs]. done. }
  specialize (IH _ Hs).
  destruct (rstrip p s) as [|d r].
  - destruct (p c); [done|]. rewrite single_dashes_cons.
    destruct (is_char "-" c); [|done]. by rewrite Hb.
  - rewrite single_dashes_cons. destruct (is_char "-" c); [|done].
    by rewrite Hb, IH.
Qed.

Lemma dash_runs_fixed b s :
  all_chars is_slug_or_dash s = true → single_dashes b s = true →
  dash_runs b s = s.
Proof.
  revert b. induction s as [|c s IH]; intros b; [done|]. simpl.
  intros [Hc Hs]%andb_true_iff.
  destruct (is_slug_char c) eqn:Hslug.
  - rewrite (slug_char_no_dash c Hslug). intros H. by rewrite (IH false).
  - pose proof (slug_or_dash_cases c Hc Hslug) as Hdash. rewrite Hdash.
    apply Ascii.eqb_eq in Hdash as ->.
    intros [->%negb_true_iff H]%andb_true_iff. by rewrite (IH true).
Qed.

Lemma slug_fixed r : slug_form r → _slug r = r.
Proof.
  intros (Hne & Hchars & Hsingle & Hends). unfold _slug.
  assert (strip r = r) as ->.
  { apply strip_chars_none. revert Hchars. apply all_chars_impl.
    by intros c [-> _]%slug_or_dash_plain. }
  assert (str_lower r = r) as ->.
  { apply str_lower_fixed. revert Hchars. apply all_chars_impl.
    by intros c [_ ->]%slug_or_dash_plain. }
  rewrite dash_runs_fixed, Hends by done.
  by apply String.eqb_neq in Hne as ->.
Qed.

Lemma slug_has_form s : slug_form (_slug s).
Proof.
  unfold _slug.
  destruct (String.eqb _ "") eqn:E.
  { by repeat split. }
  apply String.eqb_neq in E. split; [done|]. unfold strip_chars in *.
  repeat split.
  - apply all_chars_rstrip, all_chars_lstrip, dash_runs_chars.
  - eapply single_dashes_rstrip, single_dashes_lstrip, dash_runs_single.
  - apply (strip_chars_idem (is_char "-")).
Qed.

(** X15.  The slug of a category name is a slug (lower-case letters and digits
    joined by single dashes, not empty, no dash at either end), whatever
    the name; the slugs are the texts [_slug] leaves as they are, so that
    taking the slug twice changes nothing. *)
Theorem slug_is_slug s :
  slug_form (_slug s) ∧
  (∀ r, slug_form r ↔ _slug r = r) ∧
  _slug (_slug s) = _slug s.
Proof.
  split; [apply slug_has_form|]. split.
  - intros r. split; [apply slug_fixed|].
    intros <-. apply slug_has_form.
  - apply slug_fixed, slug_has_form.
Qed.

(** ** [slugify] and the debug files *)

Lemma keep_chars_all p s : all_chars p (keep_chars p s) = true.
Proof.
  induction s as [|c s IH]; [done|]. simpl.
  destruct (p c) eqn:Hc; [|done]. simpl. by rewrite Hc.
Qed.

Lemma slugify_chars text : all_chars is_slug_or_dash (slugify text) = true.
Proof.
  unfold slugify. destruct (String.eqb _ ""); [done|].
  apply all_chars_str_take, keep_chars_all.
Qed.

Lemma str_take_nonempty n s : s ≠ "" → str_take (S n) s ≠ "".
Proof. by destruct s. Qed.

Lemma count_char_app x s t :
  count_char x (s +:+ t) = (count_char x s + count_char x t)%nat.
Proof.
  induction s as [|c s IH]; [done|].
  change (String c s +:+ t) with (String c (s +:+ t)).
  simpl. rewrite IH. lia.
Qed.

Lemma count_char_none p x s :
  p x = false → all_chars p s = true → count_char x s = 0%nat.
Proof.
  intros Hx. induction s as [|c s IH]; [done|]. simpl.
  intros [Hc Hs]%andb_true_iff. rewrite (IH Hs).
  destruct (Ascii.eqb_spec c x) as [->|]; [congruence|done].
Qed.

(** X16.  The name [slugify] gives is not empty, at most 90 characters long and
    made of lower-case letters, digits and dashes only, whatever the text;
    so the two files [save_debug] writes lie directly in [debug/html] and
    [debug/screenshots], and their only dot is that of the extension. *)
Theorem slugify_safe text :
  slugify text ≠ "" ∧
  (String.length (slugify text) ≤ 90)%nat ∧
  all_chars is_slug_or_dash (slugify text) = true ∧
  count_char "/" (debug_html_path text) = 2%nat ∧
  count_char "/" (debug_screenshot_path text) = 2%nat ∧
  count_char "." (debug_html_path text) = 1%nat ∧
  count_char "." (debug_screenshot_path text) = 1%nat.
Proof.
  pose proof (slugify_chars text) as Hchars.
  assert (∀ x, is_slug_or_dash x = false →
            count_char x (slugify text) = 0%nat) as Hnone.
  { intros x Hx. by apply (count_char_none is_slug_or_dash). }
  split; [|split; [|split; [done|]]].
  - unfold slugify. destruct (String.eqb _ "") eqn:E; [done|].
    apply String.eqb_neq in E. by apply str_take_nonempty.
  - unfold slugify. destruct (String.eqb _ ""); [simpl; lia|].
    apply length_str_take.
  - unfold debug_html_path, debug_screenshot_path.
    rewrite !count_char_app, !Hnone by done. done.
Qed.

End SlugFacts.

(* ===================================================================== *)
(** * The navigation file and the choice of categories *)
(* ===================================================================== *)

Section NavFacts.
Import Py Listing Nav Props.

Lemma stripped_field_trimmed c k s :
  stripped_field c k = Ok s → strip s = s.
Proof.
  unfold stripped_field. destruct (py_or _ _); try done.
  intros [= <-]. apply strip_idem.
Qed.

Lemma collect_categories_valid cats out out' :
  Forall valid_category out →
  collect_categories cats out = Ok out' →
  Forall valid_category out' ∧ (length out ≤ length out')%nat.
Proof.
  revert out. induction cats as [|c cats IH]; intros out Hout; simpl.
  { by intros [= <-]. }
  destruct c as [| | | | | |c]; try done.
  destruct (stripped_field c "name") as [name|] eqn:Hname; [|done].
  destruct (stripped_field c "url") as [url|] eqn:Hurl; [|done].
  destruct (stripped_field c "description") as [desc|] eqn:Hdesc; [|done].
  destruct (_ && _) eqn:Hkeep; [|by apply IH].
  apply andb_true_iff in Hkeep
    as [Hn%negb_true_iff%String.eqb_neq Hu%negb_true_iff%String.eqb_neq].
  intros H. apply IH in H as [Hall Hlen].
  - split; [done|]. rewrite length_app in Hlen. lia.
  - apply Forall_app. split; [done|]. apply Forall_singleton.
    repeat split; simpl; eauto using stripped_field_trimmed.
Qed.

(** X17.  Where the loader returns, it returns at least one category, and each
    has a name and a URL that are trimmed and not empty, and a trimmed
    description. *)
Theorem nav_categories_valid nav_file out :
  load_categories_from_nav nav_file = Ok out →
  out ≠ [] ∧ Forall valid_category out.
Proof.
  unfold load_categories_from_nav.
  destruct nav_file as [[data|]|]; try done.
  destruct data as [| | | | | |data]; try done.
  destruct (py_or _ _) as [| | | | |cats|]; try done.
  destruct cats as [|c cats]; [done|].
  destruct (collect_categories _ _) as [out'|] eqn:Hcollect; [|done].
  apply collect_categories_valid in Hcollect as [Hall _]; [|done].
  destruct out' as [|c' out']; [done|]. by intros [= <-].
Qed.

Lemma nav_categories_valid_witness :
  load_categories_from_nav
    (Some (Ok (PDict [("categories",
       PList [PDict [("name", PStr " Marketing ");
                     ("url", PStr "https://apps.shopify.com/categories/marketing")];
              PDict [("name", PStr ""); ("url", PStr "https://apps.shopify.com")]])]))) =
    Ok [{| cat_name := "Marketing";
           cat_url := "https://apps.shopify.com/categories/marketing";
           cat_description := "" |}] ∧
  Forall valid_category
    [{| cat_name := "Marketing";
        cat_url := "https://apps.shopify.com/categories/marketing";
        cat_description := "" |}].
Proof.
  split; [by vm_compute|].
  apply (nav_categories_valid
           (Some (Ok (PDict [("categories",
              PList [PDict [("name", PStr " Marketing ");
                            ("url", PStr "https://apps.shopify.com/categories/marketing")];
                     PDict [("name", PStr ""); ("url", PStr "https://apps.shopify.com")]])])))).
  by vm_compute.
Defined.

(** ** The choice *)

Lemma pick_by_index_members all_categories selected :
  Forall (λ c, c ∈ all_categories) (pick_by_index all_categories selected).
Proof.
  unfold pick_by_index. apply Forall_flat_map, Forall_forall.
  intros [idx|name] _; [|done].
  destruct (_ && _); [|done].
  destruct (all_categories !! _) as [c|] eqn:E; [|done].
  apply Forall_singleton. by eapply list_elem_of_lookup_2.
Qed.

(** X18.  The categories of a run are categories of the navigation file; a
    positive [max_categories] bounds their number; chosen by name, or
    with nothing selected, they come in the order of the file, each at
    most as often as the file has it. *)
Theorem select_categories_members all_categories selected max_categories :
  let cats := select_categories all_categories selected max_categories in
  Forall (λ c, c ∈ all_categories) cats ∧
  (0 < max_categories → Z.of_nat (length cats) ≤ max_categories) ∧
  (selected = [] ∨ forallb is_index selected = false →
     cats `sublist_of` all_categories).
Proof.
  intros cats. subst cats. unfold select_categories.
  set (cats := match selected with [] => _ | _ => _ end).
  assert (Forall (λ c, c ∈ all_categories) cats) as Hmem.
  { subst cats. destruct selected as [|x sel].
    - by apply Forall_forall.
    - destruct (forallb _ _); [apply pick_by_index_members|].
      apply Forall_forall. by intros c [_ ?]%list_elem_of_filter. }
  assert (selected = [] ∨ forallb is_index selected = false →
          cats `sublist_of` all_categories) as Hsub.
  { subst cats. intros [-> | Hnames]; [done|].
    destruct selected as [|x sel]; [done|]. rewrite Hnames.
    apply sublist_filter. }
  destruct (Z.gtb_spec max_categories 0) as [Hpos|Hnot].
  - split; [by apply Forall_take|]. split.
    + intros _. rewrite length_take. lia.
    + intros H. etrans; [apply sublist_take|by apply Hsub].
  - split; [done|]. split; [lia|done].
Qed.

(** X19.  A selection of indices none of which is between 1 and the number of
    categories gives a run without categories; no index counts from the
    end, and none is an error. *)
Theorem select_out_of_range all_categories selected max_categories :
  selected ≠ [] →
  Forall (out_of_range all_categories) selected →
  select_categories all_categories selected max_categories = [].
Proof.
  intros Hne Hall. unfold select_categories.
  assert (forallb is_index selected = true) as Hidx.
  { apply forallb_forall. intros x Hx%list_elem_of_In.
    rewrite Forall_forall in Hall. by destruct (Hall x Hx) as (idx & -> & _). }
  assert (pick_by_index all_categories selected = []) as Hpick.
  { unfold pick_by_index. clear Hne Hidx.
    induction Hall as [|x sel (idx & -> & Hout) _ IH]; [done|].
    simpl. rewrite IH.
    destruct (Z.leb_spec 0 (idx - 1)), (Z.ltb_spec (idx - 1)
      (Z.of_nat (length all_categories))); simpl; try done. lia. }
  destruct selected as [|x sel]; [done|]. rewrite Hidx, Hpick.
  destruct (_ >? _); [apply take_nil|done].
Qed.

Lemma select_out_of_range_witness :
  select_categories [Samples.marketing; Samples.sales]
    [ByIndex 0; ByIndex 3; ByIndex (-1)] 5 = [].
Proof.
  apply (select_out_of_range [Samples.marketing; Samples.sales]
           [ByIndex 0; ByIndex 3; ByIndex (-1)] 5); [done|].
  repeat apply Forall_cons_2; [..|apply Forall_nil_2];
    eexists; (split; [reflexivity|simpl; lia]).
Defined.

End NavFacts.

(* ===================================================================== *)
(** * The books of a run *)
(* ===================================================================== *)

Section RunMore.
Import Py Main Props.

Implicit Types (st : run_state) (cfg : settings).

Lemma dedupe_records_lengths apps st per_cat st' per_cat' :
  dedupe_records apps st per_cat = Ok (st', per_cat') →
  (length (all_results_for_files st') + length per_cat =
     length (all_results_for_files st) + length per_cat')%nat ∧
  category_stats st' = category_stats st ∧
  generated_files st' = generated_files st.
Proof.
  revert st per_cat. induction apps as [|r apps IH]; intros st per_cat; simpl.
  { by intros [= <- <-]. }
  destruct (record_url r); [|done].
  destruct (_ && _); intros (Hlen & Hstats & Hfiles)%IH; simpl in *; [done|].
  rewrite !length_app in Hlen. simpl in Hlen. repeat split; [lia|done..].
Qed.

Lemma length_files_of cfg csv xlsx :
  length (files_of cfg csv xlsx) = formats cfg.
Proof.
  unfold files_of, formats. by destruct (export_csv cfg), (export_xlsx cfg).
Qed.

Lemma formats_none cfg :
  formats cfg = 0%nat ↔ export_csv cfg || export_xlsx cfg = false.
Proof.
  unfold formats. destruct (export_csv cfg), (export_xlsx cfg); simpl;
    split; (done || lia).
Qed.

Lemma run_categories_books cfg scraped st st' :
  run_categories cfg scraped st = Ok st' →
  books_kept cfg st → books_kept cfg st'.
Proof.
  revert st. induction scraped as [|[cat [apps|e]] rest IH]; intros st; simpl;
    [by intros [= <-]| |done].
  destruct (dedupe_records apps st []) as [[st1 per_cat]|] eqn:Hd; [|done].
  apply dedupe_records_lengths in Hd as (Hlen & Hstats & Hfiles).
  simpl in Hlen. rewrite Nat.add_0_r in Hlen.
  intros Hrun (Hsum & Hnone & Hcount). apply (IH _ Hrun). clear IH Hrun.
  unfold export_category.
  destruct (export_csv cfg || export_xlsx cfg) eqn:Hfmt; simpl.
  - assert (formats cfg ≠ 0%nat) as Hsome.
    { intros Hz%formats_none. congruence. }
    destruct per_cat as [|r per_cat]; simpl.
    + simpl in Hlen. rewrite Nat.add_0_r in Hlen.
      unfold books_kept. rewrite Hstats, Hfiles, Hlen. done.
    + unfold books_kept. simpl.
      rewrite Hstats, Hfiles, sum_list_with_app, !length_app,
        length_files_of, Hcount. simpl.
      split; [intros _; specialize (Hsum Hsome); simpl in Hlen; lia|].
      split; [done|lia].
  - unfold books_kept. rewrite Hstats, Hfiles.
    apply formats_none in Hfmt.
    destruct (Hnone Hfmt) as [Hs Hf]. rewrite Hs, Hf, Hfmt. done.
Qed.

Lemma export_combined_files cfg st :
  length (generated_files (export_combined cfg st)) =
    (length (generated_files st) +
     formats cfg * if (length (all_results_for_files st) =? 0)%nat
                   then 0 else 1)%nat ∧
  (formats cfg = 0%nat →
     generated_files (export_combined cfg st) = generated_files st).
Proof.
  unfold export_combined.
  destruct (export_csv cfg || export_xlsx cfg) eqn:Hfmt; simpl.
  - destruct (length (all_results_for_files st) =? 0)%nat; simpl.
    + split; [lia|done].
    + rewrite length_app, length_files_of. split; [lia|].
      intros Hz%formats_none. congruence.
  - apply formats_none in Hfmt. rewrite Hfmt. split; [lia|done].
Qed.

(** X20.  The books of a run that comes to its summary.  The number pushed to
    the dataset is the combined count of the summary.  With an export
    format switched on, the counts of the per-category entries add up to
    it, and the run has written one file per format for each entry and for
    the combined export, unless there was no record at all.  With both
    formats off there is no per-category entry and no file, though the
    combined count is still that of the records. *)
Theorem run_books_balance cfg scraped st sm :
  run_loop cfg scraped = Ok (st, sm) →
  pushed_to_dataset sm = combined_items_exported sm ∧
  combined_items_exported sm = length (dataset st) ∧
  (formats cfg ≠ 0%nat →
     sum_list_with items_exported (per_category sm) =
       combined_items_exported sm) ∧
  (formats cfg = 0%nat → per_category sm = [] ∧ files_generated sm = []) ∧
  length (files_generated sm) =
    (formats cfg * (length (per_category sm) +
                    if (combined_items_exported sm =? 0)%nat then 0 else 1))%nat.
Proof.
  intros Hrun.
  pose proof (run_loop_spec _ _ _ _ Hrun)
    as (Hres & Hdata & Hpushed & _ & _ & ->).
  unfold run_loop in Hrun.
  destruct (run_categories cfg scraped initial_state) as [st0|] eqn:Hcats;
    [|done].
  injection Hrun as <-.
  apply run_categories_books in Hcats as (Hsum & Hnone & Hcount);
    [|by repeat split; simpl; try lia].
  destruct (export_combined_frame cfg st0) as (_ & _ & _ & _ & Hall & Hstats).
  destruct (export_combined_files cfg st0) as [Hfiles Hsame].
  cbn [pushed_to_dataset combined_items_exported per_category
       files_generated summary_of].
  rewrite Hfiles, Hstats, Hall, Hcount.
  split; [by rewrite Hpushed, <- Hres, Hall|].
  split; [by rewrite Hdata, <- Hres, Hall|].
  split; [done|]. split; [|lia].
  intros Hz. rewrite (Hsame Hz). by apply Hnone.
Qed.

Lemma run_books_balance_witness :
  ∃ st sm,
    run_loop Samples.default_settings Samples.shared_app_run = Ok (st, sm) ∧
    pushed_to_dataset sm = combined_items_exported sm ∧
    (formats Samples.default_settings ≠ 0%nat →
       sum_list_with items_exported (per_category sm) =
         combined_items_exported sm).
Proof.
  destruct (run_loop_total Samples.default_settings Samples.shared_app_run)
    as (st & sm & Hrun).
  { repeat (apply Forall_cons; split;
              [eexists; split; [reflexivity|];
               repeat (apply Forall_cons; split; [by vm_compute; eauto|]);
               apply Forall_nil_2|]);
    apply Forall_nil_2. }
  exists st, sm. split; [done|].
  destruct (run_books_balance Samples.default_settings Samples.shared_app_run
              st sm Hrun) as (H1 & _ & H3 & _).
  done.
Defined.

(** ** A category that fails *)

Lemma run_categories_raise cfg pre cat e post st :
  Forall scraped_well pre →
  run_categories cfg (pre ++ (cat, Raise e) :: post) st = Raise e.
Proof.
  intros Hpre. revert st.
  induction Hpre as [|[cat' o] pre (apps & Ho & Happs) _ IH]; intros st;
    [done|]. simpl in *. subst o.
  destruct (dedupe_records_total apps st [] Happs) as (st1 & per_cat & ->).
  apply IH.
Qed.

Lemma run_categories_never_ok cfg pre cat e post st :
  ∃ e', run_categories cfg (pre ++ (cat, Raise e) :: post) st = Raise e'.
Proof.
  revert st. induction pre as [|[cat' [apps|e0]] pre IH]; intros st; simpl;
    [by eauto| |by eauto].
  destruct (dedupe_records apps st []) as [[st1 per_cat]|]; [apply IH|eauto].
Qed.

(** X21.  A category whose scraping raises ends the run: the exception leaves
    the run, no summary is made, and the categories behind it are not
    looked at.  Where the categories before it went through, the exception
    of the run is that of the category. *)
Theorem failed_category_ends_run cfg pre cat e post :
  (∃ e', ∀ post', run_loop cfg (pre ++ (cat, Raise e) :: post') = Raise e') ∧
  (Forall scraped_well pre →
     run_loop cfg (pre ++ (cat, Raise e) :: post) = Raise e).
Proof.
  split.
  - destruct (run_categories_never_ok cfg pre cat e post initial_state)
      as [e' He'].
    exists e'. intros post'. unfold run_loop.
    enough (run_categories cfg (pre ++ (cat, Raise e) :: post') initial_state
            = Raise e') as -> by done.
    revert He'. generalize initial_state.
    induction pre as [|[cat' [apps|e0]] pre IH]; intros st; simpl; [done| |done].
    destruct (dedupe_records apps st []) as [[st1 per_cat]|]; [apply IH|done].
  - intros Hpre. unfold run_loop. by rewrite run_categories_raise.
Qed.

End RunMore.
